(** * Scoring model of the football odds analyzer (src/analyzer.py)

    A shallow embedding of the numerical core: the Poisson and Dixon-Coles
    score-matrix builders, the historical blender, the market aggregator, the
    score ranker and the expected-value / Kelly computations, with the two
    helpers of src/report_generator.py that read the aggregated results.

    Number model.  Python floats and numpy float64 values are idealised as
    real numbers: the arithmetic operations do not round or overflow, and a
    zero has no sign (it behaves as +0.0).  What IEEE-754 adds on top of the
    reals is kept: numpy array cells range over [npfloat], which has the two
    infinities and NaN, and the operations follow the IEEE tables.  Plain
    Python floats ([R]) raise [ZeroDivisionError] on a zero divisor, numpy
    values do not.  The Poisson probabilities are where binary64 shows through
    the reals at ordinary inputs: a probability below half of the smallest
    positive binary64 number is returned as 0.0, and [poisson_pmf] keeps that
    underflow.  Rounding is not modelled: an equality between two sums holds
    in the program up to rounding, and the bounds on the total of the grids
    returned by the two builders are stated with the tolerance 1e-9. *)

From Stdlib Require Import String DecimalString.
From Stdlib Require Import Reals Lra Lia ZArith Bool List Permutation Sorted.
Import ListNotations.

Open Scope R_scope.

(** ** Exceptions and the error monad *)

(** The Python exceptions the modelled code can raise, followed by the two
    error kinds named by the specification (no [raise] of the source produces
    them; they are here so that statements about them can be written). *)
Inductive exn : Type :=
| ZeroDivisionError
| ValueError
| IndexError
| InvalidInput
| InvalidOdd.

Inductive result (A : Type) : Type :=
| Ok (a : A)
| Err (e : exn).

Arguments Ok {A} a.
Arguments Err {A} e.

Definition bind {A B : Type} (m : result A) (k : A -> result B) : result B :=
  match m with
  | Ok a => k a
  | Err e => Err e
  end.

Notation "x <- m ;; k" := (bind m (fun x => k))
  (at level 61, m at next level, right associativity).

(** [for x in l: s = body x s], stopping at the first exception. *)
Fixpoint for_each {A S : Type} (l : list A) (s : S) (body : A -> S -> result S)
  : result S :=
  match l with
  | [] => Ok s
  | x :: l' => s' <- body x s ;; for_each l' s' body
  end.

(** [range(n)] for a Python int [n]: empty when [n <= 0]. *)
Definition py_range (n : Z) : list nat := seq 0 (Z.to_nat n).

(** ** Python floats *)

(** [a / b] on Python floats. *)
Definition py_div (a b : R) : result R :=
  if Req_dec_T b 0 then Err ZeroDivisionError else Ok (a / b).

(** ** numpy float64 values *)

Inductive npfloat : Type :=
| Fin (r : R)
| PInf
| NInf
| NaN.

Definition np_neg (x : npfloat) : npfloat :=
  match x with
  | Fin r => Fin (- r)
  | PInf => NInf
  | NInf => PInf
  | NaN => NaN
  end.

Definition np_add (x y : npfloat) : npfloat :=
  match x, y with
  | NaN, _ | _, NaN => NaN
  | PInf, NInf | NInf, PInf => NaN
  | PInf, _ | _, PInf => PInf
  | NInf, _ | _, NInf => NInf
  | Fin a, Fin b => Fin (a + b)
  end.

Definition np_sub (x y : npfloat) : npfloat := np_add x (np_neg y).

(** An infinity of the sign of [r]; NaN for [r = 0] (0 * inf). *)
Definition inf_of_sign (r : R) : npfloat :=
  if Rlt_dec 0 r then PInf else if Rlt_dec r 0 then NInf else NaN.

Definition np_mul (x y : npfloat) : npfloat :=
  match x, y with
  | NaN, _ | _, NaN => NaN
  | Fin a, Fin b => Fin (a * b)
  | PInf, Fin b => inf_of_sign b
  | Fin a, PInf => inf_of_sign a
  | NInf, Fin b => inf_of_sign (- b)
  | Fin a, NInf => inf_of_sign (- a)
  | PInf, PInf | NInf, NInf => PInf
  | PInf, NInf | NInf, PInf => NInf
  end.

(** numpy division never raises: x/0 is an infinity of the sign of x, 0/0 is
    NaN, and a finite value over an infinity is 0. *)
Definition np_div (x y : npfloat) : npfloat :=
  match x, y with
  | NaN, _ | _, NaN => NaN
  | Fin a, Fin b => if Req_dec_T b 0 then inf_of_sign a else Fin (a / b)
  | Fin _, PInf | Fin _, NInf => Fin 0
  | PInf, Fin b => if Rlt_dec b 0 then NInf else PInf
  | NInf, Fin b => if Rlt_dec b 0 then PInf else NInf
  | PInf, PInf | PInf, NInf | NInf, PInf | NInf, NInf => NaN
  end.

(** [x < y]; every comparison with NaN is false. *)
Definition np_lt (x y : npfloat) : bool :=
  match x, y with
  | NaN, _ | _, NaN => false
  | _, NInf => false
  | PInf, _ => false
  | NInf, _ => true
  | _, PInf => true
  | Fin a, Fin b => if Rlt_dec a b then true else false
  end.

Definition np_gt (x y : npfloat) : bool := np_lt y x.

(** [x <= y]; every comparison with NaN is false. *)
Definition np_le (x y : npfloat) : bool :=
  match x, y with
  | NaN, _ | _, NaN => false
  | NInf, _ => true
  | _, PInf => true
  | PInf, _ => false
  | _, NInf => false
  | Fin a, Fin b => if Rle_dec a b then true else false
  end.

(** ** Two-dimensional arrays (the values of a DataFrame) *)

(** A grid is the list of its rows; a DataFrame is rectangular. *)
Definition grid : Type := list (list npfloat).

Definition nrows (g : grid) : nat := length g.
Definition ncols (g : grid) : nat :=
  match g with
  | [] => 0%nat
  | row :: _ => length row
  end.

Definition rectangular (r c : nat) (g : grid) : Prop :=
  length g = r /\ Forall (fun row => length row = c) g.

(** [np.zeros((n, n))]: negative dimensions are refused. *)
Definition np_zeros (n : Z) : result grid :=
  if (n <? 0)%Z then Err ValueError
  else Ok (repeat (repeat (Fin 0) (Z.to_nat n)) (Z.to_nat n)).

(** numpy index normalisation on an axis of length [n]: a negative index
    counts from the end, anything outside [-n, n) is an IndexError. *)
Definition np_index (n : nat) (i : Z) : result nat :=
  if ((0 <=? i) && (i <? Z.of_nat n))%Z then Ok (Z.to_nat i)
  else if ((- Z.of_nat n <=? i) && (i <? 0))%Z then Ok (Z.to_nat (i + Z.of_nat n))
  else Err IndexError.

Fixpoint list_set {A : Type} (l : list A) (i : nat) (x : A) : list A :=
  match l, i with
  | [], _ => []
  | _ :: l', O => x :: l'
  | y :: l', S i' => y :: list_set l' i' x
  end.

(** [g[i, j]] *)
Definition grid_get (g : grid) (i j : Z) : result npfloat :=
  i' <- np_index (nrows g) i ;;
  j' <- np_index (ncols g) j ;;
  match nth_error g i' with
  | Some row =>
      match nth_error row j' with
      | Some x => Ok x
      | None => Err IndexError
      end
  | None => Err IndexError
  end.

(** [g[i, j] = x] *)
Definition grid_set (g : grid) (i j : Z) (x : npfloat) : result grid :=
  i' <- np_index (nrows g) i ;;
  j' <- np_index (ncols g) j ;;
  Ok (list_set g i' (list_set (nth i' g []) j' x)).

(** [g[i, j] += x] *)
Definition grid_incr (g : grid) (i j : Z) (x : npfloat) : result grid :=
  old <- grid_get g i j ;;
  grid_set g i j (np_add old x).

Definition grid_map (f : npfloat -> npfloat) (g : grid) : grid :=
  map (map f) g.

Fixpoint zip_with {A B C : Type} (f : A -> B -> C) (l1 : list A) (l2 : list B)
  : list C :=
  match l1, l2 with
  | x :: l1', y :: l2' => f x y :: zip_with f l1' l2'
  | _, _ => []
  end.

Definition grid_map2 (f : npfloat -> npfloat -> npfloat) (g1 g2 : grid) : grid :=
  zip_with (zip_with f) g1 g2.

(** [np.sum(g)]: the sum of all cells.  In exact arithmetic the order of the
    summation does not matter; the cells are taken in row-major order. *)
Definition np_sum (g : grid) : npfloat :=
  fold_right np_add (Fin 0) (concat g).

(** [g / s] for a scalar [s] *)
Definition grid_div (g : grid) (s : npfloat) : grid :=
  grid_map (fun x => np_div x s) g.

(** [c * g] for a scalar [c] *)
Definition grid_scale (c : npfloat) (g : grid) : grid :=
  grid_map (fun x => np_mul c x) g.

(** [np.zeros_like(g)] *)
Definition np_zeros_like (g : grid) : grid :=
  grid_map (fun _ => Fin 0) g.

Definition shape_eqb (g : grid) (r c : nat) : bool :=
  (length g =? r)%nat && forallb (fun row => (length row =? c)%nat) g.

(** ** ScoreMatrix Builder *)

(** Half of the smallest positive binary64 number, 2^-1075: a positive result
    that is not above it is rounded to 0.0. *)
Definition underflow_threshold : R := / 2 ^ 1075.

(** A non-negative result as binary64 returns it, rounding apart. *)
Definition flush_to_zero (x : R) : R :=
  if Rle_dec x underflow_threshold then 0 else x.

(** [scipy.stats.poisson.pmf(k, mu)] for an integer [k >= 0], as SciPy
    documents it: exp(-mu) * mu^k / k! for [mu >= 0] (so pmf(0; 0) = 1), and
    NaN when the parameter is invalid ([mu < 0]).  The value underflows to 0.0
    when it is too small for binary64, as pmf(0; 800) = exp(-800) is. *)
Definition poisson_pmf (k : nat) (mu : R) : npfloat :=
  if Rlt_dec mu 0 then NaN
  else Fin (flush_to_zero (exp (- mu) * mu ^ k / INR (fact k))).

Definition default_max_goals : Z := 5.

Definition calculate_poisson_probabilities
  (home_expected_goals away_expected_goals : R) (max_goals : Z) : result grid :=
  probabilidades <- np_zeros (max_goals + 1) ;;
  for_each (py_range (max_goals + 1)) probabilidades (fun i probabilidades =>
    for_each (py_range (max_goals + 1)) probabilidades (fun j probabilidades =>
      let home_prob := poisson_pmf i home_expected_goals in
      let away_prob := poisson_pmf j away_expected_goals in
      grid_set probabilidades (Z.of_nat i) (Z.of_nat j)
               (np_mul home_prob away_prob))).

Definition default_rho : R := -0.1.

Definition tau (x y : nat) (lambda_x lambda_y rho : R) : R :=
  if ((x =? 0) && (y =? 0))%nat then 1 - lambda_x * lambda_y * rho
  else if ((x =? 0) && (y =? 1))%nat then 1 + lambda_x * rho
  else if ((x =? 1) && (y =? 0))%nat then 1 + lambda_y * rho
  else if ((x =? 1) && (y =? 1))%nat then 1 - rho
  else 1.

(** The closure [dc_prob] returned by [dixon_coles_adjustment]. *)
Definition dixon_coles_adjustment
  (home_expected_goals away_expected_goals rho : R) : nat -> nat -> npfloat :=
  fun x y =>
    let lambda_x := home_expected_goals in
    let lambda_y := away_expected_goals in
    let p_x := poisson_pmf x lambda_x in
    let p_y := poisson_pmf y lambda_y in
    let adjustment := tau x y lambda_x lambda_y rho in
    np_mul (np_mul p_x p_y) (Fin adjustment).

Definition calculate_dixon_coles_matrix
  (home_expected_goals away_expected_goals : R) (max_goals : Z) (rho : R)
  : result grid :=
  let dc_prob := dixon_coles_adjustment home_expected_goals away_expected_goals rho in
  probabilidades <- np_zeros (max_goals + 1) ;;
  probabilidades <-
    for_each (py_range (max_goals + 1)) probabilidades (fun i probabilidades =>
      for_each (py_range (max_goals + 1)) probabilidades (fun j probabilidades =>
        grid_set probabilidades (Z.of_nat i) (Z.of_nat j) (dc_prob i j))) ;;
  Ok (grid_div probabilidades (np_sum probabilidades)).

(** ** Historical Blender *)

(** Goal counts are natural numbers (the results come from digits matched in
    the input text); [weight] is a Python float.

    The elementwise sum follows numpy broadcasting, and the two label
    assignments at the end ([columns], [index]) refuse a result whose shape
    differs from the one of [prob_base]: together they accept a base of the
    shape of the frequency grid, or any base when that grid is 1x1 (its one
    cell is then added to every cell of the base), and raise ValueError
    otherwise.

    [count_result] is the body of the loop over the past results. *)
Definition count_result (max_goals : Z) (resultado : nat * nat)
  (freq_historica : grid) : result grid :=
  let gols_casa := Z.of_nat (fst resultado) in
  let gols_fora := Z.of_nat (snd resultado) in
  if ((gols_casa <=? max_goals) && (gols_fora <=? max_goals))%Z then
    grid_incr freq_historica gols_casa gols_fora (Fin 1)
  else if ((gols_casa >? max_goals) && (gols_fora <=? max_goals))%Z then
    grid_incr freq_historica max_goals gols_fora (Fin 1)
  else if ((gols_casa <=? max_goals) && (gols_fora >? max_goals))%Z then
    grid_incr freq_historica gols_casa max_goals (Fin 1)
  else
    grid_incr freq_historica max_goals max_goals (Fin 1).

Definition adjust_probabilities_with_history
  (prob_base : grid) (historical_results : list (nat * nat)) (weight : R)
  (max_goals : Z) : result grid :=
  freq_historica <- np_zeros (max_goals + 1) ;;
  freq_historica <-
    for_each historical_results freq_historica (count_result max_goals) ;;
  let prob_historica :=
    if np_gt (np_sum freq_historica) (Fin 0)
    then grid_div freq_historica (np_sum freq_historica)
    else np_zeros_like freq_historica in
  let base_part := grid_scale (Fin (1 - weight)) prob_base in
  let hist_part := grid_scale (Fin weight) prob_historica in
  prob_ajustada <-
    (if shape_eqb prob_base (nrows hist_part) (ncols hist_part)
     then Ok (grid_map2 np_add base_part hist_part)
     else if shape_eqb hist_part 1 1
     then Ok (grid_map (fun x => np_add x (nth 0 (nth 0 hist_part []) NaN)) base_part)
     else Err ValueError) ;;
  Ok (grid_div prob_ajustada (np_sum prob_ajustada)).

(** ** Market Aggregator *)

(** A Python dict with string keys, in insertion order. *)
Definition dict (V : Type) : Type := list (string * V).

Fixpoint dict_get {V : Type} (d : dict V) (k : string) : option V :=
  match d with
  | [] => None
  | (k', v) :: d' => if String.eqb k' k then Some v else dict_get d' k
  end.

(** [d[k] = v]: an existing key keeps its place, a new one goes last. *)
Fixpoint dict_set {V : Type} (d : dict V) (k : string) (v : V) : dict V :=
  match d with
  | [] => [(k, v)]
  | (k', v') :: d' =>
      if String.eqb k' k then (k', v) :: d' else (k', v') :: dict_set d' k v
  end.

(** A goal-line threshold: the float and the text Python prints for it. *)
Record threshold : Type := { th_value : R; th_repr : string }.

Definition over_under_thresholds : list threshold :=
  [ {| th_value := 0.5; th_repr := "0.5" |};
    {| th_value := 1.5; th_repr := "1.5" |};
    {| th_value := 2.5; th_repr := "2.5" |};
    {| th_value := 3.5; th_repr := "3.5" |};
    {| th_value := 4.5; th_repr := "4.5" |} ].

(** The accumulators of the single pass over the cells. *)
Record market_acc : Type := {
  prob_vitoria_casa : npfloat;
  prob_empate : npfloat;
  prob_vitoria_fora : npfloat;
  prob_over : list (threshold * npfloat);
  prob_ambas_marcam : npfloat
}.

Definition market_acc_init : market_acc :=
  {| prob_vitoria_casa := Fin 0;
     prob_empate := Fin 0;
     prob_vitoria_fora := Fin 0;
     prob_over := map (fun l => (l, Fin 0)) over_under_thresholds;
     prob_ambas_marcam := Fin 0 |}.

(** The body of the inner loop for the cell [(i, j)] of probability [prob]. *)
Definition market_step (i j : nat) (prob : npfloat) (a : market_acc) : market_acc :=
  let total_gols := (i + j)%nat in
  {| prob_vitoria_casa :=
       if (j <? i)%nat then np_add (prob_vitoria_casa a) prob else prob_vitoria_casa a;
     prob_empate :=
       if (j <? i)%nat then prob_empate a
       else if (i =? j)%nat then np_add (prob_empate a) prob else prob_empate a;
     prob_vitoria_fora :=
       if (j <? i)%nat then prob_vitoria_fora a
       else if (i =? j)%nat then prob_vitoria_fora a
       else np_add (prob_vitoria_fora a) prob;
     prob_over :=
       map (fun lp : threshold * npfloat =>
              let (limite, p) := lp in
              if Rlt_dec (th_value limite) (INR total_gols)
              then (limite, np_add p prob) else (limite, p))
           (prob_over a);
     prob_ambas_marcam :=
       if ((0 <? i) && (0 <? j))%nat then np_add (prob_ambas_marcam a) prob
       else prob_ambas_marcam a |}.

Definition calculate_market_probabilities (matriz_prob : grid)
  : result (dict npfloat) :=
  let max_gols := (Z.of_nat (nrows matriz_prob) - 1)%Z in
  a <- for_each (py_range (max_gols + 1)) market_acc_init (fun i a =>
         for_each (py_range (max_gols + 1)) a (fun j a =>
           prob <- grid_get matriz_prob (Z.of_nat i) (Z.of_nat j) ;;
           Ok (market_step i j prob a))) ;;
  let probabilidades := [] in
  let probabilidades := dict_set probabilidades "1" (prob_vitoria_casa a) in
  let probabilidades := dict_set probabilidades "X" (prob_empate a) in
  let probabilidades := dict_set probabilidades "2" (prob_vitoria_fora a) in
  let probabilidades :=
    fold_left (fun d (lp : threshold * npfloat) =>
                 let (limite, prob) := lp in
                 let d := dict_set d ("Over " ++ th_repr limite) prob in
                 dict_set d ("Under " ++ th_repr limite) (np_sub (Fin 1) prob))
              (prob_over a) probabilidades in
  let probabilidades :=
    dict_set probabilidades "Ambas Marcam Sim" (prob_ambas_marcam a) in
  let probabilidades :=
    dict_set probabilidades "Ambas Marcam Não" (np_sub (Fin 1) (prob_ambas_marcam a)) in
  Ok probabilidades.

(** ** Score Ranker *)

(** [str(n)] for a non-negative int. *)
Definition py_str (n : nat) : string := NilEmpty.string_of_uint (Nat.to_uint n).

(** [f"{i}-{j}"] *)
Definition placar_label (i j : nat) : string := py_str i ++ "-" ++ py_str j.

(** A stable ascending sort by key: [x] goes before the first element whose
    key is not smaller than its own. *)
Fixpoint insert_by {A : Type} (key : A -> npfloat) (x : A) (l : list A) : list A :=
  match l with
  | [] => [x]
  | y :: l' =>
      if np_lt (key y) (key x) then y :: insert_by key x l' else x :: y :: l'
  end.

Fixpoint stable_sort {A : Type} (key : A -> npfloat) (l : list A) : list A :=
  match l with
  | [] => []
  | x :: l' => insert_by key x (stable_sort key l')
  end.

(** [sorted(l, key=key, reverse=True)]: CPython reverses the list, sorts it
    with a stable ascending sort and reverses the outcome, so that elements
    of equal key keep their order.  On keys without NaN every stable sort
    returns the same list, so the insertion sort stands for Timsort there. *)
Definition py_sorted_reverse {A : Type} (key : A -> npfloat) (l : list A) : list A :=
  rev (stable_sort key (rev l)).

(** [l[:n]]: a negative [n] counts from the end. *)
Definition py_slice_to {A : Type} (l : list A) (n : Z) : list A :=
  if (n <? 0)%Z then firstn (length l - Z.to_nat (- n)) l
  else firstn (Z.to_nat n) l.

Definition find_most_probable_scores (matriz_prob : grid) (n : Z)
  : result (list (string * npfloat)) :=
  placares <-
    for_each (seq 0 (nrows matriz_prob)) [] (fun i placares =>
      for_each (seq 0 (ncols matriz_prob)) placares (fun j placares =>
        let placar := placar_label i j in
        prob <- grid_get matriz_prob (Z.of_nat i) (Z.of_nat j) ;;
        Ok (placares ++ [(placar, prob)]))) ;;
  let placares_ordenados := py_sorted_reverse snd placares in
  Ok (py_slice_to placares_ordenados n).

(** ** Value/Staking Engine *)

Definition calculate_expected_value (probabilidade odd : R) : R :=
  probabilidade * odd.

(** Called with Python floats: every division raises ZeroDivisionError on a
    zero divisor.  The application passes a numpy float64 as [probability]
    (see [calculate_kelly_criterion_np] below); the two differ only at the
    odd 1.0, where [odd - 1] is zero. *)
Definition calculate_kelly_criterion (probability odd fraction : R) : result R :=
  implied_prob <- py_div 1 odd ;;
  edge <- py_div (probability * odd - 1) (odd - 1) ;;
  if Rle_dec edge 0 then Ok 0
  else
    kelly <- py_div edge (odd - 1) ;;
    let kelly := kelly * fraction in
    Ok kelly.

(** The same function when [probability] is a numpy float64, as it is at the
    call in src/app.py (lines 231-233), where it is read from the result of
    [calculate_market_probabilities]; [odd] and [fraction] are Python floats.
    [1 / odd] is then still a division of Python numbers, while the two
    divisions that involve [probability] are numpy's and do not raise.  The
    early [return 0] is modelled as [Fin 0]. *)
Definition calculate_kelly_criterion_np
  (probability : npfloat) (odd fraction : R) : result npfloat :=
  implied_prob <- py_div 1 odd ;;
  let edge :=
    np_div (np_sub (np_mul probability (Fin odd)) (Fin 1)) (Fin (odd - 1)) in
  if np_le edge (Fin 0) then Ok (Fin 0)
  else
    let kelly := np_div edge (Fin (odd - 1)) in
    let kelly := np_mul kelly (Fin fraction) in
    Ok kelly.

(** ** Report helpers (src/report_generator.py) *)

(** [max(a, b, c)]: the first argument is kept until a later one compares
    greater. *)
Definition py_max3 (a b c : npfloat) : npfloat :=
  let m := if np_gt b a then b else a in
  if np_gt c m then c else m.

Definition get_most_probable_result (market_probs : dict npfloat) : string :=
  match dict_get market_probs "1", dict_get market_probs "X",
        dict_get market_probs "2" with
  | Some home_win_prob, Some draw_prob, Some away_win_prob =>
      if np_gt home_win_prob draw_prob && np_gt home_win_prob away_win_prob
      then "Vitória do time da casa"
      else if np_gt draw_prob home_win_prob && np_gt draw_prob away_win_prob
      then "Empate"
      else "Vitória do time visitante"
  | _, _, _ => "Resultado desconhecido"
  end.

Definition get_result_probability (market_probs : dict npfloat) : npfloat :=
  match dict_get market_probs "1", dict_get market_probs "X",
        dict_get market_probs "2" with
  | Some home_win_prob, Some draw_prob, Some away_win_prob =>
      py_max3 home_win_prob draw_prob away_win_prob
  | _, _, _ => Fin 0
  end.

(** ** Notions used in the statements *)

(** The [r] x [c] grid whose cell [(i, j)] is [f i j]. *)
Definition tabulate (r c : nat) (f : nat -> nat -> npfloat) : grid :=
  map (fun i => map (f i) (seq 0 c)) (seq 0 r).

(** A grid of finite cells, given by its real values. *)
Definition fin_grid (cells : list (list R)) : grid := map (map Fin) cells.

Definition Rsum (l : list R) : R := fold_right Rplus 0 l.

(** The total mass of a grid of real cells. *)
Definition mass (cells : list (list R)) : R := Rsum (concat cells).

(** A grid divided cellwise by its own total mass. *)
Definition normalize_by_mass (g : grid) : grid := grid_div g (np_sum g).

(** The Poisson probability of [k] events at rate [mu >= 0]. *)
Definition poisson (k : nat) (mu : R) : R := exp (- mu) * mu ^ k / INR (fact k).

(** The same probability as the program has it: 0 where it underflows. *)
Definition poisson_fl (k : nat) (mu : R) : R := flush_to_zero (poisson k mu).

(** A rate that is a binary64 number between 0 and 300: it is 0 or at least
    the smallest positive binary64 number, 2^-1074.  At such a rate the
    probability of no goal, exp(-mu), is above 2^-600, so that the product of
    two of them is well inside the range of binary64, and the probability of
    one goal does not underflow either. *)
Definition moderate_rate (mu : R) : Prop :=
  mu = 0 \/ / 2 ^ 1074 <= mu <= 300.

(** The [r] x [c] table of the reals [f i j]. *)
Definition rtabulate (r c : nat) (f : nat -> nat -> R) : list (list R) :=
  map (fun i => map (f i) (seq 0 c)) (seq 0 r).

(** A finite, non-negative numpy value. *)
Definition finite_nonneg (x : npfloat) : Prop :=
  exists r : R, x = Fin r /\ 0 <= r.

(** The elements of a list with their positions, counted from [k]. *)
Fixpoint enum_from {A : Type} (k : nat) (l : list A) : list (nat * A) :=
  match l with
  | [] => []
  | x :: l' => (k, x) :: enum_from (S k) l'
  end.

(** The cells of a table with their coordinates, in row-major order (rows
    ascending, columns ascending within a row); rows are counted from [i0]. *)
Definition indexed_cells_from {A : Type} (i0 : nat) (g : list (list A))
  : list (nat * nat * A) :=
  flat_map (fun ir : nat * list A =>
              map (fun jx : nat * A => (fst ir, fst jx, snd jx))
                  (enum_from 0 (snd ir)))
           (enum_from i0 g).

Definition indexed_cells {A : Type} (g : list (list A)) : list (nat * nat * A) :=
  indexed_cells_from 0 g.

(** The sum of the cells whose coordinates satisfy [P]. *)
Definition bucket_sum (P : nat -> nat -> bool) (cells : list (list R)) : R :=
  Rsum (map (fun c : nat * nat * R =>
               if P (fst (fst c)) (snd (fst c)) then snd c else 0)
            (indexed_cells cells)).

(** One round of a loop body [step] on the cell [c]. *)
Definition visit {S : Type} (step : nat -> nat -> npfloat -> S -> S)
  (s : S) (c : nat * nat * npfloat) : S :=
  step (fst (fst c)) (snd (fst c)) (snd c) s.

(** Row-major order on coordinates: rows ascending, then columns. *)
Definition row_major_before (p q : nat * nat) : Prop :=
  (fst p < fst q)%nat \/ (fst p = fst q /\ (snd p < snd q)%nat).

(** The ranking order on cells: larger probability first, and among equal
    probabilities the cell met first in the row-major traversal. *)
Definition ranks_before (c c' : nat * nat * R) : Prop :=
  snd c' < snd c \/ (snd c = snd c' /\ row_major_before (fst c) (fst c')).

(** The pair the ranker builds for a cell. *)
Definition labelled (c : nat * nat * R) : string * npfloat :=
  (placar_label (fst (fst c)) (snd (fst c)), Fin (snd c)).

(** Ascending by key, earlier element first among equal keys. *)
Definition ascending_then {T : Type} (keyR : T -> R) (ord : T -> T -> Prop)
  (x y : T) : Prop :=
  keyR x < keyR y \/ (keyR x = keyR y /\ ord x y).

(** Descending by key, earlier element first among equal keys. *)
Definition descending_then {T : Type} (keyR : T -> R) (ord : T -> T -> Prop)
  (x y : T) : Prop :=
  keyR y < keyR x \/ (keyR x = keyR y /\ ord x y).

(** The cell [(i, j)] of a table of reals. *)
Definition cell (cells : list (list R)) (i j : nat) : R :=
  nth j (nth i cells []) 0.

(** The number of past results that fall in the cell [(i, j)] once goal
    counts above [K] are clamped to [K]. *)
Definition score_count (K : nat) (history : list (nat * nat)) (i j : nat) : nat :=
  length (filter (fun r : nat * nat =>
                    (Nat.min (fst r) K =? i)%nat && (Nat.min (snd r) K =? j)%nat)
                 history).

(** The empirical frequency grid normalised to sum 1: the share of the past
    results in each cell. *)
Definition empirical_frequency (K : nat) (history : list (nat * nat))
  : list (list R) :=
  rtabulate (S K) (S K)
            (fun i j => INR (score_count K history i j) / INR (length history)).

(** A real-valued sort key seen as the numpy value the sort compares. *)
Definition fin_key {T : Type} (keyR : T -> R) (x : T) : npfloat := Fin (keyR x).

(** * Properties *)

(** ** Value/Staking Engine *)

Lemma py_div_ok (a b : R) : b <> 0 -> py_div a b = Ok (a / b).
Proof.
  intros Hb. unfold py_div. destruct (Req_dec_T b 0); [contradiction | reflexivity].
Qed.

Lemma py_div_zero (a : R) : py_div a 0 = Err ZeroDivisionError.
Proof.
  unfold py_div. destruct (Req_dec_T 0 0); [reflexivity | exfalso; auto].
Qed.

(** The value returned whenever both divisors are non-zero. *)
Lemma kelly_defined (p o f : R) :
  o <> 0 -> o <> 1 ->
  calculate_kelly_criterion p o f =
    Ok (if Rle_dec ((p * o - 1) / (o - 1)) 0 then 0
        else (p * o - 1) / (o - 1) / (o - 1) * f).
Proof.
  intros H0 H1. unfold calculate_kelly_criterion.
  rewrite (py_div_ok 1 o H0). cbn [bind].
  rewrite py_div_ok by lra. cbn [bind].
  destruct (Rle_dec ((p * o - 1) / (o - 1)) 0); [reflexivity|].
  rewrite py_div_ok by lra. reflexivity.
Qed.

Lemma edge_sign (p o : R) :
  1 < o -> ((p * o - 1) / (o - 1) <= 0 <-> p * o <= 1).
Proof.
  intros Ho. unfold Rdiv.
  assert (Hinv : 0 < / (o - 1)) by (apply Rinv_0_lt_compat; lra).
  split; intros H.
  - destruct (Rle_dec (p * o) 1) as [Hle|Hnle]; [exact Hle|].
    assert (0 < (p * o - 1) * / (o - 1)) by (apply Rmult_lt_0_compat; lra). lra.
  - assert (0 <= (1 - p * o) * / (o - 1)) by (apply Rmult_le_pos; lra). lra.
Qed.

(** C1.  For a probability p in [0,1], a decimal odd o > 1 and a fraction
    multiplier in (0,1], the Kelly computation returns 0 when the edge
    e = (p*o - 1)/(o - 1) is at most 0 and e/(o - 1) * fraction otherwise.
    With p = 0.6 and o = 2 it returns 0.2 at full Kelly and 0.1 at fraction
    0.5; with p = 0.3 and o = 2 it returns 0 whatever the fraction. *)
Theorem kelly_edge_formula :
  (forall p o f : R,
      0 <= p <= 1 -> 1 < o -> 0 < f <= 1 ->
      let e := (p * o - 1) / (o - 1) in
      calculate_kelly_criterion p o f =
        Ok (if Rle_dec e 0 then 0 else e / (o - 1) * f))
  /\ calculate_kelly_criterion 0.6 2 1 = Ok 0.2
  /\ calculate_kelly_criterion 0.6 2 0.5 = Ok 0.1
  /\ (forall f : R, calculate_kelly_criterion 0.3 2 f = Ok 0).
Proof.
  repeat split.
  - intros p o f _ Ho _ e. subst e. apply kelly_defined; lra.
  - rewrite kelly_defined by lra.
    destruct (Rle_dec _ 0) as [H|H]; [exfalso; lra | f_equal; lra].
  - rewrite kelly_defined by lra.
    destruct (Rle_dec _ 0) as [H|H]; [exfalso; lra | f_equal; lra].
  - intros f. rewrite kelly_defined by lra.
    destruct (Rle_dec _ 0) as [H|H]; [reflexivity | exfalso; lra].
Qed.

Lemma kelly_edge_formula_witness :
  calculate_kelly_criterion 0.75 3 0.5 =
    Ok (if Rle_dec ((0.75 * 3 - 1) / (3 - 1)) 0 then 0
        else (0.75 * 3 - 1) / (3 - 1) / (3 - 1) * 0.5).
Proof.
  apply (proj1 kelly_edge_formula 0.75 3 0.5); lra.
Defined.

(** C9.  On the same domain the Kelly value is never negative, and it is
    strictly positive exactly when the expected value p * o computed by
    [calculate_expected_value] exceeds 1. *)
Theorem kelly_positive_iff_value_bet (p o f : R) :
  0 <= p <= 1 -> 1 < o -> 0 < f <= 1 ->
  exists k : R,
    calculate_kelly_criterion p o f = Ok k /\
    0 <= k /\
    (0 < k <-> 1 < calculate_expected_value p o).
Proof.
  intros Hp Ho Hf. unfold calculate_expected_value.
  rewrite kelly_defined by lra.
  pose proof (edge_sign p o Ho) as Hs.
  assert (Hinv : 0 < / (o - 1)) by (apply Rinv_0_lt_compat; lra).
  destruct (Rle_dec ((p * o - 1) / (o - 1)) 0) as [Hle|Hgt].
  - exists 0. split; [reflexivity|]. split; [lra|].
    apply Hs in Hle. split; intros; lra.
  - exists ((p * o - 1) / (o - 1) / (o - 1) * f).
    split; [reflexivity|].
    assert (He : 0 < (p * o - 1) / (o - 1)) by lra.
    assert (Hk : 0 < (p * o - 1) / (o - 1) / (o - 1) * f).
    { apply Rmult_lt_0_compat; [|lra].
      unfold Rdiv at 1. apply Rmult_lt_0_compat; assumption. }
    split; [lra|]. split; intros _; [|exact Hk].
    destruct (Rle_dec (p * o) 1) as [H1|H1]; [apply Hs in H1; contradiction | lra].
Qed.

Lemma kelly_positive_iff_value_bet_witness :
  exists k : R,
    calculate_kelly_criterion 0.6 2 0.5 = Ok k /\
    0 <= k /\
    (0 < k <-> 1 < calculate_expected_value 0.6 2).
Proof.
  apply (kelly_positive_iff_value_bet 0.6 2 0.5); lra.
Defined.

Lemma kelly_np_defined (p o f : R) :
  o <> 0 -> o <> 1 ->
  calculate_kelly_criterion_np (Fin p) o f =
    Ok (Fin (if Rle_dec ((p * o - 1) / (o - 1)) 0 then 0
             else (p * o - 1) / (o - 1) / (o - 1) * f)).
Proof.
  intros H0 H1. unfold calculate_kelly_criterion_np.
  rewrite py_div_ok by assumption.
  cbn [bind np_mul np_sub np_neg np_add np_div].
  destruct (Req_dec_T (o - 1) 0) as [E|_]; [exfalso; lra|].
  change (p * o + - (1)) with (p * o - 1).
  cbn [np_le].
  destruct (Rle_dec ((p * o - 1) / (o - 1)) 0) as [_|_]; [reflexivity|].
  cbn [np_div np_mul].
  destruct (Req_dec_T (o - 1) 0) as [E|_]; [exfalso; lra | reflexivity].
Qed.

Lemma kelly_np_odd_0 (p : npfloat) (f : R) :
  calculate_kelly_criterion_np p 0 f = Err ZeroDivisionError.
Proof. unfold calculate_kelly_criterion_np. rewrite py_div_zero. reflexivity. Qed.

Lemma kelly_np_odd_1 (p f : R) :
  p <= 1 ->
  calculate_kelly_criterion_np (Fin p) 1 f =
    Ok (if Rlt_dec p 1 then Fin 0 else NaN).
Proof.
  intros Hp. unfold calculate_kelly_criterion_np.
  rewrite py_div_ok by lra.
  cbn [bind np_mul np_sub np_neg np_add np_div].
  destruct (Req_dec_T (1 - 1) 0) as [_|N]; [|exfalso; lra].
  unfold inf_of_sign.
  change (p * 1 + - (1)) with (p * 1 - 1).
  destruct (Rlt_dec 0 (p * 1 - 1)) as [H|_]; [exfalso; lra|].
  destruct (Rlt_dec (p * 1 - 1) 0) as [H|H];
    destruct (Rlt_dec p 1) as [H'|H']; try (exfalso; lra); reflexivity.
Qed.

Lemma kelly_odd_0 (p f : R) :
  calculate_kelly_criterion p 0 f = Err ZeroDivisionError.
Proof. unfold calculate_kelly_criterion. rewrite py_div_zero. reflexivity. Qed.

Lemma kelly_odd_1 (p f : R) :
  calculate_kelly_criterion p 1 f = Err ZeroDivisionError.
Proof.
  unfold calculate_kelly_criterion. rewrite py_div_ok by lra. cbn [bind].
  replace (1 - 1) with 0 by lra. rewrite py_div_zero. reflexivity.
Qed.

(** Away from the odd 1.0 the type of the probability makes no difference. *)
Lemma kelly_np_agrees (p o f : R) :
  o <> 1 ->
  calculate_kelly_criterion_np (Fin p) o f =
    match calculate_kelly_criterion p o f with
    | Ok k => Ok (Fin k)
    | Err e => Err e
    end.
Proof.
  intros H1. destruct (Req_dec_T o 0) as [-> | H0].
  - now rewrite kelly_np_odd_0, kelly_odd_0.
  - now rewrite kelly_np_defined, kelly_defined by assumption.
Qed.

(** C2 as stated fails: an odd below 1 yields a number, whether the
    probability is a Python float or a numpy float64, and at the odd 1.0 the
    call the application makes (numpy probability) returns 0.  No InvalidOdd
    is reported. *)
Lemma kelly_invalid_odd_counterexample :
  0.5 <= 1 /\
  calculate_kelly_criterion 0.5 0.5 1 = Ok (-3) /\
  calculate_kelly_criterion 0.5 0.5 1 <> Err InvalidOdd /\
  calculate_kelly_criterion_np (Fin 0.5) 0.5 1 = Ok (Fin (-3)) /\
  calculate_kelly_criterion_np (Fin 0.5) 0.5 1 <> Err InvalidOdd /\
  calculate_kelly_criterion_np (Fin 0.5) 1 1 = Ok (Fin 0) /\
  calculate_kelly_criterion_np (Fin 0.5) 1 1 <> Err InvalidOdd.
Proof.
  assert (H1 : calculate_kelly_criterion 0.5 0.5 1 = Ok (-3)).
  { rewrite kelly_defined by lra.
    destruct (Rle_dec _ 0) as [H|H]; [exfalso; lra | f_equal; lra]. }
  assert (H2 : calculate_kelly_criterion_np (Fin 0.5) 0.5 1 = Ok (Fin (-3))).
  { rewrite kelly_np_defined by lra.
    destruct (Rle_dec _ 0) as [H|H]; [exfalso; lra | do 2 f_equal; lra]. }
  assert (H3 : calculate_kelly_criterion_np (Fin 0.5) 1 1 = Ok (Fin 0)).
  { rewrite kelly_np_odd_1 by lra.
    destruct (Rlt_dec 0.5 1) as [_|H]; [reflexivity | exfalso; lra]. }
  repeat split; try assumption; try lra.
  - rewrite H1. discriminate.
  - rewrite H2. discriminate.
  - rewrite H3. discriminate.
Qed.

(** C2, amended.  The Kelly computation validates nothing and never reports
    InvalidOdd.  For an odd o <= 1 other than 0 and 1 it returns a number, by
    the formula used for o > 1.  At o = 0 the division [1 / odd] of Python
    numbers raises ZeroDivisionError.  At o = 1 the outcome depends on the
    type of the probability: with the numpy float64 that the application
    passes nothing is raised, and the result is 0 for a probability below 1
    and NaN for the probability 1; with a plain Python float the division by
    [odd - 1] raises ZeroDivisionError. *)
Theorem kelly_odd_at_most_one (p o f : R) :
  o <= 1 ->
  (calculate_kelly_criterion_np (Fin p) o f <> Err InvalidOdd /\
   calculate_kelly_criterion p o f <> Err InvalidOdd) /\
  (o <> 1 -> o <> 0 ->
   let e := (p * o - 1) / (o - 1) in
   calculate_kelly_criterion_np (Fin p) o f =
     Ok (Fin (if Rle_dec e 0 then 0 else e / (o - 1) * f)) /\
   calculate_kelly_criterion p o f =
     Ok (if Rle_dec e 0 then 0 else e / (o - 1) * f)) /\
  (o = 0 ->
   calculate_kelly_criterion_np (Fin p) o f = Err ZeroDivisionError /\
   calculate_kelly_criterion p o f = Err ZeroDivisionError) /\
  (o = 1 ->
   (p < 1 -> calculate_kelly_criterion_np (Fin p) o f = Ok (Fin 0)) /\
   (p = 1 -> calculate_kelly_criterion_np (Fin p) o f = Ok NaN) /\
   calculate_kelly_criterion p o f = Err ZeroDivisionError).
Proof.
  intros _. cbv zeta.
  assert (Hd : o <> 1 -> o <> 0 ->
    calculate_kelly_criterion_np (Fin p) o f =
      Ok (Fin (if Rle_dec ((p * o - 1) / (o - 1)) 0 then 0
               else (p * o - 1) / (o - 1) / (o - 1) * f)) /\
    calculate_kelly_criterion p o f =
      Ok (if Rle_dec ((p * o - 1) / (o - 1)) 0 then 0
          else (p * o - 1) / (o - 1) / (o - 1) * f)).
  { intros H1 H0. split; [apply kelly_np_defined | apply kelly_defined];
      assumption. }
  assert (H0 : o = 0 ->
    calculate_kelly_criterion_np (Fin p) o f = Err ZeroDivisionError /\
    calculate_kelly_criterion p o f = Err ZeroDivisionError).
  { intros ->. split; [apply kelly_np_odd_0 | apply kelly_odd_0]. }
  assert (H1 : o = 1 ->
    (p < 1 -> calculate_kelly_criterion_np (Fin p) o f = Ok (Fin 0)) /\
    (p = 1 -> calculate_kelly_criterion_np (Fin p) o f = Ok NaN) /\
    calculate_kelly_criterion p o f = Err ZeroDivisionError).
  { intros ->. split; [|split; [|apply kelly_odd_1]]; intros Hp;
      rewrite kelly_np_odd_1 by lra;
      destruct (Rlt_dec p 1) as [H|H]; try reflexivity; exfalso; lra. }
  split; [|split; [exact Hd | split; [exact H0 | exact H1]]].
  destruct (Req_dec_T o 0) as [E0|N0].
  { destruct (H0 E0) as [-> ->]. split; discriminate. }
  destruct (Req_dec_T o 1) as [E1|N1].
  - split; [|destruct (H1 E1) as (_ & _ & ->); discriminate].
    subst o. unfold calculate_kelly_criterion_np.
    rewrite py_div_ok by lra. cbn [bind].
    destruct (np_le _ _); discriminate.
  - destruct (Hd N1 N0) as [-> ->]. split; discriminate.
Qed.

Lemma kelly_odd_at_most_one_witness :
  (calculate_kelly_criterion_np (Fin 0.5) 0.5 1 <> Err InvalidOdd /\
   calculate_kelly_criterion 0.5 0.5 1 <> Err InvalidOdd) /\
  (0.5 <> 1 -> 0.5 <> 0 ->
   let e := (0.5 * 0.5 - 1) / (0.5 - 1) in
   calculate_kelly_criterion_np (Fin 0.5) 0.5 1 =
     Ok (Fin (if Rle_dec e 0 then 0 else e / (0.5 - 1) * 1)) /\
   calculate_kelly_criterion 0.5 0.5 1 =
     Ok (if Rle_dec e 0 then 0 else e / (0.5 - 1) * 1)) /\
  (0.5 = 0 ->
   calculate_kelly_criterion_np (Fin 0.5) 0.5 1 = Err ZeroDivisionError /\
   calculate_kelly_criterion 0.5 0.5 1 = Err ZeroDivisionError) /\
  (0.5 = 1 ->
   (0.5 < 1 -> calculate_kelly_criterion_np (Fin 0.5) 0.5 1 = Ok (Fin 0)) /\
   (0.5 = 1 -> calculate_kelly_criterion_np (Fin 0.5) 0.5 1 = Ok NaN) /\
   calculate_kelly_criterion 0.5 0.5 1 = Err ZeroDivisionError).
Proof.
  apply (kelly_odd_at_most_one 0.5 0.5 1). lra.
Defined.

(** ** Arrays: indexing and the fill loops *)

Lemma np_index_nat (n i : nat) : (i < n)%nat -> np_index n (Z.of_nat i) = Ok i.
Proof.
  intros Hi. unfold np_index.
  replace ((0 <=? Z.of_nat i) && (Z.of_nat i <? Z.of_nat n))%Z with true.
  - now rewrite Nat2Z.id.
  - symmetry. apply andb_true_iff. split; [apply Z.leb_le | apply Z.ltb_lt]; lia.
Qed.

Lemma list_set_middle {A : Type} (l1 l2 : list A) (x y : A) :
  list_set (l1 ++ x :: l2) (length l1) y = l1 ++ y :: l2.
Proof.
  induction l1 as [|a l1 IH]; simpl; [reflexivity | now rewrite IH].
Qed.

Lemma ncols_prefix (c : nat) (G1 G2 : list (list npfloat)) (row : list npfloat) :
  Forall (fun r => length r = c) G1 -> length row = c ->
  ncols (G1 ++ row :: G2) = c.
Proof.
  intros HG1 Hrow. destruct G1 as [|h G1]; simpl; [exact Hrow|].
  now inversion HG1.
Qed.

(** Writing the cell [(length G1, length r1)] of a grid cut at that cell. *)
Lemma grid_set_middle (c : nat) (G1 G2 : list (list npfloat))
      (r1 r2 : list npfloat) (x y : npfloat) :
  Forall (fun r => length r = c) G1 ->
  length (r1 ++ x :: r2) = c ->
  grid_set (G1 ++ (r1 ++ x :: r2) :: G2)
           (Z.of_nat (length G1)) (Z.of_nat (length r1)) y
  = Ok (G1 ++ (r1 ++ y :: r2) :: G2).
Proof.
  intros HG1 Hrow. unfold grid_set, nrows.
  rewrite np_index_nat by (rewrite length_app; simpl; lia). cbn [bind].
  rewrite (ncols_prefix c) by assumption.
  rewrite np_index_nat by (rewrite length_app in Hrow; simpl in Hrow; lia).
  cbn [bind]. rewrite nth_middle, list_set_middle, list_set_middle. reflexivity.
Qed.

Lemma grid_get_middle (c : nat) (G1 G2 : list (list npfloat))
      (r1 r2 : list npfloat) (x : npfloat) :
  Forall (fun r => length r = c) G1 ->
  length (r1 ++ x :: r2) = c ->
  grid_get (G1 ++ (r1 ++ x :: r2) :: G2)
           (Z.of_nat (length G1)) (Z.of_nat (length r1))
  = Ok x.
Proof.
  intros HG1 Hrow. unfold grid_get, nrows.
  rewrite np_index_nat by (rewrite length_app; simpl; lia). cbn [bind].
  rewrite (ncols_prefix c) by assumption.
  rewrite np_index_nat by (rewrite length_app in Hrow; simpl in Hrow; lia).
  cbn [bind].
  rewrite nth_error_app2, Nat.sub_diag by lia. cbn [nth_error].
  rewrite nth_error_app2, Nat.sub_diag by lia. reflexivity.
Qed.

Section FillLoops.

Variable f : nat -> nat -> npfloat.

(** The inner loop over the columns still to be written in row
    [length G1]. *)
Lemma fill_row_loop (c : nat) (G1 G2 : list (list npfloat)) :
  Forall (fun r => length r = c) G1 ->
  forall r2 r1 : list npfloat,
    length (r1 ++ r2) = c ->
    for_each (seq (length r1) (length r2)) (G1 ++ (r1 ++ r2) :: G2)
             (fun j g => grid_set g (Z.of_nat (length G1)) (Z.of_nat j)
                                  (f (length G1) j))
    = Ok (G1 ++ (r1 ++ map (f (length G1)) (seq (length r1) (length r2))) :: G2).
Proof.
  intros HG1. induction r2 as [|x r2 IH]; intros r1 Hlen.
  - reflexivity.
  - cbn [length seq for_each map].
    rewrite (grid_set_middle c) by assumption. cbn [bind].
    specialize (IH (r1 ++ [f (length G1) (length r1)])).
    rewrite last_length, <- !app_assoc in IH. cbn [app] in IH.
    apply IH. rewrite length_app in *. exact Hlen.
Qed.

(** The outer loop over the rows still to be written. *)
Lemma fill_rows_loop (c : nat) :
  forall G2 G1 : list (list npfloat),
    Forall (fun r => length r = c) G1 ->
    Forall (fun r => length r = c) G2 ->
    for_each (seq (length G1) (length G2)) (G1 ++ G2)
             (fun i g =>
                for_each (seq 0 c) g
                         (fun j g => grid_set g (Z.of_nat i) (Z.of_nat j) (f i j)))
    = Ok (G1 ++ map (fun i => map (f i) (seq 0 c))
                    (seq (length G1) (length G2))).
Proof.
  induction G2 as [|row G2 IH]; intros G1 HG1 HG2.
  - reflexivity.
  - inversion HG2 as [|? ? Hrow HG2']; subst.
    cbn [length seq for_each map].
    pose proof (fill_row_loop (length row) G1 G2 HG1 row [] eq_refl) as Hin.
    cbn [app length] in Hin. rewrite Hin. cbn [bind].
    specialize (IH (G1 ++ [map (f (length G1)) (seq 0 (length row))])).
    rewrite last_length, <- !app_assoc in IH. cbn [app] in IH.
    apply IH; [|assumption].
    apply Forall_app. split; [assumption|].
    constructor; [|constructor]. now rewrite length_map, length_seq.
Qed.

End FillLoops.

Lemma Forall_repeat {A : Type} (P : A -> Prop) (x : A) (n : nat) :
  P x -> Forall P (repeat x n).
Proof.
  intros Hx. induction n; simpl; constructor; assumption.
Qed.

(** Allocating an n x n array of zeros and writing every cell in the two
    nested loops yields the tabulated grid. *)
Lemma zeros_then_fill (f : nat -> nat -> npfloat) (n : Z) :
  (probabilidades <- np_zeros n ;;
   for_each (py_range n) probabilidades (fun i probabilidades =>
     for_each (py_range n) probabilidades (fun j probabilidades =>
       grid_set probabilidades (Z.of_nat i) (Z.of_nat j) (f i j))))
  = if (n <? 0)%Z then Err ValueError
    else Ok (tabulate (Z.to_nat n) (Z.to_nat n) f).
Proof.
  unfold np_zeros, py_range, tabulate.
  destruct (Z.ltb_spec n 0) as [Hneg|Hpos]; [reflexivity|]. cbn [bind].
  set (m := Z.to_nat n).
  pose proof (fill_rows_loop f m (repeat (repeat (Fin 0) m) m) []
                (Forall_nil _)) as H.
  cbn [app length] in H. rewrite repeat_length in H. apply H.
  apply Forall_repeat. apply repeat_length.
Qed.

Lemma bind_assoc {A B C : Type} (m : result A) (f : A -> result B)
      (g : B -> result C) :
  bind m (fun a => bind (f a) g) = bind (bind m f) g.
Proof.
  destruct m; reflexivity.
Qed.

(** ** ScoreMatrix Builder *)

Lemma poisson_matrix_tabulate (lh la : R) (K : Z) :
  calculate_poisson_probabilities lh la K =
    if (K + 1 <? 0)%Z then Err ValueError
    else Ok (tabulate (Z.to_nat (K + 1)) (Z.to_nat (K + 1))
                      (fun i j => np_mul (poisson_pmf i lh) (poisson_pmf j la))).
Proof.
  unfold calculate_poisson_probabilities.
  apply (zeros_then_fill
           (fun i j => np_mul (poisson_pmf i lh) (poisson_pmf j la))).
Qed.

Lemma dixon_coles_matrix_tabulate (lh la : R) (K : Z) (rho : R) :
  calculate_dixon_coles_matrix lh la K rho =
    if (K + 1 <? 0)%Z then Err ValueError
    else Ok (normalize_by_mass
               (tabulate (Z.to_nat (K + 1)) (Z.to_nat (K + 1))
                         (dixon_coles_adjustment lh la rho))).
Proof.
  unfold calculate_dixon_coles_matrix. cbv zeta.
  rewrite bind_assoc.
  rewrite (zeros_then_fill (dixon_coles_adjustment lh la rho)).
  destruct (K + 1 <? 0)%Z; reflexivity.
Qed.

Lemma tabulate_ext (r c : nat) (f g : nat -> nat -> npfloat) :
  (forall i j, (i < r)%nat -> (j < c)%nat -> f i j = g i j) ->
  tabulate r c f = tabulate r c g.
Proof.
  intros H. unfold tabulate. apply map_ext_in. intros i Hi.
  apply map_ext_in. intros j Hj. apply in_seq in Hi, Hj. apply H; lia.
Qed.

(** Case analysis on every comparison of reals in the goal. *)
Ltac decide_reals :=
  repeat match goal with
    | |- context [Rlt_dec ?a ?b] => destruct (Rlt_dec a b)
    | |- context [Rle_dec ?a ?b] => destruct (Rle_dec a b)
    | |- context [Req_dec_T ?a ?b] => destruct (Req_dec_T a b)
    end.

Lemma np_mul_1_r (x : npfloat) : np_mul x (Fin 1) = x.
Proof.
  destruct x; cbn [np_mul]; unfold inf_of_sign; decide_reals;
    try reflexivity; try (exfalso; lra).
  f_equal. lra.
Qed.

Lemma tau_rho_0 (x y : nat) (lx ly : R) : tau x y lx ly 0 = 1.
Proof.
  unfold tau.
  repeat match goal with |- context [if ?b then _ else _] => destruct b end;
    lra.
Qed.

(** C10.  With rho = 0 the Dixon-Coles builder returns exactly the grid of
    the Poisson builder divided cellwise by its own total mass: every tau
    factor is 1, so only the final normalisation differs.  This holds for
    all arguments, in particular for lambda_h, lambda_a >= 0 and K >= 0. *)
Theorem dixon_coles_rho_0_is_normalized_poisson (lh la : R) (K : Z) :
  calculate_dixon_coles_matrix lh la K 0 =
    (g <- calculate_poisson_probabilities lh la K ;; Ok (normalize_by_mass g)).
Proof.
  rewrite dixon_coles_matrix_tabulate, poisson_matrix_tabulate.
  destruct (K + 1 <? 0)%Z; [reflexivity|]. cbn [bind].
  do 2 f_equal. apply tabulate_ext. intros i j _ _.
  unfold dixon_coles_adjustment. cbv zeta.
  rewrite tau_rho_0. apply np_mul_1_r.
Qed.

Lemma poisson_pmf_negative (k : nat) (mu : R) : mu < 0 -> poisson_pmf k mu = NaN.
Proof.
  intros Hmu. unfold poisson_pmf. decide_reals; [reflexivity | contradiction].
Qed.

Lemma poisson_pmf_nonneg (k : nat) (mu : R) :
  0 <= mu -> poisson_pmf k mu = Fin (poisson_fl k mu).
Proof.
  intros Hmu. unfold poisson_pmf, poisson_fl, poisson.
  decide_reals; [exfalso; lra | reflexivity].
Qed.

Lemma np_mul_nan_l (x : npfloat) : np_mul NaN x = NaN.
Proof. reflexivity. Qed.

Lemma np_mul_nan_r (x : npfloat) : np_mul x NaN = NaN.
Proof. destruct x; reflexivity. Qed.

Lemma np_div_nan_r (x : npfloat) : np_div x NaN = NaN.
Proof. destruct x; reflexivity. Qed.

Lemma tabulate_map (r c : nat) (f : nat -> nat -> npfloat)
      (h : npfloat -> npfloat) :
  grid_map h (tabulate r c f) = tabulate r c (fun i j => h (f i j)).
Proof.
  unfold grid_map, tabulate. rewrite map_map. apply map_ext. intros i.
  now rewrite map_map.
Qed.

(** A non-empty grid of NaN sums to NaN and stays NaN when normalised. *)
Lemma normalize_nan_grid (m : nat) :
  normalize_by_mass (tabulate (S m) (S m) (fun _ _ => NaN)) =
    tabulate (S m) (S m) (fun _ _ => NaN).
Proof.
  unfold normalize_by_mass, grid_div.
  assert (Hs : np_sum (tabulate (S m) (S m) (fun _ _ => NaN)) = NaN)
    by reflexivity.
  rewrite Hs, tabulate_map. reflexivity.
Qed.

Lemma to_nat_succ (K : Z) :
  (0 <= K)%Z -> Z.to_nat (K + 1) = S (Z.to_nat K).
Proof. intros HK. lia. Qed.

Lemma succ_not_negative (K : Z) : (0 <= K)%Z -> (K + 1 <? 0)%Z = false.
Proof. intros HK. apply Z.ltb_ge. lia. Qed.

(** The cells of both builders for a negative expected-goal rate. *)
Lemma negative_rate_cells (lh la rho : R) (i j : nat) :
  lh < 0 \/ la < 0 ->
  np_mul (poisson_pmf i lh) (poisson_pmf j la) = NaN /\
  dixon_coles_adjustment lh la rho i j = NaN.
Proof.
  intros Hneg. unfold dixon_coles_adjustment. cbv zeta.
  assert (H : np_mul (poisson_pmf i lh) (poisson_pmf j la) = NaN).
  { destruct Hneg as [H|H]; rewrite (poisson_pmf_negative _ _ H);
      [apply np_mul_nan_l | apply np_mul_nan_r]. }
  now rewrite H.
Qed.

(** C8 as stated fails: with a negative rate both builders return a grid
    (of NaN), and no InvalidInput is reported. *)
Lemma negative_rate_counterexample :
  -1 < 0 /\
  calculate_poisson_probabilities (-1) 1 0 = Ok [[NaN]] /\
  calculate_poisson_probabilities (-1) 1 0 <> Err InvalidInput /\
  calculate_dixon_coles_matrix (-1) 1 0 default_rho = Ok [[NaN]] /\
  calculate_dixon_coles_matrix (-1) 1 0 default_rho <> Err InvalidInput.
Proof.
  assert (Hneg : -1 < 0 \/ 1 < 0) by (left; lra).
  assert (H1 : calculate_poisson_probabilities (-1) 1 0 = Ok [[NaN]]).
  { rewrite poisson_matrix_tabulate, succ_not_negative, to_nat_succ by lia.
    unfold tabulate. cbn [Z.to_nat seq map].
    now rewrite (proj1 (negative_rate_cells _ _ 0 0%nat 0%nat Hneg)). }
  assert (H2 : calculate_dixon_coles_matrix (-1) 1 0 default_rho = Ok [[NaN]]).
  { rewrite dixon_coles_matrix_tabulate, succ_not_negative, to_nat_succ by lia.
    unfold tabulate. cbn [Z.to_nat seq map].
    now rewrite (proj2 (negative_rate_cells _ _ default_rho 0%nat 0%nat Hneg)). }
  repeat split; try assumption; try lra.
  - rewrite H1. discriminate.
  - rewrite H2. discriminate.
Qed.

(** C8, amended.  The builders validate nothing and never report
    InvalidInput.  For lambda_h < 0 or lambda_a < 0 and K >= 0 both return a
    (K+1) x (K+1) grid, every cell of which is NaN. *)
Theorem negative_rate_gives_nan_grid (lh la rho : R) (K : Z) :
  lh < 0 \/ la < 0 -> (0 <= K)%Z ->
  let n := Z.to_nat (K + 1) in
  calculate_poisson_probabilities lh la K = Ok (tabulate n n (fun _ _ => NaN)) /\
  calculate_dixon_coles_matrix lh la K rho = Ok (tabulate n n (fun _ _ => NaN)).
Proof.
  intros Hneg HK n. subst n.
  rewrite poisson_matrix_tabulate, dixon_coles_matrix_tabulate.
  rewrite succ_not_negative by assumption. split.
  - f_equal. apply tabulate_ext. intros i j _ _.
    apply (proj1 (negative_rate_cells lh la rho i j Hneg)).
  - f_equal.
    rewrite (tabulate_ext _ _ (dixon_coles_adjustment lh la rho) (fun _ _ => NaN)).
    + rewrite to_nat_succ by assumption. apply normalize_nan_grid.
    + intros i j _ _. apply (proj2 (negative_rate_cells lh la rho i j Hneg)).
Qed.

Lemma negative_rate_gives_nan_grid_witness :
  calculate_poisson_probabilities (-1) 1 5 =
    Ok (tabulate (Z.to_nat (5 + 1)) (Z.to_nat (5 + 1)) (fun _ _ => NaN)) /\
  calculate_dixon_coles_matrix (-1) 1 5 default_rho =
    Ok (tabulate (Z.to_nat (5 + 1)) (Z.to_nat (5 + 1)) (fun _ _ => NaN)).
Proof.
  apply (negative_rate_gives_nan_grid (-1) 1 default_rho 5); [left; lra | lia].
Defined.

(** ** Finite sums of reals *)

Lemma Rsum_app (l1 l2 : list R) : Rsum (l1 ++ l2) = Rsum l1 + Rsum l2.
Proof.
  induction l1 as [|x l1 IH]; simpl; [lra | rewrite IH; lra].
Qed.

Lemma Rsum_map_ext_in {A : Type} (f g : A -> R) (l : list A) :
  (forall x, In x l -> f x = g x) -> Rsum (map f l) = Rsum (map g l).
Proof.
  intros H. f_equal. apply map_ext_in. exact H.
Qed.

Lemma Rsum_map_plus {A : Type} (f g : A -> R) (l : list A) :
  Rsum (map (fun x => f x + g x) l) = Rsum (map f l) + Rsum (map g l).
Proof.
  induction l as [|x l IH]; simpl; [lra | rewrite IH; lra].
Qed.

Lemma Rsum_map_scal_l {A : Type} (c : R) (f : A -> R) (l : list A) :
  Rsum (map (fun x => c * f x) l) = c * Rsum (map f l).
Proof.
  induction l as [|x l IH]; simpl; [lra | rewrite IH; lra].
Qed.

Lemma Rsum_map_scal_r {A : Type} (c : R) (f : A -> R) (l : list A) :
  Rsum (map (fun x => f x * c) l) = Rsum (map f l) * c.
Proof.
  induction l as [|x l IH]; simpl; [lra | rewrite IH; lra].
Qed.

Lemma Rsum_map_zero {A : Type} (f : A -> R) (l : list A) :
  (forall x, In x l -> f x = 0) -> Rsum (map f l) = 0.
Proof.
  induction l as [|x l IH]; intros H; simpl; [reflexivity|].
  rewrite IH by (intros y Hy; apply H; now right).
  rewrite (H x) by now left. lra.
Qed.

Lemma Rsum_map_le {A : Type} (f g : A -> R) (l : list A) :
  (forall x, In x l -> f x <= g x) -> Rsum (map f l) <= Rsum (map g l).
Proof.
  induction l as [|x l IH]; intros H; cbn [map].
  - lra.
  - assert (f x <= g x) by (apply H; now left).
    assert (Rsum (map f l) <= Rsum (map g l)) by (apply IH; intros; apply H; now right).
    unfold Rsum in *. cbn [fold_right]. lra.
Qed.

Lemma Rsum_nonneg (l : list R) : Forall (fun x => 0 <= x) l -> 0 <= Rsum l.
Proof.
  induction 1 as [|x l Hx _ IH]; simpl; lra.
Qed.

(** The mass of a table is the sum of its row sums. *)
Lemma mass_row_sums (cells : list (list R)) :
  mass cells = Rsum (map Rsum cells).
Proof.
  unfold mass. induction cells as [|row cells IH]; simpl; [reflexivity|].
  now rewrite Rsum_app, IH.
Qed.

Lemma mass_rtabulate (r c : nat) (f : nat -> nat -> R) :
  mass (rtabulate r c f) =
    Rsum (map (fun i => Rsum (map (f i) (seq 0 c))) (seq 0 r)).
Proof.
  rewrite mass_row_sums. unfold rtabulate. now rewrite map_map.
Qed.

Lemma mass_map (h : R -> R) (c : R) (cells : list (list R)) :
  (forall x, h x = x * c) ->
  mass (map (map h) cells) = mass cells * c.
Proof.
  intros Hh. rewrite !mass_row_sums, map_map.
  rewrite <- Rsum_map_scal_r. apply Rsum_map_ext_in. intros row _.
  rewrite <- (map_id row) at 2. rewrite <- Rsum_map_scal_r.
  apply Rsum_map_ext_in. intros x _. apply Hh.
Qed.

(** ** Grids of finite cells *)

Lemma np_sum_fin_list (l : list R) :
  fold_right np_add (Fin 0) (map Fin l) = Fin (Rsum l).
Proof.
  induction l as [|x l IH]; simpl; [reflexivity | now rewrite IH].
Qed.

Lemma np_sum_fin_grid (cells : list (list R)) :
  np_sum (fin_grid cells) = Fin (mass cells).
Proof.
  unfold np_sum, fin_grid, mass. rewrite <- concat_map. apply np_sum_fin_list.
Qed.

Lemma fin_grid_rtabulate (r c : nat) (f : nat -> nat -> R) :
  fin_grid (rtabulate r c f) = tabulate r c (fun i j => Fin (f i j)).
Proof.
  unfold fin_grid, rtabulate, tabulate. rewrite map_map. apply map_ext.
  intros i. now rewrite map_map.
Qed.

Lemma np_div_fin (a s : R) : s <> 0 -> np_div (Fin a) (Fin s) = Fin (a / s).
Proof.
  intros Hs. cbn [np_div]. decide_reals; [contradiction | reflexivity].
Qed.

Lemma grid_div_fin (cells : list (list R)) (s : R) :
  s <> 0 ->
  grid_div (fin_grid cells) (Fin s) = fin_grid (map (map (fun x => x / s)) cells).
Proof.
  intros Hs. unfold grid_div, grid_map, fin_grid. rewrite !map_map.
  apply map_ext. intros row. rewrite !map_map. apply map_ext. intros x.
  now apply np_div_fin.
Qed.

(** Normalising a grid of finite cells of non-zero mass. *)
Lemma normalize_fin_grid (cells : list (list R)) :
  mass cells <> 0 ->
  normalize_by_mass (fin_grid cells) =
    fin_grid (map (map (fun x => x / mass cells)) cells) /\
  np_sum (normalize_by_mass (fin_grid cells)) = Fin 1.
Proof.
  intros Hm. unfold normalize_by_mass.
  rewrite np_sum_fin_grid, grid_div_fin by assumption.
  split; [reflexivity|]. rewrite np_sum_fin_grid. f_equal.
  rewrite (mass_map _ (/ mass cells)) by (intros; reflexivity).
  now apply Rinv_r.
Qed.

(** ** Underflow *)

Lemma underflow_threshold_pos : 0 < underflow_threshold.
Proof. unfold underflow_threshold. apply Rinv_0_lt_compat, pow_lt. lra. Qed.

Lemma flush_to_zero_below (x : R) :
  x <= underflow_threshold -> flush_to_zero x = 0.
Proof.
  intros H. unfold flush_to_zero.
  destruct (Rle_dec x underflow_threshold); [reflexivity | contradiction].
Qed.

Lemma flush_to_zero_above (x : R) :
  underflow_threshold < x -> flush_to_zero x = x.
Proof.
  intros H. unfold flush_to_zero.
  destruct (Rle_dec x underflow_threshold); [exfalso; lra | reflexivity].
Qed.

Lemma flush_to_zero_bounds (x : R) : 0 <= x -> 0 <= flush_to_zero x <= x.
Proof.
  intros H. unfold flush_to_zero.
  destruct (Rle_dec x underflow_threshold); lra.
Qed.

Lemma exp_INR (n : nat) : exp (INR n) = exp 1 ^ n.
Proof.
  induction n as [|n IH].
  - simpl. apply exp_0.
  - rewrite S_INR, exp_plus, IH. simpl. ring.
Qed.

(** 2^-1075 is a quarter of 2^-1073 and half of 2^-1074. *)
Lemma underflow_threshold_times_4 : 4 * underflow_threshold = / 2 ^ 1073.
Proof.
  unfold underflow_threshold.
  change 1075%nat with (2 + 1073)%nat. rewrite pow_add.
  assert (H : 2 ^ 1073 <> 0) by (apply pow_nonzero; lra).
  replace (2 ^ 2) with 4 by (simpl; lra). field; exact H.
Qed.

Lemma underflow_threshold_times_2 : 2 * underflow_threshold = / 2 ^ 1074.
Proof.
  unfold underflow_threshold.
  change 1075%nat with (1 + 1074)%nat. rewrite pow_add.
  assert (H : 2 ^ 1074 <> 0) by (apply pow_nonzero; lra).
  replace (2 ^ 1) with 2 by (simpl; lra). field; exact H.
Qed.

Lemma exp_300 : exp 300 <= 2 ^ 600.
Proof.
  replace 300 with (INR 300) by (rewrite INR_IZR_INZ; reflexivity).
  rewrite exp_INR.
  apply Rle_trans with (4 ^ 300).
  - apply pow_incr. split; [left; apply exp_pos|].
    pose proof exp_le_3. lra.
  - replace 4 with (2 ^ 2) by (simpl; lra). rewrite <- pow_mult.
    apply Req_le. reflexivity.
Qed.

(** At a rate of at most 300 the probability of no goal is well inside the
    range of binary64. *)
Lemma exp_neg_moderate (mu : R) :
  0 <= mu <= 300 -> 4 * underflow_threshold < exp (- mu).
Proof.
  intros [H0 H300]. rewrite underflow_threshold_times_4, exp_Ropp.
  assert (Hle : exp mu <= exp 300).
  { destruct H300 as [Hlt | ->]; [left; now apply exp_increasing | lra]. }
  pose proof exp_300 as H600.
  assert (Hpow : 2 ^ 600 < 2 ^ 1073) by (apply Rlt_pow; [lra | lia]).
  pose proof (exp_pos mu) as Hpos.
  apply Rinv_lt_contravar; [|lra].
  apply Rmult_lt_0_compat; [assumption | lra].
Qed.

Lemma min_positive_small : / 2 ^ 1074 <= 1e-6.
Proof.
  assert (H : 2 ^ 20 <= 2 ^ 1074) by (apply Rle_pow; [lra | lia]).
  assert (H20 : 1e6 <= 2 ^ 20) by (simpl; lra).
  replace 1e-6 with (/ 1e6) by lra.
  apply Rinv_le_contravar; lra.
Qed.

Lemma moderate_rate_range (mu : R) : moderate_rate mu -> 0 <= mu <= 300.
Proof.
  intros [-> | [Hlo Hhi]]; [lra|].
  rewrite <- underflow_threshold_times_2 in Hlo.
  pose proof underflow_threshold_pos. lra.
Qed.

Lemma moderate_rate_from (mu : R) : 1e-6 <= mu <= 300 -> moderate_rate mu.
Proof. intros H. right. pose proof min_positive_small. lra. Qed.

(** ** The Poisson probabilities *)

Lemma INR_fact_pos (k : nat) : 0 < INR (fact k).
Proof. apply INR_fact_lt_0. Qed.

Lemma poisson_nonneg (k : nat) (mu : R) : 0 <= mu -> 0 <= poisson k mu.
Proof.
  intros Hmu. unfold poisson, Rdiv.
  apply Rmult_le_pos; [apply Rmult_le_pos|].
  - left. apply exp_pos.
  - now apply pow_le.
  - left. apply Rinv_0_lt_compat, INR_fact_pos.
Qed.

Lemma poisson_0 (mu : R) : poisson 0 mu = exp (- mu).
Proof. unfold poisson. simpl. field. Qed.

Lemma poisson_1 (mu : R) : poisson 1 mu = exp (- mu) * mu.
Proof. unfold poisson. simpl. field. Qed.

Lemma Rsum_seq_sum_f_R0 (f : nat -> R) (m : nat) :
  Rsum (map f (seq 0 (S m))) = sum_f_R0 f m.
Proof.
  induction m as [|m IH].
  - simpl. lra.
  - rewrite seq_S, map_app, Rsum_app, IH. simpl. lra.
Qed.

(** A partial sum of the exponential series at x >= 0 is below exp x. *)
Lemma exp_partial_sum_le (x : R) (m : nat) :
  0 <= x -> sum_f_R0 (fun i => / INR (fact i) * x ^ i) m <= exp x.
Proof.
  intros Hx. apply sum_incr.
  - unfold exp. destruct (exist_exp x) as [l Hl]. exact Hl.
  - intros n. apply Rmult_le_pos.
    + left. apply Rinv_0_lt_compat, INR_fact_pos.
    + now apply pow_le.
Qed.

Lemma poisson_partial_sum (mu : R) (m : nat) :
  Rsum (map (fun k => poisson k mu) (seq 0 (S m))) =
    exp (- mu) * sum_f_R0 (fun i => / INR (fact i) * mu ^ i) m.
Proof.
  rewrite <- Rsum_seq_sum_f_R0, <- Rsum_map_scal_l.
  apply Rsum_map_ext_in. intros k _. unfold poisson, Rdiv. ring.
Qed.

Lemma poisson_partial_sum_le_1 (mu : R) (m : nat) :
  0 <= mu -> Rsum (map (fun k => poisson k mu) (seq 0 (S m))) <= 1.
Proof.
  intros Hmu. rewrite poisson_partial_sum.
  replace 1 with (exp (- mu) * exp mu).
  - apply Rmult_le_compat_l; [left; apply exp_pos | now apply exp_partial_sum_le].
  - rewrite <- exp_plus. replace (- mu + mu) with 0 by lra. apply exp_0.
Qed.

(** ** The Poisson probabilities of the program *)

Lemma poisson_fl_0 (mu : R) : 0 <= mu <= 300 -> poisson_fl 0 mu = exp (- mu).
Proof.
  intros H. unfold poisson_fl. rewrite poisson_0. apply flush_to_zero_above.
  pose proof (exp_neg_moderate mu H). pose proof underflow_threshold_pos. lra.
Qed.

Lemma poisson_fl_1 (mu : R) :
  moderate_rate mu -> poisson_fl 1 mu = exp (- mu) * mu.
Proof.
  intros Hm. pose proof (moderate_rate_range mu Hm) as Hr.
  unfold poisson_fl. rewrite poisson_1.
  destruct Hm as [-> | [Hlo Hhi]].
  - rewrite Rmult_0_r. apply flush_to_zero_below.
    left. apply underflow_threshold_pos.
  - apply flush_to_zero_above.
    rewrite <- underflow_threshold_times_2 in Hlo.
    pose proof underflow_threshold_pos as HT.
    pose proof (exp_neg_moderate mu Hr) as He.
    destruct (Rle_dec mu (1 / 4)) as [Hs|Hs].
    + pose proof (exp_ineq1_le (- mu)) as H1.
      assert (Hp : 3 / 4 * (2 * underflow_threshold) <= exp (- mu) * mu)
        by (apply Rmult_le_compat; lra).
      lra.
    + assert (Hp : 4 * underflow_threshold * (1 / 4) < exp (- mu) * mu)
        by (apply Rmult_le_0_lt_compat; lra).
      lra.
Qed.



Lemma poisson_fl_bounds (k : nat) (mu : R) :
  0 <= mu -> 0 <= poisson_fl k mu <= poisson k mu.
Proof.
  intros Hmu. apply flush_to_zero_bounds. now apply poisson_nonneg.
Qed.

Lemma poisson_fl_partial_sum_bounds (mu : R) (m : nat) :
  0 <= mu -> 0 <= Rsum (map (fun k => poisson_fl k mu) (seq 0 (S m))) <= 1.
Proof.
  intros Hmu. split.
  - apply Rsum_nonneg. apply Forall_forall. intros x Hx.
    apply in_map_iff in Hx. destruct Hx as [k [<- _]].
    now apply poisson_fl_bounds.
  - apply Rle_trans with (Rsum (map (fun k => poisson k mu) (seq 0 (S m)))).
    + apply Rsum_map_le. intros k _. now apply poisson_fl_bounds.
    + now apply poisson_partial_sum_le_1.
Qed.

Lemma poisson_fl_partial_sum_pos (mu : R) (m : nat) :
  0 <= mu <= 300 -> 0 < Rsum (map (fun k => poisson_fl k mu) (seq 0 (S m))).
Proof.
  intros Hmu. cbn [seq map Rsum fold_right].
  assert (H0 : 0 < poisson_fl 0 mu) by (rewrite poisson_fl_0 by assumption; apply exp_pos).
  assert (Hrest : 0 <= Rsum (map (fun k => poisson_fl k mu) (seq 1 m))).
  { apply Rsum_nonneg. apply Forall_forall. intros x Hx.
    apply in_map_iff in Hx. destruct Hx as [k [<- _]].
    apply poisson_fl_bounds. lra. }
  unfold Rsum in Hrest. lra.
Qed.

(** The mass of a table of products is the product of the two sums. *)
Lemma mass_product (r c : nat) (a b : nat -> R) :
  mass (rtabulate r c (fun i j => a i * b j)) =
    Rsum (map a (seq 0 r)) * Rsum (map b (seq 0 c)).
Proof.
  rewrite mass_rtabulate, <- Rsum_map_scal_r.
  apply Rsum_map_ext_in. intros i _. apply Rsum_map_scal_l.
Qed.

Lemma poisson_matrix_finite (lh la : R) (K : Z) :
  0 <= lh -> 0 <= la -> (0 <= K)%Z ->
  calculate_poisson_probabilities lh la K =
    Ok (fin_grid (rtabulate (S (Z.to_nat K)) (S (Z.to_nat K))
                            (fun i j => poisson_fl i lh * poisson_fl j la))).
Proof.
  intros Hh Ha HK.
  rewrite poisson_matrix_tabulate, succ_not_negative, to_nat_succ by assumption.
  f_equal. rewrite fin_grid_rtabulate. apply tabulate_ext. intros i j _ _.
  now rewrite !poisson_pmf_nonneg.
Qed.

Lemma poisson_mass_bounds (lh la : R) (m : nat) :
  0 <= lh -> 0 <= la ->
  0 <= mass (rtabulate (S m) (S m)
               (fun i j => poisson_fl i lh * poisson_fl j la)) <= 1.
Proof.
  intros Hh Ha. rewrite mass_product.
  pose proof (poisson_fl_partial_sum_bounds lh m Hh).
  pose proof (poisson_fl_partial_sum_bounds la m Ha).
  split; [apply Rmult_le_pos; lra|].
  replace 1 with (1 * 1) by lra. apply Rmult_le_compat; lra.
Qed.

Lemma poisson_mass_pos (lh la : R) (m : nat) :
  0 <= lh <= 300 -> 0 <= la <= 300 ->
  0 < mass (rtabulate (S m) (S m)
              (fun i j => poisson_fl i lh * poisson_fl j la)).
Proof.
  intros Hh Ha. rewrite mass_product.
  apply Rmult_lt_0_compat; now apply poisson_fl_partial_sum_pos.
Qed.


(** ** The Dixon-Coles correction *)

Lemma tau_far (x y : nat) (lx ly rho : R) :
  (2 <= x)%nat \/ (2 <= y)%nat -> tau x y lx ly rho = 1.
Proof.
  intros H. unfold tau.
  destruct x as [|[|x]], y as [|[|y]]; try reflexivity; exfalso; lia.
Qed.

Lemma Rsum_cons (x : R) (l : list R) : Rsum (x :: l) = x + Rsum l.
Proof. reflexivity. Qed.

(** A sum over 0, 1, 2, ... of a function that vanishes from 2 on. *)
Lemma Rsum_first_two (f : nat -> R) (m : nat) :
  (forall k, (2 <= k)%nat -> f k = 0) ->
  Rsum (map f (seq 0 (S (S m)))) = f 0%nat + f 1%nat.
Proof.
  intros Hf. change (seq 0 (S (S m))) with (0%nat :: 1%nat :: seq 2 m).
  cbn [map]. rewrite !Rsum_cons, Rsum_map_zero; [lra|].
  intros k Hk. apply in_seq in Hk. apply Hf. lia.
Qed.

(** On a grid with at least two rows and columns the four corrected cells
    cancel: the tau factors move mass between cells and add none. *)
Lemma dixon_coles_correction_cancels (lh la rho : R) (m : nat) :
  moderate_rate lh -> moderate_rate la ->
  mass (rtabulate (S (S m)) (S (S m))
          (fun i j => poisson_fl i lh * poisson_fl j la
                      * (tau i j lh la rho - 1))) = 0.
Proof.
  intros Hh Ha.
  pose proof (moderate_rate_range lh Hh) as Rh.
  pose proof (moderate_rate_range la Ha) as Ra.
  rewrite mass_rtabulate.
  set (d := fun i j => poisson_fl i lh * poisson_fl j la * (tau i j lh la rho - 1)).
  assert (Hfar : forall i j, (2 <= i)%nat \/ (2 <= j)%nat -> d i j = 0).
  { intros i j H. unfold d. rewrite tau_far by assumption. lra. }
  rewrite (Rsum_map_ext_in _ (fun i => d i 0%nat + d i 1%nat)).
  - rewrite Rsum_first_two.
    + unfold d, tau. cbn [Nat.eqb andb].
      rewrite !poisson_fl_0, !poisson_fl_1 by assumption. ring.
    + intros k Hk. rewrite !Hfar by auto. lra.
  - intros i _. apply Rsum_first_two. intros k Hk. apply Hfar. auto.
Qed.

Lemma mass_rtabulate_plus (r c : nat) (f g : nat -> nat -> R) :
  mass (rtabulate r c (fun i j => f i j + g i j)) =
    mass (rtabulate r c f) + mass (rtabulate r c g).
Proof.
  rewrite !mass_rtabulate, <- Rsum_map_plus.
  apply Rsum_map_ext_in. intros i _. apply Rsum_map_plus.
Qed.

Lemma mass_rtabulate_ext (r c : nat) (f g : nat -> nat -> R) :
  (forall i j, f i j = g i j) ->
  mass (rtabulate r c f) = mass (rtabulate r c g).
Proof.
  intros H. rewrite !mass_rtabulate. apply Rsum_map_ext_in. intros i _.
  apply Rsum_map_ext_in. intros j _. apply H.
Qed.

(** The mass of the 1 x 1 Dixon-Coles grid before its normalisation. *)
Lemma dixon_coles_raw_mass_1x1 (lh la rho : R) :
  mass (rtabulate 1 1
          (fun i j => poisson_fl i lh * poisson_fl j la * tau i j lh la rho))
  = poisson_fl 0 lh * poisson_fl 0 la * (1 - lh * la * rho).
Proof.
  unfold mass, rtabulate, tau. cbn. ring.
Qed.

(** From two rows and columns on, the tau factors leave the mass of the
    Poisson grid unchanged. *)
Lemma dixon_coles_raw_mass_eq (lh la rho : R) (m : nat) :
  moderate_rate lh -> moderate_rate la ->
  mass (rtabulate (S (S m)) (S (S m))
          (fun i j => poisson_fl i lh * poisson_fl j la * tau i j lh la rho))
  = mass (rtabulate (S (S m)) (S (S m))
            (fun i j => poisson_fl i lh * poisson_fl j la)).
Proof.
  intros Hh Ha.
  rewrite (mass_rtabulate_ext _ _ _
             (fun i j => poisson_fl i lh * poisson_fl j la +
                         poisson_fl i lh * poisson_fl j la
                         * (tau i j lh la rho - 1)))
    by (intros; ring).
  rewrite mass_rtabulate_plus, dixon_coles_correction_cancels by assumption.
  lra.
Qed.

(** The mass of the Dixon-Coles grid before its normalisation is positive at
    moderate rates, unless the grid is 1 x 1 and tau(0,0) is not positive. *)
Lemma dixon_coles_raw_mass_pos (lh la rho : R) (m : nat) :
  moderate_rate lh -> moderate_rate la ->
  (1 <= m)%nat \/ lh * la * rho < 1 ->
  0 < mass (rtabulate (S m) (S m)
              (fun i j => poisson_fl i lh * poisson_fl j la * tau i j lh la rho)).
Proof.
  intros Hh Ha Hside.
  pose proof (moderate_rate_range lh Hh) as Rh.
  pose proof (moderate_rate_range la Ha) as Ra.
  destruct m as [|m].
  - destruct Hside as [Hm|Hrho]; [lia|].
    rewrite dixon_coles_raw_mass_1x1, !poisson_fl_0 by assumption.
    apply Rmult_lt_0_compat; [apply Rmult_lt_0_compat; apply exp_pos | lra].
  - rewrite dixon_coles_raw_mass_eq by assumption. now apply poisson_mass_pos.
Qed.

Lemma dixon_coles_cells_finite (lh la rho : R) (n : nat) :
  0 <= lh -> 0 <= la ->
  tabulate n n (dixon_coles_adjustment lh la rho) =
    fin_grid (rtabulate n n
                (fun i j => poisson_fl i lh * poisson_fl j la * tau i j lh la rho)).
Proof.
  intros Hh Ha. rewrite fin_grid_rtabulate. apply tabulate_ext.
  intros i j _ _. unfold dixon_coles_adjustment. cbv zeta.
  now rewrite !poisson_pmf_nonneg.
Qed.

(** The Dixon-Coles grid for valid rates and a non-zero mass before the
    normalisation. *)
Lemma dixon_coles_matrix_finite (lh la rho : R) (K : Z) :
  0 <= lh -> 0 <= la -> (0 <= K)%Z ->
  let n := S (Z.to_nat K) in
  let M := mass (rtabulate n n
                   (fun i j => poisson_fl i lh * poisson_fl j la
                               * tau i j lh la rho)) in
  M <> 0 ->
  calculate_dixon_coles_matrix lh la K rho =
    Ok (fin_grid (rtabulate n n
                    (fun i j => poisson_fl i lh * poisson_fl j la
                                * tau i j lh la rho / M))).
Proof.
  intros Hh Ha HK. cbv zeta. intros HM.
  rewrite dixon_coles_matrix_tabulate, succ_not_negative, to_nat_succ by assumption.
  rewrite dixon_coles_cells_finite by assumption. f_equal.
  destruct (normalize_fin_grid _ HM) as [Hn _]. rewrite Hn. f_equal.
  unfold rtabulate. rewrite map_map. apply map_ext. intros i. now rewrite map_map.
Qed.

(** At moderate rates the Dixon-Coles grid sums to 1, unless the grid is
    1 x 1 and tau(0,0) is not positive. *)
Lemma dixon_coles_sums_to_1 (lh la rho : R) (K : Z) :
  moderate_rate lh -> moderate_rate la -> (0 <= K)%Z ->
  (1 <= K)%Z \/ lh * la * rho < 1 ->
  exists g : grid,
    calculate_dixon_coles_matrix lh la K rho = Ok g /\ np_sum g = Fin 1.
Proof.
  intros Hh Ha HK Hside.
  pose proof (moderate_rate_range lh Hh) as Rh.
  pose proof (moderate_rate_range la Ha) as Ra.
  assert (HM : 0 < mass (rtabulate (S (Z.to_nat K)) (S (Z.to_nat K))
                 (fun i j => poisson_fl i lh * poisson_fl j la
                             * tau i j lh la rho))).
  { apply dixon_coles_raw_mass_pos; try assumption.
    destruct Hside as [H1|Hr]; [left; lia | now right]. }
  rewrite dixon_coles_matrix_tabulate, succ_not_negative, to_nat_succ by assumption.
  rewrite dixon_coles_cells_finite by lra.
  eexists. split; [reflexivity|].
  apply normalize_fin_grid. lra.
Qed.

Lemma nonpositive_rho_side_condition (lh la rho : R) :
  0 <= lh -> 0 <= la -> rho <= 0 -> lh * la * rho < 1.
Proof.
  intros Hh Ha Hrho.
  assert (0 <= lh * la) by (apply Rmult_le_pos; assumption).
  assert (0 <= (lh * la) * - rho) by (apply Rmult_le_pos; lra). lra.
Qed.




(** ** Reading every cell of a grid in two nested loops *)

Section ReadLoops.

Context {S : Type}.
Variable step : nat -> nat -> npfloat -> S -> S.

Lemma read_row_loop (c : nat) (G1 G2 : list (list npfloat)) :
  Forall (fun r => length r = c) G1 ->
  forall (r2 r1 : list npfloat) (s : S),
    length (r1 ++ r2) = c ->
    for_each (seq (length r1) (length r2)) s
             (fun j s =>
                prob <- grid_get (G1 ++ (r1 ++ r2) :: G2)
                                 (Z.of_nat (length G1)) (Z.of_nat j) ;;
                Ok (step (length G1) j prob s))
    = Ok (fold_left (visit step)
                    (map (fun jx : nat * npfloat => (length G1, fst jx, snd jx))
                         (enum_from (length r1) r2))
                    s).
Proof.
  intros HG1. induction r2 as [|x r2 IH]; intros r1 s Hlen.
  - reflexivity.
  - cbn [length seq for_each enum_from map fold_left].
    rewrite (grid_get_middle c) by assumption. cbn [bind].
    specialize (IH (r1 ++ [x])).
    rewrite last_length, <- !app_assoc in IH. cbn [app] in IH.
    rewrite IH by exact Hlen. reflexivity.
Qed.

Lemma read_rows_loop (c : nat) :
  forall (G2 G1 : list (list npfloat)) (s : S),
    Forall (fun r => length r = c) (G1 ++ G2) ->
    for_each (seq (length G1) (length G2)) s
             (fun i s =>
                for_each (seq 0 c) s
                         (fun j s =>
                            prob <- grid_get (G1 ++ G2) (Z.of_nat i) (Z.of_nat j) ;;
                            Ok (step i j prob s)))
    = Ok (fold_left (visit step) (indexed_cells_from (length G1) G2) s).
Proof.
  induction G2 as [|row G2 IH]; intros G1 s Hall.
  - reflexivity.
  - apply Forall_app in Hall as Hparts. destruct Hparts as [HG1 HG2].
    inversion HG2 as [|? ? Hrow HG2']; subst.
    cbn [length seq for_each].
    pose proof (read_row_loop (length row) G1 G2 HG1 row [] s eq_refl) as Hin.
    cbn [app length] in Hin. rewrite Hin. cbn [bind].
    specialize (IH (G1 ++ [row])).
    rewrite last_length, <- !app_assoc in IH. cbn [app] in IH.
    rewrite IH by exact Hall.
    unfold indexed_cells_from. cbn [enum_from flat_map fst snd].
    now rewrite fold_left_app.
Qed.

(** The two loops over a rectangular grid visit its cells in row-major
    order and raise nothing. *)
Lemma read_all_cells (r c : nat) (g : grid) (s : S) :
  rectangular r c g ->
  for_each (seq 0 r) s
           (fun i s =>
              for_each (seq 0 c) s
                       (fun j s =>
                          prob <- grid_get g (Z.of_nat i) (Z.of_nat j) ;;
                          Ok (step i j prob s)))
  = Ok (fold_left (visit step) (indexed_cells g) s).
Proof.
  intros [Hr Hc]. subst r. apply (read_rows_loop c g [] s). exact Hc.
Qed.

End ReadLoops.

(** ** Cells and their coordinates *)

Lemma enum_from_map {A B : Type} (f : A -> B) (l : list A) :
  forall k, enum_from k (map f l) =
            map (fun kx : nat * A => (fst kx, f (snd kx))) (enum_from k l).
Proof.
  induction l as [|x l IH]; intros k; simpl; [reflexivity | now rewrite IH].
Qed.

Lemma map_snd_enum_from {A : Type} (l : list A) :
  forall k, map snd (enum_from k l) = l.
Proof.
  induction l as [|x l IH]; intros k; simpl; [reflexivity | now rewrite IH].
Qed.

Lemma indexed_cells_from_map {A B : Type} (f : A -> B) (g : list (list A)) :
  forall i0,
    indexed_cells_from i0 (map (map f) g) =
      map (fun c : nat * nat * A => (fst c, f (snd c))) (indexed_cells_from i0 g).
Proof.
  unfold indexed_cells_from.
  induction g as [|row g IH]; intros i0; [reflexivity|].
  cbn [map enum_from flat_map fst snd].
  rewrite IH, map_app. f_equal.
  rewrite enum_from_map, !map_map. reflexivity.
Qed.

Lemma indexed_cells_fin_grid (cells : list (list R)) :
  indexed_cells (fin_grid cells) =
    map (fun c : nat * nat * R => (fst c, Fin (snd c))) (indexed_cells cells).
Proof.
  apply indexed_cells_from_map.
Qed.

Lemma map_snd_indexed_cells_from {A : Type} (g : list (list A)) :
  forall i0, map snd (indexed_cells_from i0 g) = concat g.
Proof.
  unfold indexed_cells_from.
  induction g as [|row g IH]; intros i0; [reflexivity|].
  cbn [enum_from flat_map concat fst snd].
  rewrite map_app, IH, map_map. cbn [snd].
  f_equal. apply map_snd_enum_from.
Qed.

Lemma length_indexed_cells_from {A : Type} (c : nat) (g : list (list A)) :
  Forall (fun row => length row = c) g ->
  forall i0, length (indexed_cells_from i0 g) = (length g * c)%nat.
Proof.
  intros Hall i0.
  rewrite <- (length_map snd), map_snd_indexed_cells_from.
  induction Hall as [|row g Hrow _ IH]; [reflexivity|].
  cbn [concat length]. rewrite length_app, IH, Hrow. lia.
Qed.

Lemma fin_grid_rectangular (r c : nat) (cells : list (list R)) :
  length cells = r -> Forall (fun row => length row = c) cells ->
  rectangular r c (fin_grid cells).
Proof.
  intros Hr Hc. unfold rectangular, fin_grid. split.
  - now rewrite length_map.
  - apply Forall_map. eapply Forall_impl; [|exact Hc].
    intros row Hrow. now rewrite length_map.
Qed.

(** ** Market Aggregator *)

Lemma py_range_rows (n : nat) : py_range (Z.of_nat n - 1 + 1) = seq 0 n.
Proof.
  unfold py_range. f_equal. lia.
Qed.

(** An accumulator that adds the cells selected by [P] holds, after the
    pass over finite cells, its initial value plus their sum. *)
Lemma bucket_fold (proj : market_acc -> npfloat) (P : nat -> nat -> bool) :
  (forall i j x a,
      proj (market_step i j x a) = if P i j then np_add (proj a) x else proj a) ->
  forall (L : list (nat * nat * R)) (acc : market_acc) (a0 : R),
    proj acc = Fin a0 ->
    proj (fold_left (visit market_step)
                    (map (fun c : nat * nat * R => (fst c, Fin (snd c))) L) acc)
    = Fin (a0 + Rsum (map (fun c : nat * nat * R =>
                             if P (fst (fst c)) (snd (fst c)) then snd c else 0) L)).
Proof.
  intros Hstep. induction L as [|[[i j] x] L IH]; intros acc a0 Hacc.
  - cbn. rewrite Hacc. f_equal. lra.
  - cbn [map fold_left fst snd]. unfold visit at 2. cbn [fst snd].
    rewrite Rsum_cons.
    rewrite (IH _ (if P i j then a0 + x else a0)).
    + f_equal. destruct (P i j); lra.
    + rewrite Hstep, Hacc. destruct (P i j); reflexivity.
Qed.

Lemma casa_step (i j : nat) (x : npfloat) (a : market_acc) :
  prob_vitoria_casa (market_step i j x a) =
    if (j <? i)%nat then np_add (prob_vitoria_casa a) x else prob_vitoria_casa a.
Proof. reflexivity. Qed.

Lemma empate_step (i j : nat) (x : npfloat) (a : market_acc) :
  prob_empate (market_step i j x a) =
    if (i =? j)%nat then np_add (prob_empate a) x else prob_empate a.
Proof.
  cbn [market_step prob_empate].
  destruct (Nat.ltb_spec j i), (Nat.eqb_spec i j); try reflexivity; lia.
Qed.

Lemma fora_step (i j : nat) (x : npfloat) (a : market_acc) :
  prob_vitoria_fora (market_step i j x a) =
    if (i <? j)%nat then np_add (prob_vitoria_fora a) x else prob_vitoria_fora a.
Proof.
  cbn [market_step prob_vitoria_fora].
  destruct (Nat.ltb_spec j i), (Nat.eqb_spec i j), (Nat.ltb_spec i j);
    try reflexivity; lia.
Qed.

(** Every cell falls in exactly one of the three result buckets. *)
Lemma result_buckets_partition (cells : list (list R)) :
  bucket_sum (fun i j => (j <? i)%nat) cells
  + bucket_sum (fun i j => (i =? j)%nat) cells
  + bucket_sum (fun i j => (i <? j)%nat) cells
  = mass cells.
Proof.
  unfold bucket_sum, mass.
  rewrite <- !Rsum_map_plus.
  rewrite <- (map_snd_indexed_cells_from cells 0).
  apply Rsum_map_ext_in. intros [[i j] x] _. cbn [fst snd].
  destruct (Nat.ltb_spec j i), (Nat.eqb_spec i j), (Nat.ltb_spec i j);
    try lra; lia.
Qed.

Lemma dict_get_set_other {V : Type} (d : dict V) (k k' : string) (v : V) :
  k <> k' -> dict_get (dict_set d k v) k' = dict_get d k'.
Proof.
  intros Hk. induction d as [|[k0 v0] d IH]; cbn [dict_set dict_get].
  - destruct (String.eqb_spec k k'); [contradiction | reflexivity].
  - destruct (String.eqb_spec k0 k) as [->|Hk0]; cbn [dict_get].
    + destruct (String.eqb_spec k k'); [contradiction | reflexivity].
    + destruct (String.eqb_spec k0 k'); [reflexivity | exact IH].
Qed.

(** Writing the Over/Under entries leaves every other key as it was. *)
Lemma over_under_entries_other_key (k : string) :
  (forall s, "Over " ++ s <> k)%string ->
  (forall s, "Under " ++ s <> k)%string ->
  forall (lp : list (threshold * npfloat)) (d : dict npfloat),
    dict_get
      (fold_left (fun d (lp : threshold * npfloat) =>
                    let (limite, prob) := lp in
                    let d := dict_set d ("Over " ++ th_repr limite) prob in
                    dict_set d ("Under " ++ th_repr limite) (np_sub (Fin 1) prob))
                 lp d) k
    = dict_get d k.
Proof.
  intros Hover Hunder. induction lp as [|[limite prob] lp IH]; intros d.
  - reflexivity.
  - cbn [fold_left]. rewrite IH.
    rewrite !dict_get_set_other by auto. reflexivity.
Qed.

Lemma market_result_keys (a : market_acc) :
  let d :=
    dict_set
      (dict_set
         (fold_left (fun d (lp : threshold * npfloat) =>
                       let (limite, prob) := lp in
                       let d := dict_set d ("Over " ++ th_repr limite) prob in
                       dict_set d ("Under " ++ th_repr limite) (np_sub (Fin 1) prob))
                    (prob_over a)
                    (dict_set (dict_set (dict_set [] "1" (prob_vitoria_casa a))
                                        "X" (prob_empate a))
                              "2" (prob_vitoria_fora a)))
         "Ambas Marcam Sim" (prob_ambas_marcam a))
      "Ambas Marcam Não" (np_sub (Fin 1) (prob_ambas_marcam a)) in
  dict_get d "1" = Some (prob_vitoria_casa a) /\
  dict_get d "X" = Some (prob_empate a) /\
  dict_get d "2" = Some (prob_vitoria_fora a).
Proof.
  cbv zeta.
  repeat split;
    rewrite !dict_get_set_other by discriminate;
    rewrite over_under_entries_other_key by (intros s; discriminate);
    reflexivity.
Qed.

(** The single pass over a square grid: no exception, and the accumulators
    after the last cell. *)
Lemma market_pass (n : nat) (g : grid) :
  rectangular n n g ->
  exists d : dict npfloat,
    calculate_market_probabilities g = Ok d /\
    let a := fold_left (visit market_step) (indexed_cells g) market_acc_init in
    dict_get d "1" = Some (prob_vitoria_casa a) /\
    dict_get d "X" = Some (prob_empate a) /\
    dict_get d "2" = Some (prob_vitoria_fora a).
Proof.
  intros Hrect. unfold calculate_market_probabilities. cbv zeta.
  destruct Hrect as [Hn Hc]. unfold nrows. rewrite Hn, py_range_rows.
  rewrite (read_all_cells market_step n n g market_acc_init) by (split; assumption).
  cbn [bind]. eexists. split; [reflexivity|].
  apply market_result_keys.
Qed.

(** C6.  On a square score grid of finite cells the aggregator puts every
    cell (i,j) in exactly one result bucket: "1" is the sum of the cells
    with i > j, "X" of those with i = j, "2" of those with i < j, and the
    three add up to the total mass of the grid, whatever that mass is. *)
Theorem result_markets_sum_to_mass (n : nat) (cells : list (list R)) :
  length cells = n -> Forall (fun row => length row = n) cells ->
  exists (d : dict npfloat) (home draw away : R),
    calculate_market_probabilities (fin_grid cells) = Ok d /\
    dict_get d "1" = Some (Fin home) /\
    dict_get d "X" = Some (Fin draw) /\
    dict_get d "2" = Some (Fin away) /\
    home = bucket_sum (fun i j => (j <? i)%nat) cells /\
    draw = bucket_sum (fun i j => (i =? j)%nat) cells /\
    away = bucket_sum (fun i j => (i <? j)%nat) cells /\
    home + draw + away = mass cells.
Proof.
  intros Hn Hc.
  destruct (market_pass n (fin_grid cells) (fin_grid_rectangular n n cells Hn Hc))
    as [d [Hd [H1 [HX H2]]]].
  rewrite indexed_cells_fin_grid in H1, HX, H2.
  rewrite (bucket_fold prob_vitoria_casa (fun i j => (j <? i)%nat) casa_step
             _ market_acc_init 0 eq_refl) in H1.
  rewrite (bucket_fold prob_empate (fun i j => (i =? j)%nat) empate_step
             _ market_acc_init 0 eq_refl) in HX.
  rewrite (bucket_fold prob_vitoria_fora (fun i j => (i <? j)%nat) fora_step
             _ market_acc_init 0 eq_refl) in H2.
  rewrite Rplus_0_l in H1, HX, H2.
  exists d. do 3 eexists.
  split; [exact Hd|]. split; [exact H1|]. split; [exact HX|]. split; [exact H2|].
  split; [reflexivity|]. split; [reflexivity|]. split; [reflexivity|].
  apply result_buckets_partition.
Qed.

Lemma result_markets_sum_to_mass_witness :
  exists (d : dict npfloat) (home draw away : R),
    calculate_market_probabilities (fin_grid [[0.2; 0.1]; [0.3; 0.1]]) = Ok d /\
    dict_get d "1" = Some (Fin home) /\
    dict_get d "X" = Some (Fin draw) /\
    dict_get d "2" = Some (Fin away) /\
    home = bucket_sum (fun i j => (j <? i)%nat) [[0.2; 0.1]; [0.3; 0.1]] /\
    draw = bucket_sum (fun i j => (i =? j)%nat) [[0.2; 0.1]; [0.3; 0.1]] /\
    away = bucket_sum (fun i j => (i <? j)%nat) [[0.2; 0.1]; [0.3; 0.1]] /\
    home + draw + away = mass [[0.2; 0.1]; [0.3; 0.1]].
Proof.
  apply (result_markets_sum_to_mass 2 [[0.2; 0.1]; [0.3; 0.1]]).
  - reflexivity.
  - repeat constructor.
Defined.

(** ** Sorting *)

Lemma StronglySorted_weaken {T : Type} (R1 R2 : T -> T -> Prop) (l : list T) :
  (forall x y, R1 x y -> R2 x y) -> StronglySorted R1 l -> StronglySorted R2 l.
Proof.
  intros Himp. induction 1 as [|x l Hl IH Hx]; constructor; [assumption|].
  eapply Forall_impl; [|exact Hx]. intros y. apply Himp.
Qed.

Lemma StronglySorted_snoc {T : Type} (Rel : T -> T -> Prop) (l : list T) (x : T) :
  StronglySorted Rel l -> Forall (fun y => Rel y x) l ->
  StronglySorted Rel (l ++ [x]).
Proof.
  induction 1 as [|y l Hl IH Hy]; intros Hx; cbn [app].
  - constructor; constructor.
  - inversion Hx as [|? ? Hyx Hlx]; subst. constructor; [now apply IH|].
    apply Forall_app. split; [assumption | constructor; [assumption | constructor]].
Qed.

Lemma StronglySorted_rev {T : Type} (Rel : T -> T -> Prop) (l : list T) :
  StronglySorted Rel l -> StronglySorted (fun x y => Rel y x) (rev l).
Proof.
  induction 1 as [|x l Hl IH Hx]; cbn [rev]; [constructor|].
  apply StronglySorted_snoc; [assumption|].
  apply Forall_rev. exact Hx.
Qed.

Lemma StronglySorted_app {T : Type} (Rel : T -> T -> Prop) (l1 l2 : list T) :
  StronglySorted Rel l1 -> StronglySorted Rel l2 ->
  Forall (fun x => Forall (Rel x) l2) l1 ->
  StronglySorted Rel (l1 ++ l2).
Proof.
  induction 1 as [|x l1 Hl1 IH Hx]; intros H2 Hcross; cbn [app]; [assumption|].
  inversion Hcross as [|? ? Hx2 Hrest]; subst.
  constructor; [now apply IH|]. apply Forall_app. now split.
Qed.

Section StableSort.

Context {T : Type}.
Variable keyR : T -> R.
Variable ord : T -> T -> Prop.

Lemma insert_by_perm (x : T) (l : list T) :
  Permutation (insert_by (fin_key keyR) x l) (x :: l).
Proof.
  induction l as [|y l IH]; cbn [insert_by]; [reflexivity|].
  destruct (np_lt (fin_key keyR y) (fin_key keyR x)); [|reflexivity].
  rewrite IH. apply perm_swap.
Qed.

Lemma stable_sort_perm (l : list T) : Permutation (stable_sort (fin_key keyR) l) l.
Proof.
  induction l as [|x l IH]; cbn [stable_sort]; [reflexivity|].
  rewrite insert_by_perm. now constructor.
Qed.

Lemma np_lt_key (x y : T) :
  np_lt (fin_key keyR x) (fin_key keyR y) = true <-> keyR x < keyR y.
Proof.
  unfold fin_key. cbn [np_lt]. decide_reals; split; intros H;
    try reflexivity; try assumption; try discriminate; contradiction.
Qed.

(** Inserting an element that precedes, in the original order, every
    element already placed. *)
Lemma insert_by_sorted (x : T) (l : list T) :
  Forall (ord x) l ->
  StronglySorted (ascending_then keyR ord) l ->
  StronglySorted (ascending_then keyR ord) (insert_by (fin_key keyR) x l).
Proof.
  intros Hord Hs. induction Hs as [|y l Hl IH Hy]; cbn [insert_by].
  - constructor; constructor.
  - inversion Hord as [|? ? Hxy Hxl]; subst.
    destruct (np_lt (fin_key keyR y) (fin_key keyR x)) eqn:Hlt.
    + apply np_lt_key in Hlt. constructor; [now apply IH|].
      eapply Permutation_Forall; [symmetry; apply insert_by_perm|].
      constructor; [now left | assumption].
    + assert (Hge : keyR x <= keyR y).
      { destruct (Rle_dec (keyR x) (keyR y)) as [H|H]; [exact H|].
        exfalso. assert (Hc : keyR y < keyR x) by lra.
        apply np_lt_key in Hc. congruence. }
      constructor; [constructor; assumption|].
      constructor.
      * destruct Hge as [Hlt'|Heq]; [now left | right; now split].
      * rewrite Forall_forall in Hy, Hxl |- *. intros z Hz.
        specialize (Hy z Hz). specialize (Hxl z Hz).
        unfold ascending_then in *.
        destruct Hy as [Hyz|[Hyz _]].
        -- left. lra.
        -- destruct Hge as [Hlt'|Heq]; [left; lra | right; split; [lra | assumption]].
Qed.

Lemma stable_sort_sorted (l : list T) :
  StronglySorted ord l ->
  StronglySorted (ascending_then keyR ord) (stable_sort (fin_key keyR) l).
Proof.
  induction 1 as [|x l Hl IH Hx]; cbn [stable_sort]; [constructor|].
  apply insert_by_sorted; [|assumption].
  eapply Permutation_Forall; [symmetry; apply stable_sort_perm | exact Hx].
Qed.

End StableSort.

(** [sorted(l, key, reverse=True)] on finite keys: a permutation of [l],
    descending by key, elements of equal key in the order they have in [l]. *)
Lemma py_sorted_reverse_spec {T : Type} (keyR : T -> R) (before : T -> T -> Prop)
      (l : list T) :
  StronglySorted before l ->
  Permutation (py_sorted_reverse (fin_key keyR) l) l /\
  StronglySorted (descending_then keyR before)
                 (py_sorted_reverse (fin_key keyR) l).
Proof.
  intros Hl. unfold py_sorted_reverse. split.
  - rewrite <- Permutation_rev, stable_sort_perm. symmetry. apply Permutation_rev.
  - apply StronglySorted_rev in Hl.
    apply (stable_sort_sorted keyR) in Hl.
    apply StronglySorted_rev in Hl.
    eapply StronglySorted_weaken; [|exact Hl].
    intros x y [Hlt|[Heq Hord]]; [now left | right; split; [lra | exact Hord]].
Qed.

Lemma insert_by_map {A B : Type} (key : B -> npfloat) (h : A -> B) (x : A)
      (l : list A) :
  insert_by key (h x) (map h l) = map h (insert_by (fun a => key (h a)) x l).
Proof.
  induction l as [|y l IH]; cbn [map insert_by]; [reflexivity|].
  destruct (np_lt (key (h y)) (key (h x))); cbn [map]; [now rewrite IH | reflexivity].
Qed.

Lemma stable_sort_map {A B : Type} (key : B -> npfloat) (h : A -> B) (l : list A) :
  stable_sort key (map h l) = map h (stable_sort (fun a => key (h a)) l).
Proof.
  induction l as [|x l IH]; cbn [map stable_sort]; [reflexivity|].
  now rewrite IH, insert_by_map.
Qed.

Lemma py_sorted_reverse_map {A B : Type} (key : B -> npfloat) (h : A -> B)
      (l : list A) :
  py_sorted_reverse key (map h l) = map h (py_sorted_reverse (fun a => key (h a)) l).
Proof.
  unfold py_sorted_reverse. now rewrite <- map_rev, stable_sort_map, map_rev.
Qed.

(** ** Score Ranker *)

Lemma enum_from_positions {A : Type} (l : list A) :
  forall k,
    Forall (fun p => (k <= fst p)%nat) (enum_from k l) /\
    StronglySorted (fun p q => (fst p < fst q)%nat) (enum_from k l).
Proof.
  induction l as [|x l IH]; intros k; cbn [enum_from].
  - split; constructor.
  - destruct (IH (S k)) as [Hge Hs]. split.
    + constructor; [cbn; lia|].
      eapply Forall_impl; [|exact Hge]. cbn. intros p Hp. lia.
    + constructor; [assumption|].
      eapply Forall_impl; [|exact Hge]. cbn. intros p Hp. lia.
Qed.

Lemma StronglySorted_map {A B : Type} (Rel : B -> B -> Prop) (f : A -> B)
      (l : list A) :
  StronglySorted (fun x y => Rel (f x) (f y)) l -> StronglySorted Rel (map f l).
Proof.
  induction 1 as [|x l Hl IH Hx]; cbn [map]; constructor; [assumption|].
  apply Forall_map. exact Hx.
Qed.

(** The traversal order of the cells is the row-major order of their
    coordinates. *)
Lemma indexed_cells_from_row_major {A : Type} (g : list (list A)) :
  forall i0,
    Forall (fun c => (i0 <= fst (fst c))%nat) (indexed_cells_from i0 g) /\
    StronglySorted (fun c c' : nat * nat * A => row_major_before (fst c) (fst c'))
                   (indexed_cells_from i0 g).
Proof.
  unfold indexed_cells_from.
  induction g as [|row g IH]; intros i0; cbn [enum_from flat_map fst snd].
  - split; constructor.
  - destruct (IH (S i0)) as [Hge Hs].
    destruct (enum_from_positions row 0) as [_ Hrow].
    split.
    + apply Forall_app. split.
      * apply Forall_map. apply Forall_forall. intros p _. cbn. lia.
      * eapply Forall_impl; [|exact Hge]. cbn. intros c Hc. lia.
    + apply StronglySorted_app.
      * apply StronglySorted_map.
        eapply StronglySorted_weaken; [|exact Hrow].
        intros p q Hpq. right. cbn. split; [reflexivity | exact Hpq].
      * exact Hs.
      * apply Forall_map. apply Forall_forall. intros p _.
        eapply Forall_impl; [|exact Hge]. intros c Hc. left. cbn. cbn in Hc. lia.
Qed.

Lemma collect_labels (L : list (nat * nat * npfloat))
      (s0 : list (string * npfloat)) :
  fold_left (visit (fun i j prob placares => placares ++ [(placar_label i j, prob)]))
            L s0
  = s0 ++ map (fun c => (placar_label (fst (fst c)) (snd (fst c)), snd c)) L.
Proof.
  revert s0. induction L as [|c L IH]; intros s0; cbn [fold_left map].
  - now rewrite app_nil_r.
  - rewrite IH. unfold visit at 1. now rewrite <- app_assoc.
Qed.

(** What the ranker returns on a grid of finite cells with at least one
    row. *)
Lemma ranker_result (r c : nat) (cells : list (list R)) (N : Z) :
  length cells = S r -> Forall (fun row => length row = c) cells ->
  find_most_probable_scores (fin_grid cells) N =
    Ok (py_slice_to
          (map labelled
               (py_sorted_reverse (fin_key snd) (indexed_cells cells)))
          N).
Proof.
  intros Hr Hc. unfold find_most_probable_scores. cbv zeta.
  pose proof (fin_grid_rectangular (S r) c cells Hr Hc) as Hrect.
  assert (Hrows : nrows (fin_grid cells) = S r) by apply Hrect.
  assert (Hcols : ncols (fin_grid cells) = c).
  { destruct cells as [|row cells]; [discriminate|].
    inversion Hc; subst. cbn. apply length_map. }
  rewrite Hrows, Hcols.
  rewrite (read_all_cells
             (fun i j prob placares => placares ++ [(placar_label i j, prob)])
             (S r) c (fin_grid cells) [] Hrect).
  cbn [bind]. rewrite collect_labels, indexed_cells_fin_grid, map_map.
  cbn [app fst snd].
  change (map (fun x : nat * nat * R =>
                 (placar_label (fst (fst x)) (snd (fst x)), Fin (snd x)))
              (indexed_cells cells))
    with (map labelled (indexed_cells cells)).
  now rewrite py_sorted_reverse_map.
Qed.

(** A 2x2 grid with two ties: the tied cells come out in traversal order. *)
Example ranker_tie_example :
  find_most_probable_scores (fin_grid [[0.1; 0.4]; [0.4; 0.1]]) 3 =
    Ok [("0-1"%string, Fin 0.4); ("1-0"%string, Fin 0.4); ("0-0"%string, Fin 0.1)].
Proof.
  rewrite (ranker_result 1 2) by (try reflexivity; repeat constructor).
  unfold py_sorted_reverse, indexed_cells, indexed_cells_from.
  cbn [enum_from flat_map map app fst snd rev stable_sort].
  repeat (cbn [insert_by np_lt fst snd fin_key];
          match goal with
          | |- context [Rlt_dec ?a ?b] =>
              destruct (Rlt_dec a b); try (exfalso; lra)
          end).
  reflexivity.
Qed.



(** ** Reading and writing one cell of a tabulated grid *)

Lemma map_seq_split {A : Type} (h : nat -> A) (k n : nat) :
  (k < n)%nat ->
  map h (seq 0 n) = map h (seq 0 k) ++ h k :: map h (seq (S k) (n - S k)).
Proof.
  intros Hk. replace n with (k + S (n - S k))%nat at 1 by lia.
  rewrite seq_app, map_app. reflexivity.
Qed.

Lemma map_seq_update {A : Type} (h : nat -> A) (y : A) (k n : nat) :
  (k < n)%nat ->
  map (fun i => if (i =? k)%nat then y else h i) (seq 0 n) =
    map h (seq 0 k) ++ y :: map h (seq (S k) (n - S k)).
Proof.
  intros Hk. rewrite (map_seq_split _ k n Hk), Nat.eqb_refl.
  f_equal; [|f_equal]; apply map_ext_in; intros i Hi; apply in_seq in Hi;
    destruct (Nat.eqb_spec i k); try reflexivity; lia.
Qed.

Lemma tabulate_rows_length (c : nat) (f : nat -> nat -> npfloat) (l : list nat) :
  Forall (fun r => length r = c) (map (fun i => map (f i) (seq 0 c)) l).
Proof.
  apply Forall_map, Forall_forall. intros i _. now rewrite length_map, length_seq.
Qed.

Lemma grid_get_tabulate (r c : nat) (f : nat -> nat -> npfloat) (i0 j0 : nat) :
  (i0 < r)%nat -> (j0 < c)%nat ->
  grid_get (tabulate r c f) (Z.of_nat i0) (Z.of_nat j0) = Ok (f i0 j0).
Proof.
  intros Hi Hj. unfold tabulate.
  rewrite (map_seq_split (fun i => map (f i) (seq 0 c)) i0 r Hi). cbv beta.
  rewrite (map_seq_split (f i0) j0 c Hj).
  set (G1 := map (fun i => map (f i) (seq 0 c)) (seq 0 i0)).
  set (r1 := map (f i0) (seq 0 j0)).
  replace (Z.of_nat i0) with (Z.of_nat (length G1))
    by (unfold G1; now rewrite length_map, length_seq).
  replace (Z.of_nat j0) with (Z.of_nat (length r1))
    by (unfold r1; now rewrite length_map, length_seq).
  apply (grid_get_middle c).
  - apply tabulate_rows_length.
  - unfold r1. rewrite <- (map_seq_split (f i0) j0 c Hj).
    now rewrite length_map, length_seq.
Qed.

Lemma grid_set_tabulate (r c : nat) (f : nat -> nat -> npfloat) (i0 j0 : nat)
      (y : npfloat) :
  (i0 < r)%nat -> (j0 < c)%nat ->
  grid_set (tabulate r c f) (Z.of_nat i0) (Z.of_nat j0) y =
    Ok (tabulate r c (fun i j => if ((i =? i0) && (j =? j0))%nat then y else f i j)).
Proof.
  intros Hi Hj. unfold tabulate.
  rewrite (map_seq_split (fun i => map (f i) (seq 0 c)) i0 r Hi). cbv beta.
  rewrite (map_seq_split (f i0) j0 c Hj).
  set (G1 := map (fun i => map (f i) (seq 0 c)) (seq 0 i0)).
  set (r1 := map (f i0) (seq 0 j0)).
  replace (Z.of_nat i0) with (Z.of_nat (length G1))
    by (unfold G1; now rewrite length_map, length_seq).
  replace (Z.of_nat j0) with (Z.of_nat (length r1))
    by (unfold r1; now rewrite length_map, length_seq).
  rewrite (grid_set_middle c).
  - unfold G1, r1.
    rewrite <- (map_seq_update (f i0) y j0 c Hj).
    rewrite <- (map_seq_update (fun i => map (f i) (seq 0 c))
                               (map (fun j => if (j =? j0)%nat then y else f i0 j)
                                    (seq 0 c)) i0 r Hi).
    apply f_equal. apply map_ext. intros i.
    destruct (Nat.eqb_spec i i0) as [->|Hne]; reflexivity.
  - apply tabulate_rows_length.
  - unfold r1. rewrite <- (map_seq_split (f i0) j0 c Hj).
    now rewrite length_map, length_seq.
Qed.

Lemma grid_incr_tabulate (r c : nat) (f : nat -> nat -> npfloat) (i0 j0 : nat)
      (x : npfloat) :
  (i0 < r)%nat -> (j0 < c)%nat ->
  grid_incr (tabulate r c f) (Z.of_nat i0) (Z.of_nat j0) x =
    Ok (tabulate r c (fun i j => if ((i =? i0) && (j =? j0))%nat
                                 then np_add (f i0 j0) x else f i j)).
Proof.
  intros Hi Hj. unfold grid_incr.
  rewrite grid_get_tabulate by assumption. cbn [bind].
  now apply grid_set_tabulate.
Qed.

Lemma repeat_map_seq {A : Type} (x : A) (n : nat) :
  repeat x n = map (fun _ => x) (seq 0 n).
Proof.
  generalize 0%nat. induction n as [|n IH]; intros k; simpl; [reflexivity|].
  now rewrite (IH (S k)).
Qed.

Lemma zeros_tabulate (n : nat) :
  repeat (repeat (Fin 0) n) n = tabulate n n (fun _ _ => Fin 0).
Proof.
  unfold tabulate. now rewrite <- !repeat_map_seq.
Qed.

(** ** Historical Blender *)

(** The four branches of the counting loop amount to one increment, at the
    clamped score. *)
Lemma count_result_clamps (K : nat) (resultado : nat * nat) (g : grid) :
  count_result (Z.of_nat K) resultado g =
    grid_incr g (Z.of_nat (Nat.min (fst resultado) K))
              (Z.of_nat (Nat.min (snd resultado) K)) (Fin 1).
Proof.
  destruct resultado as [h a]. unfold count_result. cbn [fst snd].
  destruct (Z.leb_spec (Z.of_nat h) (Z.of_nat K)) as [Hh|Hh];
    destruct (Z.leb_spec (Z.of_nat a) (Z.of_nat K)) as [Ha|Ha];
    cbn [andb].
  - now rewrite !Nat.min_l by lia.
  - destruct (Z.gtb_spec (Z.of_nat a) (Z.of_nat K)); [|lia].
    rewrite Nat.min_l, Nat.min_r by lia.
    destruct (Z.of_nat h >? Z.of_nat K)%Z; reflexivity.
  - destruct (Z.gtb_spec (Z.of_nat h) (Z.of_nat K)); [|lia].
    now rewrite Nat.min_r, Nat.min_l by lia.
  - destruct (Z.gtb_spec (Z.of_nat h) (Z.of_nat K)); [|lia].
    cbn [andb]. now rewrite !Nat.min_r by lia.
Qed.

Lemma score_count_cons (K : nat) (r : nat * nat) (history : list (nat * nat))
      (i j : nat) :
  score_count K (r :: history) i j =
    ((if ((Nat.min (fst r) K =? i) && (Nat.min (snd r) K =? j))%nat then 1 else 0)
     + score_count K history i j)%nat.
Proof.
  unfold score_count. cbn [filter].
  destruct ((Nat.min (fst r) K =? i) && (Nat.min (snd r) K =? j))%nat; reflexivity.
Qed.

(** The counting loop adds to each cell the number of results clamped to it. *)
Lemma frequency_loop (K : nat) (history : list (nat * nat)) :
  forall c0 : nat -> nat -> nat,
    for_each history (tabulate (S K) (S K) (fun i j => Fin (INR (c0 i j))))
             (count_result (Z.of_nat K))
    = Ok (tabulate (S K) (S K)
                   (fun i j => Fin (INR (c0 i j + score_count K history i j)))).
Proof.
  induction history as [|r history IH]; intros c0.
  - cbn [for_each]. f_equal. apply tabulate_ext. intros i j _ _.
    unfold score_count. cbn. now rewrite Nat.add_0_r.
  - cbn [for_each]. rewrite count_result_clamps.
    rewrite grid_incr_tabulate by lia. cbn [bind np_add].
    set (i0 := Nat.min (fst r) K). set (j0 := Nat.min (snd r) K).
    rewrite (tabulate_ext _ _ _
               (fun i j => Fin (INR (c0 i j +
                                     (if ((i0 =? i) && (j0 =? j))%nat then 1 else 0))))).
    + rewrite IH. f_equal. apply tabulate_ext. intros i j _ _.
      rewrite score_count_cons. fold i0 j0. do 2 f_equal. lia.
    + intros i j _ _.
      destruct (Nat.eqb_spec i i0) as [->|Hi], (Nat.eqb_spec j j0) as [->|Hj];
        cbn [andb]; rewrite ?Nat.eqb_refl; cbn [andb].
      * f_equal. rewrite plus_INR. reflexivity.
      * destruct (Nat.eqb_spec j0 j); [congruence|]. now rewrite Nat.add_0_r.
      * destruct (Nat.eqb_spec i0 i); [congruence|]. cbn [andb]. now rewrite Nat.add_0_r.
      * destruct (Nat.eqb_spec i0 i); [congruence|]. cbn [andb]. now rewrite Nat.add_0_r.
Qed.

Lemma frequency_grid (K : nat) (history : list (nat * nat)) :
  (freq_historica <- np_zeros (Z.of_nat K + 1) ;;
   for_each history freq_historica (count_result (Z.of_nat K)))
  = Ok (fin_grid (rtabulate (S K) (S K)
                            (fun i j => INR (score_count K history i j)))).
Proof.
  unfold np_zeros. destruct (Z.ltb_spec (Z.of_nat K + 1) 0); [lia|].
  cbn [bind]. replace (Z.to_nat (Z.of_nat K + 1)) with (S K) by lia.
  rewrite zeros_tabulate.
  change (Fin 0) with (Fin (INR 0)).
  rewrite (frequency_loop K history (fun _ _ => 0%nat)). cbn [Nat.add].
  now rewrite fin_grid_rtabulate.
Qed.

Lemma Rsum_single (g : nat -> R) (k n : nat) :
  (k < n)%nat -> (forall i, i <> k -> g i = 0) ->
  Rsum (map g (seq 0 n)) = g k.
Proof.
  intros Hk Hz. rewrite (map_seq_split g k n Hk), Rsum_app, Rsum_cons.
  rewrite !Rsum_map_zero; [lra | |]; intros i Hi; apply in_seq in Hi;
    apply Hz; lia.
Qed.

(** Each past result lands in exactly one cell. *)
Lemma score_count_mass (K : nat) (history : list (nat * nat)) :
  mass (rtabulate (S K) (S K) (fun i j => INR (score_count K history i j)))
  = INR (length history).
Proof.
  induction history as [|r history IH].
  - rewrite mass_rtabulate. apply Rsum_map_zero. intros i _.
    apply Rsum_map_zero. intros j _. reflexivity.
  - set (i0 := Nat.min (fst r) K). set (j0 := Nat.min (snd r) K).
    rewrite (mass_rtabulate_ext _ _ _
               (fun i j => (if (i0 =? i)%nat
                            then (if (j0 =? j)%nat then 1 else 0) else 0)
                           + INR (score_count K history i j))).
    + rewrite mass_rtabulate_plus, IH.
      cbn [length]. rewrite S_INR.
      rewrite mass_rtabulate.
      rewrite (Rsum_single _ i0) by (try (intros i Hi; destruct (Nat.eqb_spec i0 i); [congruence|]; apply Rsum_map_zero; reflexivity); unfold i0; lia).
      rewrite Nat.eqb_refl.
      rewrite (Rsum_single _ j0) by (try (intros j Hj; destruct (Nat.eqb_spec j0 j); [congruence | reflexivity]); unfold j0; lia).
      rewrite Nat.eqb_refl. lra.
    + intros i j. rewrite score_count_cons, plus_INR. fold i0 j0.
      destruct (i0 =? i)%nat, (j0 =? j)%nat; cbn [andb]; simpl; lra.
Qed.

Lemma list_as_map_nth {A : Type} (d : A) (l : list A) :
  l = map (fun i => nth i l d) (seq 0 (length l)).
Proof.
  induction l as [|x l IH]; [reflexivity|].
  cbn [length seq map nth]. f_equal.
  rewrite <- seq_shift, map_map. exact IH.
Qed.

(** A rectangular table is the table of its cells. *)
Lemma cells_as_rtabulate (r c : nat) (cells : list (list R)) :
  length cells = r -> Forall (fun row => length row = c) cells ->
  cells = rtabulate r c (cell cells).
Proof.
  intros Hr Hc. unfold rtabulate, cell. subst r.
  rewrite (list_as_map_nth [] cells) at 1.
  apply map_ext_in. intros i Hi. apply in_seq in Hi.
  assert (Hlen : length (nth i cells []) = c).
  { rewrite Forall_forall in Hc. apply Hc. apply nth_In. lia. }
  rewrite (list_as_map_nth 0 (nth i cells [])) at 1. now rewrite Hlen.
Qed.

Lemma rtabulate_ext (r c : nat) (f g : nat -> nat -> R) :
  (forall i j, f i j = g i j) -> rtabulate r c f = rtabulate r c g.
Proof.
  intros H. unfold rtabulate. apply map_ext. intros i. apply map_ext.
  intros j. apply H.
Qed.

Lemma zip_with_map {A B C D : Type} (f : B -> C -> D) (a : A -> B) (b : A -> C)
      (l : list A) :
  zip_with f (map a l) (map b l) = map (fun x => f (a x) (b x)) l.
Proof.
  induction l as [|x l IH]; cbn [map zip_with]; [reflexivity | now rewrite IH].
Qed.

Lemma grid_map2_tabulate (r c : nat) (f : npfloat -> npfloat -> npfloat)
      (a b : nat -> nat -> npfloat) :
  grid_map2 f (tabulate r c a) (tabulate r c b) =
    tabulate r c (fun i j => f (a i j) (b i j)).
Proof.
  unfold grid_map2, tabulate. rewrite zip_with_map. apply map_ext. intros i.
  apply zip_with_map.
Qed.

Lemma shape_eqb_tabulate (r c : nat) (f : nat -> nat -> npfloat) :
  shape_eqb (tabulate r c f) r c = true.
Proof.
  unfold shape_eqb, tabulate. rewrite length_map, length_seq, Nat.eqb_refl.
  cbn [andb]. apply forallb_forall. intros row Hrow.
  apply in_map_iff in Hrow. destruct Hrow as [i [<- _]].
  rewrite length_map, length_seq. apply Nat.eqb_refl.
Qed.

Lemma tabulate_shape (r c : nat) (f : nat -> nat -> npfloat) :
  nrows (tabulate (S r) c f) = S r /\ ncols (tabulate (S r) c f) = c.
Proof.
  unfold nrows, ncols, tabulate. split.
  - now rewrite length_map, length_seq.
  - cbn [seq map]. now rewrite length_map, length_seq.
Qed.

(** The historical probabilities the blender derives from the counts: the
    empirical frequencies, which are all 0 for an empty history. *)
Lemma prob_historica_finite (K : nat) (history : list (nat * nat)) :
  let freq := fin_grid (rtabulate (S K) (S K)
                                  (fun i j => INR (score_count K history i j))) in
  (if np_gt (np_sum freq) (Fin 0) then grid_div freq (np_sum freq)
   else np_zeros_like freq)
  = fin_grid (empirical_frequency K history).
Proof.
  cbv zeta. rewrite np_sum_fin_grid, score_count_mass.
  unfold empirical_frequency, np_gt. cbn [np_lt].
  destruct (Rlt_dec 0 (INR (length history))) as [Hpos|Hzero].
  - rewrite grid_div_fin by lra. f_equal.
    unfold rtabulate. rewrite map_map. apply map_ext. intros i.
    now rewrite map_map.
  - assert (Hnil : history = []).
    { destruct history; [reflexivity|]. exfalso. apply Hzero.
      apply lt_0_INR. cbn [length]. lia. }
    subst history. unfold np_zeros_like.
    rewrite !fin_grid_rtabulate, tabulate_map.
    apply tabulate_ext. intros i j _ _. f_equal.
    unfold score_count. cbn. unfold Rdiv. now rewrite Rmult_0_l.
Qed.

(** The blender on a (K+1) x (K+1) base of finite cells: the mix of the base
    and the empirical frequencies, divided by its own mass. *)
Lemma blend_finite (K : nat) (cells : list (list R)) (history : list (nat * nat))
      (w : R) :
  length cells = S K -> Forall (fun row => length row = S K) cells ->
  adjust_probabilities_with_history (fin_grid cells) history w (Z.of_nat K) =
    Ok (normalize_by_mass
          (fin_grid
             (rtabulate (S K) (S K)
                (fun i j =>
                   (1 - w) * cell cells i j
                   + w * (INR (score_count K history i j) / INR (length history)))))).
Proof.
  intros Hr Hc. unfold adjust_probabilities_with_history.
  rewrite bind_assoc, frequency_grid. cbn [bind].
  rewrite (prob_historica_finite K history). unfold empirical_frequency.
  pose proof (cells_as_rtabulate (S K) (S K) cells Hr Hc) as Hcells.
  remember (cell cells) as b eqn:Hb. rewrite Hcells.
  unfold grid_scale. rewrite !fin_grid_rtabulate, !tabulate_map.
  cbn [np_mul].
  destruct (tabulate_shape K (S K)
              (fun i j => Fin (w * (INR (score_count K history i j)
                                    / INR (length history))))) as [-> ->].
  rewrite shape_eqb_tabulate, grid_map2_tabulate. cbn [np_add bind].
  reflexivity.
Qed.

Lemma empirical_frequency_mass (K : nat) (history : list (nat * nat)) :
  history <> [] -> mass (empirical_frequency K history) = 1.
Proof.
  intros Hne. unfold empirical_frequency.
  assert (Hlen : INR (length history) <> 0).
  { destruct history; [contradiction|]. apply not_0_INR. cbn [length]. lia. }
  replace (rtabulate (S K) (S K)
             (fun i j => INR (score_count K history i j) / INR (length history)))
    with (map (map (fun x => x / INR (length history)))
              (rtabulate (S K) (S K) (fun i j => INR (score_count K history i j)))).
  - rewrite (mass_map _ (/ INR (length history))) by (intros; reflexivity).
    rewrite score_count_mass. now apply Rinv_r.
  - unfold rtabulate. rewrite map_map. apply map_ext. intros i. now rewrite map_map.
Qed.

Lemma normalize_unit_mass (cells : list (list R)) :
  mass cells = 1 -> normalize_by_mass (fin_grid cells) = fin_grid cells.
Proof.
  intros Hm. destruct (normalize_fin_grid cells) as [Hn _]; [lra|].
  rewrite Hn, Hm. f_equal.
  rewrite <- (map_id cells) at 2. apply map_ext. intros row.
  rewrite <- (map_id row) at 2. apply map_ext. intros x. lra.
Qed.

(** C4 as stated fails: with weight 0 a base grid of mass 1/2 does not come
    back unchanged, it comes back divided by its mass. *)
Lemma blend_weight_0_counterexample :
  adjust_probabilities_with_history (fin_grid [[0.5]]) [(1%nat, 0%nat)] 0 0 =
    Ok (fin_grid [[1]]) /\
  fin_grid [[1]] <> fin_grid [[0.5]].
Proof.
  split.
  - rewrite (blend_finite 0 [[0.5]]) by (try reflexivity; repeat constructor).
    unfold normalize_by_mass. rewrite np_sum_fin_grid.
    unfold mass, rtabulate, fin_grid, grid_div, grid_map, cell, score_count.
    cbn [seq map concat app Rsum fold_right nth filter fst snd Nat.min Nat.eqb
         andb length np_div INR].
    decide_reals; [exfalso; lra|]. do 4 f_equal. field; lra.
  - unfold fin_grid. cbn [map]. intros H. injection H as H. lra.
Qed.

(** C4, amended.  On a (K+1) x (K+1) base grid of finite cells, whatever its
    mass and whatever the history: with weight 0 the blender returns the
    base grid divided by its own total mass, which is the base grid itself
    when that mass is 1; with weight 1 and a non-empty history it returns
    exactly the empirical frequency grid normalised to sum 1. *)
Theorem blend_extreme_weights (K : nat) (cells : list (list R))
        (history : list (nat * nat)) :
  length cells = S K -> Forall (fun row => length row = S K) cells ->
  adjust_probabilities_with_history (fin_grid cells) history 0 (Z.of_nat K) =
    Ok (normalize_by_mass (fin_grid cells)) /\
  (mass cells <> 0 ->
   adjust_probabilities_with_history (fin_grid cells) history 0 (Z.of_nat K) =
     Ok (fin_grid (map (map (fun x => x / mass cells)) cells))) /\
  (mass cells = 1 ->
   adjust_probabilities_with_history (fin_grid cells) history 0 (Z.of_nat K) =
     Ok (fin_grid cells)) /\
  (history <> [] ->
   adjust_probabilities_with_history (fin_grid cells) history 1 (Z.of_nat K) =
     Ok (fin_grid (empirical_frequency K history)) /\
   mass (empirical_frequency K history) = 1).
Proof.
  intros Hr Hc.
  assert (H0 : adjust_probabilities_with_history (fin_grid cells) history 0
                 (Z.of_nat K) = Ok (normalize_by_mass (fin_grid cells))).
  { rewrite blend_finite by assumption. do 3 apply f_equal.
    transitivity (rtabulate (S K) (S K) (cell cells)).
    - apply rtabulate_ext. intros i j. unfold Rdiv. ring.
    - symmetry. now apply cells_as_rtabulate. }
  split; [exact H0|]. split; [|split].
  - intros Hm. rewrite H0. f_equal. now apply normalize_fin_grid.
  - intros Hm. rewrite H0. f_equal. now apply normalize_unit_mass.
  - intros Hne. split; [|now apply empirical_frequency_mass].
    rewrite blend_finite by assumption. f_equal.
    rewrite <- (normalize_unit_mass (empirical_frequency K history))
      by now apply empirical_frequency_mass.
    do 2 apply f_equal. apply rtabulate_ext. intros i j. unfold Rdiv. ring.
Qed.

Lemma blend_extreme_weights_witness :
  adjust_probabilities_with_history (fin_grid [[0.5]]) [(1%nat, 0%nat)] 0
    (Z.of_nat 0) = Ok (normalize_by_mass (fin_grid [[0.5]])) /\
  (mass [[0.5]] <> 0 ->
   adjust_probabilities_with_history (fin_grid [[0.5]]) [(1%nat, 0%nat)] 0
     (Z.of_nat 0) =
     Ok (fin_grid (map (map (fun x => x / mass [[0.5]])) [[0.5]]))) /\
  (mass [[0.5]] = 1 ->
   adjust_probabilities_with_history (fin_grid [[0.5]]) [(1%nat, 0%nat)] 0
     (Z.of_nat 0) = Ok (fin_grid [[0.5]])) /\
  ([(1%nat, 0%nat)] <> [] ->
   adjust_probabilities_with_history (fin_grid [[0.5]]) [(1%nat, 0%nat)] 1
     (Z.of_nat 0) = Ok (fin_grid (empirical_frequency 0 [(1%nat, 0%nat)])) /\
   mass (empirical_frequency 0 [(1%nat, 0%nat)]) = 1).
Proof.
  apply (blend_extreme_weights 0 [[0.5]] [(1%nat, 0%nat)]).
  - reflexivity.
  - repeat constructor.
Defined.



Lemma mass_scaled (r c : nat) (k : R) (f : nat -> nat -> R) :
  mass (rtabulate r c (fun i j => k * f i j)) = k * mass (rtabulate r c f).
Proof.
  rewrite !mass_rtabulate, <- Rsum_map_scal_l.
  apply Rsum_map_ext_in. intros i _. apply Rsum_map_scal_l.
Qed.






(** * Further properties of the analyzer *)

(** ** Kelly stake: scaling, bounds, monotonicity *)

Lemma edge_at_most_probability (p o : R) :
  p <= 1 -> 1 < o -> (p * o - 1) / (o - 1) <= p.
Proof.
  intros Hp Ho. unfold Rdiv.
  assert (Hinv : 0 < / (o - 1)) by (apply Rinv_0_lt_compat; lra).
  replace p with (p * (o - 1) * / (o - 1)) at 2 by (field; lra).
  apply Rmult_le_compat_r; [lra|]. nra.
Qed.

(** X1.  For a probability in [0,1], an odd of at least 2 and a fraction in
    (0,1], the stake never exceeds fraction * probability, hence never the
    bankroll. *)
Theorem kelly_bounded_for_odds_from_2 (p o f : R) :
  0 <= p <= 1 -> 2 <= o -> 0 < f <= 1 ->
  exists k : R,
    calculate_kelly_criterion p o f = Ok k /\ k <= f * p /\ k <= 1.
Proof.
  intros Hp Ho Hf. rewrite kelly_defined by lra.
  pose proof (edge_at_most_probability p o (proj2 Hp)) as He.
  destruct (Rle_dec ((p * o - 1) / (o - 1)) 0) as [Hle|Hgt].
  - exists 0. split; [reflexivity|]. split; nra.
  - eexists. split; [reflexivity|].
    set (e := (p * o - 1) / (o - 1)) in *.
    assert (He' : e <= p) by (apply He; lra).
    assert (Hpos : 0 < e) by lra.
    assert (Hinv : 0 < / (o - 1) <= 1).
    { split; [apply Rinv_0_lt_compat; lra|].
      rewrite <- Rinv_1. apply Rinv_le_contravar; lra. }
    assert (Hq : e / (o - 1) <= e).
    { unfold Rdiv. nra. }
    split; nra.
Qed.

Lemma kelly_bounded_for_odds_from_2_witness :
  exists k : R,
    calculate_kelly_criterion 0.6 2 0.5 = Ok k /\ k <= 0.5 * 0.6 /\ k <= 1.
Proof.
  apply (kelly_bounded_for_odds_from_2 0.6 2 0.5); lra.
Defined.

(** X2.  The edge is divided by (odd - 1) a second time, so below odd 2 the
    stake is not bounded by the bankroll: for a certain event (p = 1) the
    result is fraction / (odd - 1), which exceeds 1 as soon as
    odd - 1 < fraction. *)
Theorem kelly_certain_event (o f : R) :
  1 < o ->
  calculate_kelly_criterion 1 o f = Ok (f / (o - 1)) /\
  (o - 1 < f -> 1 < f / (o - 1)).
Proof.
  intros Ho. split.
  - rewrite kelly_defined by lra.
    assert (He : (1 * o - 1) / (o - 1) = 1) by (field; lra).
    rewrite He. destruct (Rle_dec 1 0); [exfalso; lra|]. f_equal. field. lra.
  - intros Hf. unfold Rdiv.
    assert (Hinv : 0 < / (o - 1)) by (apply Rinv_0_lt_compat; lra).
    assert (Hone : (o - 1) * / (o - 1) = 1) by (field; lra).
    rewrite <- Hone at 1.
    apply Rmult_lt_compat_r; assumption.
Qed.

Lemma kelly_certain_event_witness :
  calculate_kelly_criterion 1 1.1 1 = Ok (1 / (1.1 - 1)) /\
  (1.1 - 1 < 1 -> 1 < 1 / (1.1 - 1)).
Proof.
  apply (kelly_certain_event 1.1 1). lra.
Defined.

(** X3.  For an odd above 1 and a positive fraction the stake does not
    decrease when the probability grows. *)
Theorem kelly_monotone_in_probability (p1 p2 o f : R) :
  1 < o -> 0 < f -> p1 <= p2 ->
  exists k1 k2 : R,
    calculate_kelly_criterion p1 o f = Ok k1 /\
    calculate_kelly_criterion p2 o f = Ok k2 /\
    k1 <= k2.
Proof.
  intros Ho Hf Hp. rewrite !kelly_defined by lra.
  assert (Hinv : 0 < / (o - 1)) by (apply Rinv_0_lt_compat; lra).
  assert (He : (p1 * o - 1) / (o - 1) <= (p2 * o - 1) / (o - 1)).
  { unfold Rdiv. apply Rmult_le_compat_r; [lra | nra]. }
  set (e1 := (p1 * o - 1) / (o - 1)) in *.
  set (e2 := (p2 * o - 1) / (o - 1)) in *.
  assert (Hscale : forall e, 0 < e -> 0 < e / (o - 1) * f).
  { intros e He0. apply Rmult_lt_0_compat; [|assumption].
    unfold Rdiv. now apply Rmult_lt_0_compat. }
  destruct (Rle_dec e1 0) as [H1|H1], (Rle_dec e2 0) as [H2|H2];
    do 2 eexists; (split; [reflexivity|]); (split; [reflexivity|]).
  - lra.
  - left. apply Hscale. lra.
  - exfalso. lra.
  - apply Rmult_le_compat_r; [lra|]. unfold Rdiv.
    apply Rmult_le_compat_r; lra.
Qed.

Lemma kelly_monotone_in_probability_witness :
  exists k1 k2 : R,
    calculate_kelly_criterion 0.3 2 0.5 = Ok k1 /\
    calculate_kelly_criterion 0.6 2 0.5 = Ok k2 /\
    k1 <= k2.
Proof.
  apply (kelly_monotone_in_probability 0.3 0.6 2 0.5); lra.
Defined.

(** ** ScoreMatrix Builder: dimensions and failures *)

Lemma tabulate_rectangular (r c : nat) (f : nat -> nat -> npfloat) :
  rectangular r c (tabulate r c f).
Proof.
  unfold rectangular, tabulate. split.
  - now rewrite length_map, length_seq.
  - apply tabulate_rows_length.
Qed.

Lemma grid_map_rectangular (r c : nat) (h : npfloat -> npfloat) (g : grid) :
  rectangular r c g -> rectangular r c (grid_map h g).
Proof.
  intros [Hr Hc]. unfold rectangular, grid_map. split.
  - now rewrite length_map.
  - apply Forall_map. eapply Forall_impl; [|exact Hc].
    intros row Hrow. now rewrite length_map.
Qed.

(** X4.  The two builders raise exactly when max_goals <= -2, and then it is
    the ValueError of [np.zeros]; for every other max_goals they return a
    (max_goals+1) x (max_goals+1) grid, whatever the rates and rho (for
    max_goals = -1 the empty grid). *)
Theorem builders_fail_only_on_negative_dimension (lh la rho : R) (K : Z) :
  ((K <= -2)%Z ->
   calculate_poisson_probabilities lh la K = Err ValueError /\
   calculate_dixon_coles_matrix lh la K rho = Err ValueError) /\
  ((-1 <= K)%Z ->
   exists g1 g2 : grid,
     calculate_poisson_probabilities lh la K = Ok g1 /\
     calculate_dixon_coles_matrix lh la K rho = Ok g2 /\
     rectangular (Z.to_nat (K + 1)) (Z.to_nat (K + 1)) g1 /\
     rectangular (Z.to_nat (K + 1)) (Z.to_nat (K + 1)) g2).
Proof.
  rewrite poisson_matrix_tabulate, dixon_coles_matrix_tabulate. split; intros HK.
  - destruct (Z.ltb_spec (K + 1) 0); [split; reflexivity | lia].
  - destruct (Z.ltb_spec (K + 1) 0); [lia|].
    do 2 eexists. split; [reflexivity|]. split; [reflexivity|]. split.
    + apply tabulate_rectangular.
    + unfold normalize_by_mass, grid_div.
      apply grid_map_rectangular, tabulate_rectangular.
Qed.

Lemma builders_fail_only_on_negative_dimension_witness :
  (calculate_poisson_probabilities 1.5 1 (-2) = Err ValueError /\
   calculate_dixon_coles_matrix 1.5 1 (-2) default_rho = Err ValueError) /\
  (exists g1 g2 : grid,
     calculate_poisson_probabilities (-1) 1 5 = Ok g1 /\
     calculate_dixon_coles_matrix (-1) 1 5 default_rho = Ok g2 /\
     rectangular (Z.to_nat (5 + 1)) (Z.to_nat (5 + 1)) g1 /\
     rectangular (Z.to_nat (5 + 1)) (Z.to_nat (5 + 1)) g2).
Proof.
  split.
  - apply (proj1 (builders_fail_only_on_negative_dimension 1.5 1 default_rho (-2))).
    lia.
  - apply (proj2 (builders_fail_only_on_negative_dimension (-1) 1 default_rho 5)).
    lia.
Defined.

(** ** Poisson mode: symmetry *)

Lemma np_mul_comm (x y : npfloat) : np_mul x y = np_mul y x.
Proof.
  destruct x, y; cbn [np_mul]; try reflexivity. f_equal. apply Rmult_comm.
Qed.

(** X5.  Swapping the two rates transposes the Poisson grid: the cell (i,j)
    of the grid for (lambda_h, lambda_a) is the cell (j,i) of the grid for
    (lambda_a, lambda_h). *)
Theorem poisson_grid_swap_transposes (lh la : R) (K : Z) :
  (-1 <= K)%Z ->
  exists g g' : grid,
    calculate_poisson_probabilities lh la K = Ok g /\
    calculate_poisson_probabilities la lh K = Ok g' /\
    forall i j : nat,
      (Z.of_nat i <= K)%Z -> (Z.of_nat j <= K)%Z ->
      grid_get g (Z.of_nat i) (Z.of_nat j) = grid_get g' (Z.of_nat j) (Z.of_nat i).
Proof.
  intros HK. rewrite !poisson_matrix_tabulate.
  destruct (Z.ltb_spec (K + 1) 0); [lia|].
  do 2 eexists. split; [reflexivity|]. split; [reflexivity|].
  intros i j Hi Hj. rewrite !grid_get_tabulate by lia.
  f_equal. apply np_mul_comm.
Qed.

Lemma poisson_grid_swap_transposes_witness :
  exists g g' : grid,
    calculate_poisson_probabilities 1.5 1 5 = Ok g /\
    calculate_poisson_probabilities 1 1.5 5 = Ok g' /\
    forall i j : nat,
      (Z.of_nat i <= 5)%Z -> (Z.of_nat j <= 5)%Z ->
      grid_get g (Z.of_nat i) (Z.of_nat j) = grid_get g' (Z.of_nat j) (Z.of_nat i).
Proof.
  apply (poisson_grid_swap_transposes 1.5 1 5). lia.
Defined.

(** ** Dixon-Coles mode: the cells and their signs *)

Lemma grid_get_fin_rtabulate (r c : nat) (f : nat -> nat -> R) (i j : nat) :
  (i < r)%nat -> (j < c)%nat ->
  grid_get (fin_grid (rtabulate r c f)) (Z.of_nat i) (Z.of_nat j) = Ok (Fin (f i j)).
Proof.
  intros Hi Hj. rewrite fin_grid_rtabulate. now apply grid_get_tabulate.
Qed.

(** X7.  For moderate rates (binary64 numbers up to 300), rho in [-1, 1] and
    K >= 1 the Dixon-Coles grid differs from the Poisson grid only by the
    tau factor of the four low-score cells and by the division by the mass
    of the Poisson grid, which is positive: every cell with i >= 2 or j >= 2
    is the Poisson cell divided by that mass. *)
Theorem dixon_coles_agrees_with_poisson_from_2 (lh la rho : R) (K : Z) :
  moderate_rate lh -> moderate_rate la -> -1 <= rho <= 1 -> (1 <= K)%Z ->
  exists (gp gd : grid) (M : R),
    calculate_poisson_probabilities lh la K = Ok gp /\
    calculate_dixon_coles_matrix lh la K rho = Ok gd /\
    np_sum gp = Fin M /\ 0 < M /\
    forall i j : nat,
      (Z.of_nat i <= K)%Z -> (Z.of_nat j <= K)%Z ->
      (2 <= i)%nat \/ (2 <= j)%nat ->
      exists x : R,
        grid_get gp (Z.of_nat i) (Z.of_nat j) = Ok (Fin x) /\
        grid_get gd (Z.of_nat i) (Z.of_nat j) = Ok (Fin (x / M)).
Proof.
  intros Mh Ma _ HK.
  pose proof (moderate_rate_range lh Mh) as Rh.
  pose proof (moderate_rate_range la Ma) as Ra.
  assert (Hm : exists m, Z.to_nat K = S m) by (exists (Z.to_nat K - 1)%nat; lia).
  destruct Hm as [m Hm].
  pose proof (poisson_mass_pos lh la (S m) Rh Ra) as Hpos.
  rewrite poisson_matrix_finite by (try lra; lia).
  rewrite dixon_coles_matrix_finite
    by (try lra; try lia; rewrite Hm, dixon_coles_raw_mass_eq by assumption; lra).
  rewrite Hm, dixon_coles_raw_mass_eq by assumption.
  do 3 eexists. split; [reflexivity|]. split; [reflexivity|].
  split; [apply np_sum_fin_grid|]. split; [exact Hpos|].
  intros i j Hi Hj Hfar. eexists.
  rewrite !grid_get_fin_rtabulate by lia.
  split; [reflexivity|]. rewrite tau_far by assumption.
  do 2 apply f_equal. unfold Rdiv. ring.
Qed.

Lemma dixon_coles_agrees_with_poisson_from_2_witness :
  exists (gp gd : grid) (M : R),
    calculate_poisson_probabilities 1.5 1 5 = Ok gp /\
    calculate_dixon_coles_matrix 1.5 1 5 default_rho = Ok gd /\
    np_sum gp = Fin M /\ 0 < M /\
    forall i j : nat,
      (Z.of_nat i <= 5)%Z -> (Z.of_nat j <= 5)%Z ->
      (2 <= i)%nat \/ (2 <= j)%nat ->
      exists x : R,
        grid_get gp (Z.of_nat i) (Z.of_nat j) = Ok (Fin x) /\
        grid_get gd (Z.of_nat i) (Z.of_nat j) = Ok (Fin (x / M)).
Proof.
  apply (dixon_coles_agrees_with_poisson_from_2 1.5 1 default_rho 5);
    [apply moderate_rate_from; lra | apply moderate_rate_from; lra
    | unfold default_rho; lra | lia].
Defined.

Lemma tau_nonneg (x y : nat) (lx ly rho : R) :
  0 <= lx -> 0 <= ly -> rho <= 0 -> 0 <= 1 + lx * rho -> 0 <= 1 + ly * rho ->
  0 <= tau x y lx ly rho.
Proof.
  intros Hx Hy Hrho H1 H2. unfold tau.
  assert (Hxy : 0 <= lx * ly) by now apply Rmult_le_pos.
  assert (Hprod : 0 <= (lx * ly) * - rho) by (apply Rmult_le_pos; lra).
  repeat match goal with |- context [if ?b then _ else _] => destruct b end;
    lra.
Qed.

(** X8.  For moderate rates (binary64 numbers up to 300), rho in [-1, 0] and
    rates small enough that 1 + lambda_h*rho >= 0 and 1 + lambda_a*rho >= 0
    (rates up to 10 at the default rho), every cell of the Dixon-Coles grid
    is a finite number >= 0. *)
Theorem dixon_coles_cells_nonneg (lh la rho : R) (K : Z) :
  moderate_rate lh -> moderate_rate la -> (0 <= K)%Z ->
  -1 <= rho <= 0 -> 0 <= 1 + lh * rho -> 0 <= 1 + la * rho ->
  exists g : grid,
    calculate_dixon_coles_matrix lh la K rho = Ok g /\
    Forall (Forall finite_nonneg) g.
Proof.
  intros Mh Ma HK Hrho H1 H2.
  pose proof (moderate_rate_range lh Mh) as Rh.
  pose proof (moderate_rate_range la Ma) as Ra.
  assert (Hside : (1 <= Z.to_nat K)%nat \/ lh * la * rho < 1)
    by (right; apply nonpositive_rho_side_condition; lra).
  pose proof (dixon_coles_raw_mass_pos lh la rho (Z.to_nat K) Mh Ma Hside) as HM.
  rewrite dixon_coles_matrix_finite by (try assumption; lra).
  eexists. split; [reflexivity|].
  unfold fin_grid, rtabulate. rewrite !map_map.
  apply Forall_map, Forall_forall. intros i _.
  rewrite map_map. apply Forall_map, Forall_forall. intros j _.
  eexists. split; [reflexivity|].
  unfold Rdiv. apply Rmult_le_pos; [|left; now apply Rinv_0_lt_compat].
  apply Rmult_le_pos; [apply Rmult_le_pos; apply poisson_fl_bounds; lra|].
  apply tau_nonneg; lra.
Qed.

Lemma dixon_coles_cells_nonneg_witness :
  exists g : grid,
    calculate_dixon_coles_matrix 1.5 1 5 default_rho = Ok g /\
    Forall (Forall finite_nonneg) g.
Proof.
  apply (dixon_coles_cells_nonneg 1.5 1 default_rho 5);
    [apply moderate_rate_from; lra | apply moderate_rate_from; lra | lia
    | unfold default_rho; lra | unfold default_rho; lra
    | unfold default_rho; lra].
Defined.

(** X9.  Nothing keeps the cells of the Dixon-Coles grid non-negative: for
    K >= 1, rates up to 300 with lambda_a >= 1e-6, rho in [-1, 0] and
    1 + lambda_h*rho <= -1e-6 (a home rate above 10 at the default rho) the
    cell (0,1) is a negative number. *)
Theorem dixon_coles_negative_cell (lh la rho : R) (K : Z) :
  0 <= lh <= 300 -> 1e-6 <= la <= 300 -> (1 <= K)%Z ->
  -1 <= rho <= 0 -> 1 + lh * rho <= - 1e-6 ->
  exists (g : grid) (x : R),
    calculate_dixon_coles_matrix lh la K rho = Ok g /\
    grid_get g 0 1 = Ok (Fin x) /\ x < 0.
Proof.
  intros Rh Ra HK Hrho Hneg.
  assert (Hlh : 1 <= lh).
  { assert (0 <= lh * (1 + rho)) by (apply Rmult_le_pos; lra). lra. }
  assert (Mh : moderate_rate lh) by (apply moderate_rate_from; lra).
  assert (Ma : moderate_rate la) by (now apply moderate_rate_from).
  assert (Hm : exists m, Z.to_nat K = S m) by (exists (Z.to_nat K - 1)%nat; lia).
  destruct Hm as [m Hm].
  assert (Hside : (1 <= Z.to_nat K)%nat \/ lh * la * rho < 1) by (left; lia).
  pose proof (dixon_coles_raw_mass_pos lh la rho (Z.to_nat K) Mh Ma Hside) as HM.
  rewrite dixon_coles_matrix_finite by (lra || lia).
  do 2 eexists. split; [reflexivity|].
  change (grid_get ?g 0 1) with (grid_get g (Z.of_nat 0) (Z.of_nat 1)).
  rewrite grid_get_fin_rtabulate by lia. split; [reflexivity|].
  cbv beta. unfold tau at 1. cbn [Nat.eqb andb].
  rewrite poisson_fl_0, poisson_fl_1 by (assumption || lra).
  pose proof (exp_pos (- lh)) as Eh. pose proof (exp_pos (- la)) as Ea.
  apply Rinv_0_lt_compat in HM. unfold Rdiv.
  assert (Hnum : exp (- lh) * (exp (- la) * la) * (1 + lh * rho) < 0).
  { assert (0 < exp (- lh) * (exp (- la) * la)).
    { apply Rmult_lt_0_compat; [assumption|]. apply Rmult_lt_0_compat; lra. }
    nra. }
  match goal with
  | |- ?a * / ?b < 0 =>
      assert (Hq : 0 < (- a) * / b) by (apply Rmult_lt_0_compat; lra); lra
  end.
Qed.

Lemma dixon_coles_negative_cell_witness :
  exists (g : grid) (x : R),
    calculate_dixon_coles_matrix 20 1 5 default_rho = Ok g /\
    grid_get g 0 1 = Ok (Fin x) /\ x < 0.
Proof.
  apply (dixon_coles_negative_cell 20 1 default_rho 5);
    unfold default_rho; try lra; lia.
Defined.

(** X10.  The final normalisation is not guarded: for K = 0 and valid rates
    with lambda_h*lambda_a*rho = 1 the single cell is 0 before the division,
    and the builder returns the grid [[NaN]] without raising. *)
Theorem dixon_coles_zero_mass (lh la rho : R) :
  0 <= lh -> 0 <= la -> lh * la * rho = 1 ->
  calculate_dixon_coles_matrix lh la 0 rho = Ok [[NaN]].
Proof.
  intros Hh Ha Hrho.
  rewrite dixon_coles_matrix_tabulate, succ_not_negative, to_nat_succ by lia.
  rewrite dixon_coles_cells_finite by assumption.
  unfold normalize_by_mass. rewrite np_sum_fin_grid.
  change (S (Z.to_nat 0)) with 1%nat. rewrite dixon_coles_raw_mass_1x1.
  unfold rtabulate, tau, fin_grid, grid_div, grid_map.
  cbn [seq map Nat.eqb andb].
  rewrite Hrho. replace (1 - 1) with 0 by lra. rewrite !Rmult_0_r.
  cbn [np_div]. unfold inf_of_sign.
  decide_reals; try reflexivity; exfalso; lra.
Qed.

Lemma dixon_coles_zero_mass_witness :
  calculate_dixon_coles_matrix 2 0.5 0 1 = Ok [[NaN]].
Proof.
  apply (dixon_coles_zero_mass 2 0.5 1); lra.
Defined.

(** ** Market Aggregator: the whole dictionary *)

Lemma half_integer_lt (k n : nat) : INR k + 0.5 < INR n <-> (k < n)%nat.
Proof.
  split; intros H.
  - apply INR_lt. lra.
  - assert (Hle : INR (S k) <= INR n) by (apply le_INR; lia).
    rewrite S_INR in Hle. lra.
Qed.

(** The goal-line accumulators after the pass over finite cells. *)
Lemma prob_over_fold (ths : list threshold) :
  forall (L : list (nat * nat * R)) (acc : market_acc) (v : threshold -> R),
    prob_over acc = map (fun t => (t, Fin (v t))) ths ->
    prob_over (fold_left (visit market_step)
                         (map (fun c : nat * nat * R => (fst c, Fin (snd c))) L) acc)
    = map (fun t =>
             (t, Fin (v t
                      + Rsum (map (fun c : nat * nat * R =>
                                     if Rlt_dec (th_value t)
                                                (INR (fst (fst c) + snd (fst c)))
                                     then snd c else 0) L))))
          ths.
Proof.
  induction L as [|[[i j] x] L IH]; intros acc v Hacc.
  - cbn [map fold_left Rsum fold_right]. rewrite Hacc. apply map_ext.
    intros t. do 2 f_equal. lra.
  - cbn [map fold_left fst snd]. unfold visit at 2. cbn [fst snd].
    rewrite (IH _ (fun t => v t + (if Rlt_dec (th_value t) (INR (i + j))
                                   then x else 0))).
    + apply map_ext. intros t. rewrite Rsum_cons. do 2 f_equal. lra.
    + cbn [market_step prob_over]. rewrite Hacc, map_map. apply map_ext.
      intros t. destruct (Rlt_dec (th_value t) (INR (i + j)));
        cbn [np_add]; do 2 f_equal; lra.
Qed.

Lemma over_sum_as_bucket (k : nat) (t : R) (cells : list (list R)) :
  t = INR k + 0.5 ->
  Rsum (map (fun c : nat * nat * R =>
               if Rlt_dec t (INR (fst (fst c) + snd (fst c))) then snd c else 0)
            (indexed_cells cells))
  = bucket_sum (fun i j => (k <? i + j)%nat) cells.
Proof.
  intros ->. unfold bucket_sum. apply Rsum_map_ext_in. intros [[i j] x] _.
  cbn [fst snd].
  destruct (Rlt_dec (INR k + 0.5) (INR (i + j))) as [H|H],
           (Nat.ltb_spec k (i + j)) as [H'|H']; try reflexivity; exfalso.
  - apply half_integer_lt in H. lia.
  - apply H. now apply half_integer_lt.
Qed.

Lemma ambas_step (i j : nat) (x : npfloat) (a : market_acc) :
  prob_ambas_marcam (market_step i j x a) =
    if ((0 <? i) && (0 <? j))%nat then np_add (prob_ambas_marcam a) x
    else prob_ambas_marcam a.
Proof. reflexivity. Qed.

(** The dictionary built from the accumulators, once the order of the
    goal-line accumulators is known. *)
Lemma market_dict_of_acc (g : grid) (a : market_acc) (o0 o1 o2 o3 o4 : npfloat) :
  for_each (py_range (Z.of_nat (nrows g) - 1 + 1)) market_acc_init (fun i a =>
    for_each (py_range (Z.of_nat (nrows g) - 1 + 1)) a (fun j a =>
      prob <- grid_get g (Z.of_nat i) (Z.of_nat j) ;;
      Ok (market_step i j prob a))) = Ok a ->
  map snd (prob_over a) = [o0; o1; o2; o3; o4] ->
  map fst (prob_over a) = over_under_thresholds ->
  calculate_market_probabilities g =
    Ok [ ("1", prob_vitoria_casa a); ("X", prob_empate a);
         ("2", prob_vitoria_fora a);
         ("Over 0.5", o0); ("Under 0.5", np_sub (Fin 1) o0);
         ("Over 1.5", o1); ("Under 1.5", np_sub (Fin 1) o1);
         ("Over 2.5", o2); ("Under 2.5", np_sub (Fin 1) o2);
         ("Over 3.5", o3); ("Under 3.5", np_sub (Fin 1) o3);
         ("Over 4.5", o4); ("Under 4.5", np_sub (Fin 1) o4);
         ("Ambas Marcam Sim", prob_ambas_marcam a);
         ("Ambas Marcam Não", np_sub (Fin 1) (prob_ambas_marcam a)) ]%string.
Proof.
  intros Hloop Hsnd Hfst. unfold calculate_market_probabilities. cbv zeta.
  rewrite Hloop. cbn [bind].
  destruct (prob_over a) as [|[t0 p0] [|[t1 p1] [|[t2 p2] [|[t3 p3] [|[t4 p4] [|? ?]]]]]];
    try discriminate.
  cbn [map fst snd] in Hsnd, Hfst. unfold over_under_thresholds in Hfst.
  injection Hsnd as -> -> -> -> ->. injection Hfst as -> -> -> -> ->.
  reflexivity.
Qed.

(** The dictionary returned for a square grid of finite cells. *)
Lemma market_dict_finite (n : nat) (cells : list (list R)) :
  length cells = n -> Forall (fun row => length row = n) cells ->
  let over k := bucket_sum (fun i j => (k <? i + j)%nat) cells in
  let both := bucket_sum (fun i j => ((0 <? i) && (0 <? j))%nat) cells in
  calculate_market_probabilities (fin_grid cells) =
    Ok [ ("1", Fin (bucket_sum (fun i j => (j <? i)%nat) cells));
         ("X", Fin (bucket_sum (fun i j => (i =? j)%nat) cells));
         ("2", Fin (bucket_sum (fun i j => (i <? j)%nat) cells));
         ("Over 0.5", Fin (over 0%nat)); ("Under 0.5", Fin (1 - over 0%nat));
         ("Over 1.5", Fin (over 1%nat)); ("Under 1.5", Fin (1 - over 1%nat));
         ("Over 2.5", Fin (over 2%nat)); ("Under 2.5", Fin (1 - over 2%nat));
         ("Over 3.5", Fin (over 3%nat)); ("Under 3.5", Fin (1 - over 3%nat));
         ("Over 4.5", Fin (over 4%nat)); ("Under 4.5", Fin (1 - over 4%nat));
         ("Ambas Marcam Sim", Fin both);
         ("Ambas Marcam Não", Fin (1 - both)) ]%string.
Proof.
  intros Hn Hc. cbv zeta.
  pose proof (fin_grid_rectangular n n cells Hn Hc) as Hrect.
  set (a := fold_left (visit market_step) (indexed_cells (fin_grid cells))
                      market_acc_init).
  assert (Hloop :
            for_each (py_range (Z.of_nat (nrows (fin_grid cells)) - 1 + 1))
                     market_acc_init (fun i a =>
              for_each (py_range (Z.of_nat (nrows (fin_grid cells)) - 1 + 1)) a
                       (fun j a =>
                 prob <- grid_get (fin_grid cells) (Z.of_nat i) (Z.of_nat j) ;;
                 Ok (market_step i j prob a))) = Ok a).
  { destruct Hrect as [Hr Hcols]. unfold nrows. rewrite Hr, py_range_rows.
    apply (read_all_cells market_step n n (fin_grid cells) market_acc_init).
    now split. }
  assert (Hover : prob_over a =
            map (fun t => (t, Fin (0 + Rsum (map (fun c : nat * nat * R =>
                                     if Rlt_dec (th_value t)
                                                (INR (fst (fst c) + snd (fst c)))
                                     then snd c else 0) (indexed_cells cells)))))
                over_under_thresholds).
  { unfold a. rewrite indexed_cells_fin_grid.
    apply (prob_over_fold over_under_thresholds _ market_acc_init (fun _ => 0)).
    reflexivity. }
  rewrite (market_dict_of_acc (fin_grid cells) a
             (Fin (bucket_sum (fun i j => (0 <? i + j)%nat) cells))
             (Fin (bucket_sum (fun i j => (1 <? i + j)%nat) cells))
             (Fin (bucket_sum (fun i j => (2 <? i + j)%nat) cells))
             (Fin (bucket_sum (fun i j => (3 <? i + j)%nat) cells))
             (Fin (bucket_sum (fun i j => (4 <? i + j)%nat) cells)) Hloop).
  - unfold a. rewrite indexed_cells_fin_grid.
    rewrite (bucket_fold prob_vitoria_casa (fun i j => (j <? i)%nat) casa_step
               _ market_acc_init 0 eq_refl).
    rewrite (bucket_fold prob_empate (fun i j => (i =? j)%nat) empate_step
               _ market_acc_init 0 eq_refl).
    rewrite (bucket_fold prob_vitoria_fora (fun i j => (i <? j)%nat) fora_step
               _ market_acc_init 0 eq_refl).
    rewrite (bucket_fold prob_ambas_marcam
               (fun i j => ((0 <? i) && (0 <? j))%nat) ambas_step
               _ market_acc_init 0 eq_refl).
    rewrite !Rplus_0_l. reflexivity.
  - rewrite Hover. unfold over_under_thresholds. cbn [map snd th_value].
    rewrite !Rplus_0_l.
    rewrite (over_sum_as_bucket 0 0.5), (over_sum_as_bucket 1 1.5),
      (over_sum_as_bucket 2 2.5), (over_sum_as_bucket 3 3.5),
      (over_sum_as_bucket 4 4.5) by (simpl; lra).
    reflexivity.
  - rewrite Hover, map_map. cbn [fst]. apply map_id.
Qed.

Lemma bucket_sum_split (P : nat -> nat -> bool) (cells : list (list R)) :
  bucket_sum P cells + bucket_sum (fun i j => negb (P i j)) cells = mass cells.
Proof.
  unfold bucket_sum, mass. rewrite <- Rsum_map_plus.
  rewrite <- (map_snd_indexed_cells_from cells 0).
  apply Rsum_map_ext_in. intros [[i j] x] _. cbn [fst snd].
  destruct (P i j); cbn [negb]; lra.
Qed.

Lemma indexed_cells_nonneg (cells : list (list R)) :
  Forall (Forall (fun x => 0 <= x)) cells ->
  forall c, In c (indexed_cells cells) -> 0 <= snd c.
Proof.
  intros Hpos c Hc.
  assert (Hin : In (snd c) (concat cells)).
  { rewrite <- (map_snd_indexed_cells_from cells 0). now apply in_map. }
  apply in_concat in Hin. destruct Hin as [row [Hrow Hx]].
  rewrite Forall_forall in Hpos. specialize (Hpos row Hrow).
  rewrite Forall_forall in Hpos. now apply Hpos.
Qed.

(** On non-negative cells a larger bucket has a larger sum. *)
Lemma bucket_sum_mono (P Q : nat -> nat -> bool) (cells : list (list R)) :
  Forall (Forall (fun x => 0 <= x)) cells ->
  (forall i j, P i j = true -> Q i j = true) ->
  bucket_sum P cells <= bucket_sum Q cells.
Proof.
  intros Hpos Himp. unfold bucket_sum. apply Rsum_map_le.
  intros [[i j] x] Hc. cbn [fst snd].
  pose proof (indexed_cells_nonneg cells Hpos _ Hc) as Hx. cbn [snd] in Hx.
  destruct (P i j) eqn:HP.
  - rewrite (Himp i j HP). lra.
  - destruct (Q i j); lra.
Qed.

(** X11.  On a square grid of finite cells, for each of the five goal lines
    k.5 (k = 0..4) the entry "Over k.5" is the sum of the cells with
    i + j > k and "Under k.5" is 1 minus that entry: the pair adds up to 1
    whatever the mass of the grid, so that "Under" is the sum of the cells
    with i + j <= k plus the mass the grid lacks from 1. *)
Theorem market_over_under (n : nat) (cells : list (list R)) (k : nat) :
  length cells = n -> Forall (fun row => length row = n) cells ->
  (k < 5)%nat ->
  let line := nth k ["0.5"; "1.5"; "2.5"; "3.5"; "4.5"]%string ""%string in
  let over := bucket_sum (fun i j => (k <? i + j)%nat) cells in
  exists d : dict npfloat,
    calculate_market_probabilities (fin_grid cells) = Ok d /\
    dict_get d ("Over " ++ line) = Some (Fin over) /\
    dict_get d ("Under " ++ line) = Some (Fin (1 - over)) /\
    1 - over =
      bucket_sum (fun i j => negb (k <? i + j)%nat) cells + (1 - mass cells).
Proof.
  intros Hn Hc Hk. cbv zeta.
  rewrite (market_dict_finite n cells Hn Hc). eexists. split; [reflexivity|].
  pose proof (bucket_sum_split (fun i j => (k <? i + j)%nat) cells) as Hsplit.
  destruct k as [|[|[|[|[|k]]]]]; [| | | | |lia];
    (split; [reflexivity|]); (split; [reflexivity|]); lra.
Qed.

Lemma market_over_under_witness :
  let cells := [[0.2; 0.1]; [0.3; 0.1]] in
  let line := nth 2 ["0.5"; "1.5"; "2.5"; "3.5"; "4.5"]%string ""%string in
  let over := bucket_sum (fun i j => (2 <? i + j)%nat) cells in
  exists d : dict npfloat,
    calculate_market_probabilities (fin_grid cells) = Ok d /\
    dict_get d ("Over " ++ line) = Some (Fin over) /\
    dict_get d ("Under " ++ line) = Some (Fin (1 - over)) /\
    1 - over =
      bucket_sum (fun i j => negb (2 <? i + j)%nat) cells + (1 - mass cells).
Proof.
  apply (market_over_under 2 [[0.2; 0.1]; [0.3; 0.1]] 2).
  - reflexivity.
  - repeat constructor.
  - lia.
Defined.

(** X12.  On a square grid of finite cells "Ambas Marcam Sim" is the sum of
    the cells with i > 0 and j > 0, and "Ambas Marcam Não" is 1 minus that
    entry (not the sum of the remaining cells, unless the mass is 1). *)
Theorem market_both_teams_score (n : nat) (cells : list (list R)) :
  length cells = n -> Forall (fun row => length row = n) cells ->
  let both := bucket_sum (fun i j => ((0 <? i) && (0 <? j))%nat) cells in
  exists d : dict npfloat,
    calculate_market_probabilities (fin_grid cells) = Ok d /\
    dict_get d "Ambas Marcam Sim" = Some (Fin both) /\
    dict_get d "Ambas Marcam Não" = Some (Fin (1 - both)) /\
    1 - both =
      bucket_sum (fun i j => negb ((0 <? i) && (0 <? j))%nat) cells
      + (1 - mass cells).
Proof.
  intros Hn Hc. cbv zeta.
  rewrite (market_dict_finite n cells Hn Hc). eexists. split; [reflexivity|].
  pose proof (bucket_sum_split (fun i j => ((0 <? i) && (0 <? j))%nat) cells).
  split; [reflexivity|]. split; [reflexivity|]. lra.
Qed.

Lemma market_both_teams_score_witness :
  let cells := [[0.2; 0.1]; [0.3; 0.1]] in
  let both := bucket_sum (fun i j => ((0 <? i) && (0 <? j))%nat) cells in
  exists d : dict npfloat,
    calculate_market_probabilities (fin_grid cells) = Ok d /\
    dict_get d "Ambas Marcam Sim" = Some (Fin both) /\
    dict_get d "Ambas Marcam Não" = Some (Fin (1 - both)) /\
    1 - both =
      bucket_sum (fun i j => negb ((0 <? i) && (0 <? j))%nat) cells
      + (1 - mass cells).
Proof.
  apply (market_both_teams_score 2 [[0.2; 0.1]; [0.3; 0.1]]).
  - reflexivity.
  - repeat constructor.
Defined.

(** X13.  On a square grid of finite cells the dictionary has exactly
    fifteen keys, in this insertion order: the three results, an Over and an
    Under entry per goal line in ascending order of the line, and the two
    both-teams-score entries. *)
Theorem market_keys (n : nat) (cells : list (list R)) :
  length cells = n -> Forall (fun row => length row = n) cells ->
  exists d : dict npfloat,
    calculate_market_probabilities (fin_grid cells) = Ok d /\
    map fst d =
      [ "1"; "X"; "2";
        "Over 0.5"; "Under 0.5"; "Over 1.5"; "Under 1.5"; "Over 2.5"; "Under 2.5";
        "Over 3.5"; "Under 3.5"; "Over 4.5"; "Under 4.5";
        "Ambas Marcam Sim"; "Ambas Marcam Não" ]%string.
Proof.
  intros Hn Hc. rewrite (market_dict_finite n cells Hn Hc).
  eexists. split; reflexivity.
Qed.

Lemma market_keys_witness :
  exists d : dict npfloat,
    calculate_market_probabilities (fin_grid [[0.2; 0.1]; [0.3; 0.1]]) = Ok d /\
    map fst d =
      [ "1"; "X"; "2";
        "Over 0.5"; "Under 0.5"; "Over 1.5"; "Under 1.5"; "Over 2.5"; "Under 2.5";
        "Over 3.5"; "Under 3.5"; "Over 4.5"; "Under 4.5";
        "Ambas Marcam Sim"; "Ambas Marcam Não" ]%string.
Proof.
  apply (market_keys 2 [[0.2; 0.1]; [0.3; 0.1]]).
  - reflexivity.
  - repeat constructor.
Defined.

(** X14.  On a square grid of finite non-negative cells the Over entries do
    not increase with the goal line and none exceeds the mass of the grid:
    Over 4.5 <= Over 3.5 <= Over 2.5 <= Over 1.5 <= Over 0.5 <= mass. *)
Theorem market_over_decreasing (n : nat) (cells : list (list R)) :
  length cells = n -> Forall (fun row => length row = n) cells ->
  Forall (Forall (fun x => 0 <= x)) cells ->
  exists (d : dict npfloat) (o0 o1 o2 o3 o4 : R),
    calculate_market_probabilities (fin_grid cells) = Ok d /\
    dict_get d "Over 0.5" = Some (Fin o0) /\
    dict_get d "Over 1.5" = Some (Fin o1) /\
    dict_get d "Over 2.5" = Some (Fin o2) /\
    dict_get d "Over 3.5" = Some (Fin o3) /\
    dict_get d "Over 4.5" = Some (Fin o4) /\
    0 <= o4 <= o3 /\ o3 <= o2 /\ o2 <= o1 /\ o1 <= o0 /\ o0 <= mass cells.
Proof.
  intros Hn Hc Hpos. rewrite (market_dict_finite n cells Hn Hc).
  do 6 eexists. split; [reflexivity|].
  do 5 (split; [reflexivity|]).
  assert (Hstep : forall k,
             bucket_sum (fun i j => (S k <? i + j)%nat) cells
             <= bucket_sum (fun i j => (k <? i + j)%nat) cells).
  { intros k. apply bucket_sum_mono; [assumption|]. intros i j H.
    apply Nat.ltb_lt in H. apply Nat.ltb_lt. lia. }
  assert (H0 : 0 <= bucket_sum (fun i j => (4 <? i + j)%nat) cells).
  { unfold bucket_sum. apply Rsum_nonneg, Forall_map, Forall_forall.
    intros c Hc'. pose proof (indexed_cells_nonneg cells Hpos c Hc').
    destruct (4 <? _)%nat; lra. }
  assert (Hm : bucket_sum (fun i j => (0 <? i + j)%nat) cells <= mass cells).
  { pose proof (bucket_sum_split (fun i j => (0 <? i + j)%nat) cells) as Hs.
    assert (0 <= bucket_sum (fun i j => negb (0 <? i + j)%nat) cells).
    { unfold bucket_sum. apply Rsum_nonneg, Forall_map, Forall_forall.
      intros c Hc'. pose proof (indexed_cells_nonneg cells Hpos c Hc').
      destruct (negb _); lra. }
    lra. }
  pose proof (Hstep 0%nat). pose proof (Hstep 1%nat).
  pose proof (Hstep 2%nat). pose proof (Hstep 3%nat).
  repeat split; assumption.
Qed.

Lemma market_over_decreasing_witness :
  exists (d : dict npfloat) (o0 o1 o2 o3 o4 : R),
    calculate_market_probabilities (fin_grid [[0.2; 0.1]; [0.3; 0.1]]) = Ok d /\
    dict_get d "Over 0.5" = Some (Fin o0) /\
    dict_get d "Over 1.5" = Some (Fin o1) /\
    dict_get d "Over 2.5" = Some (Fin o2) /\
    dict_get d "Over 3.5" = Some (Fin o3) /\
    dict_get d "Over 4.5" = Some (Fin o4) /\
    0 <= o4 <= o3 /\ o3 <= o2 /\ o2 <= o1 /\ o1 <= o0 /\
    o0 <= mass [[0.2; 0.1]; [0.3; 0.1]].
Proof.
  apply (market_over_decreasing 2 [[0.2; 0.1]; [0.3; 0.1]]).
  - reflexivity.
  - repeat constructor.
  - repeat constructor; lra.
Defined.

Lemma for_each_app {A S : Type} (l1 l2 : list A) (s : S)
      (body : A -> S -> result S) :
  for_each (l1 ++ l2) s body =
    (s' <- for_each l1 s body ;; for_each l2 s' body).
Proof.
  revert s. induction l1 as [|x l1 IH]; intros s; cbn [app for_each bind].
  - reflexivity.
  - destruct (body x s) as [s'|e]; cbn [bind]; [apply IH | reflexivity].
Qed.

Lemma np_index_past_end (n k : nat) :
  (n <= k)%nat -> np_index n (Z.of_nat k) = Err IndexError.
Proof.
  intros Hk. unfold np_index.
  destruct (Z.ltb_spec (Z.of_nat k) (Z.of_nat n)); [lia|].
  rewrite andb_false_r.
  destruct (Z.ltb_spec (Z.of_nat k) 0); [lia|].
  now rewrite andb_false_r.
Qed.

(** X15.  The aggregator runs both loops over the number of rows: on a
    grid with fewer columns than rows the read of cell (0, c), c the number
    of columns, raises IndexError, and no dictionary is returned. *)
Theorem market_fewer_columns_than_rows (r c : nat) (g : grid) :
  rectangular r c g -> (c < r)%nat ->
  calculate_market_probabilities g = Err IndexError.
Proof.
  intros [Hr Hc] Hlt. unfold calculate_market_probabilities. cbv zeta.
  unfold nrows. rewrite Hr, py_range_rows.
  destruct g as [|row0 G2]; [cbn [length] in Hr; lia|].
  inversion Hc as [|? ? Hrow0 HG2]; subst.
  destruct (length (row0 :: G2)) as [|r'] eqn:Hlen; [lia|].
  change (seq 0 (S r')) with (0%nat :: seq 1 r') at 1. cbn [for_each].
  replace (S r') with (length row0 + (S r' - length row0))%nat at 1 by lia.
  rewrite seq_app, for_each_app.
  pose proof (read_row_loop market_step (length row0) [] G2 (Forall_nil _)
                row0 [] market_acc_init eq_refl) as Hprefix.
  cbn [app length] in Hprefix. rewrite Hprefix. cbn [bind Nat.add].
  destruct (S r' - length row0)%nat as [|k] eqn:Hk; [lia|].
  cbn [seq for_each]. unfold grid_get at 1. unfold nrows, ncols.
  rewrite (np_index_nat (length (row0 :: G2)) 0) by (cbn [length]; lia).
  cbn [bind]. rewrite np_index_past_end by lia. reflexivity.
Qed.

Lemma market_fewer_columns_than_rows_witness :
  calculate_market_probabilities [[Fin 0.5]; [Fin 0.5]] = Err IndexError.
Proof.
  apply (market_fewer_columns_than_rows 2 1).
  - split; [reflexivity | repeat constructor].
  - lia.
Defined.

(** ** Builders followed by the aggregator *)

Lemma rtabulate_shape (r c : nat) (f : nat -> nat -> R) :
  length (rtabulate r c f) = r /\
  Forall (fun row => length row = c) (rtabulate r c f).
Proof.
  unfold rtabulate. split.
  - now rewrite length_map, length_seq.
  - apply Forall_map, Forall_forall. intros i _. now rewrite length_map, length_seq.
Qed.

Lemma fin_mass_of_sum (cells : list (list R)) (s : R) :
  np_sum (fin_grid cells) = Fin s -> mass cells = s.
Proof.
  rewrite np_sum_fin_grid. intros H. now injection H.
Qed.

(** X16.  For valid rates and K >= 0, the three result probabilities read
    from the Poisson grid add up to the mass of that grid, which is at most
    1 (up to rounding: stated with the tolerance 1e-9); for moderate rates
    (binary64 numbers up to 300) those read from the Dixon-Coles grid at the
    default rho add up to 1 within 1e-9. *)
Theorem result_markets_of_builders (lh la : R) (K : Z) :
  0 <= lh -> 0 <= la -> (0 <= K)%Z ->
  (exists (g : grid) (d : dict npfloat) (h x a s : R),
      calculate_poisson_probabilities lh la K = Ok g /\
      calculate_market_probabilities g = Ok d /\
      dict_get d "1" = Some (Fin h) /\
      dict_get d "X" = Some (Fin x) /\
      dict_get d "2" = Some (Fin a) /\
      np_sum g = Fin s /\ h + x + a = s /\ s <= 1 + 1e-9) /\
  (moderate_rate lh -> moderate_rate la ->
   exists (g : grid) (d : dict npfloat) (h x a : R),
      calculate_dixon_coles_matrix lh la K default_rho = Ok g /\
      calculate_market_probabilities g = Ok d /\
      dict_get d "1" = Some (Fin h) /\
      dict_get d "X" = Some (Fin x) /\
      dict_get d "2" = Some (Fin a) /\
      Rabs (h + x + a - 1) <= 1e-9).
Proof.
  intros Hh Ha HK. split.
  - rewrite poisson_matrix_finite by assumption.
    set (cells := rtabulate _ _ _).
    destruct (rtabulate_shape (S (Z.to_nat K)) (S (Z.to_nat K))
                (fun i j => poisson_fl i lh * poisson_fl j la)) as [Hr Hc].
    fold cells in Hr, Hc.
    do 6 eexists. split; [reflexivity|].
    rewrite (market_dict_finite _ cells Hr Hc).
    split; [reflexivity|]. do 3 (split; [reflexivity|]).
    split; [apply np_sum_fin_grid|].
    split; [apply result_buckets_partition|].
    pose proof (poisson_mass_bounds lh la (Z.to_nat K) Hh Ha) as Hb.
    fold cells in Hb. lra.
  - intros Mh Ma.
    assert (Hside : (1 <= Z.to_nat K)%nat \/ lh * la * default_rho < 1).
    { right. apply nonpositive_rho_side_condition; unfold default_rho; lra. }
    pose proof (dixon_coles_raw_mass_pos lh la default_rho (Z.to_nat K) Mh Ma
                  Hside) as HM.
    assert (Hg : exists g : grid,
               calculate_dixon_coles_matrix lh la K default_rho = Ok g /\
               np_sum g = Fin 1).
    { apply dixon_coles_sums_to_1; try assumption.
      right. apply nonpositive_rho_side_condition; unfold default_rho; lra. }
    destruct Hg as [g [Hg Hs]].
    rewrite dixon_coles_matrix_finite in Hg by (try assumption; lra).
    rewrite dixon_coles_matrix_finite by (try assumption; lra).
    set (cells := rtabulate _ _ _).
    assert (Hshape : length cells = S (Z.to_nat K) /\
                     Forall (fun row => length row = S (Z.to_nat K)) cells)
      by apply rtabulate_shape.
    destruct Hshape as [Hr Hc].
    assert (Hmass : mass cells = 1).
    { injection Hg as <-. now apply fin_mass_of_sum. }
    do 5 eexists. split; [reflexivity|].
    rewrite (market_dict_finite _ cells Hr Hc).
    split; [reflexivity|]. do 3 (split; [reflexivity|]).
    rewrite result_buckets_partition, Hmass.
    replace (1 - 1) with 0 by lra. rewrite Rabs_R0. lra.
Qed.

Lemma result_markets_of_builders_witness :
  (exists (g : grid) (d : dict npfloat) (h x a s : R),
      calculate_poisson_probabilities 1.5 1 5 = Ok g /\
      calculate_market_probabilities g = Ok d /\
      dict_get d "1" = Some (Fin h) /\
      dict_get d "X" = Some (Fin x) /\
      dict_get d "2" = Some (Fin a) /\
      np_sum g = Fin s /\ h + x + a = s /\ s <= 1 + 1e-9) /\
  (exists (g : grid) (d : dict npfloat) (h x a : R),
      calculate_dixon_coles_matrix 1.5 1 5 default_rho = Ok g /\
      calculate_market_probabilities g = Ok d /\
      dict_get d "1" = Some (Fin h) /\
      dict_get d "X" = Some (Fin x) /\
      dict_get d "2" = Some (Fin a) /\
      Rabs (h + x + a - 1) <= 1e-9).
Proof.
  destruct (result_markets_of_builders 1.5 1 5) as [HP HD]; [lra | lra | lia |].
  split; [exact HP|].
  apply HD; apply moderate_rate_from; lra.
Defined.

(** ** Score Ranker: maximum, prefixes, negative n, rescaling *)

(** The ranking of the cells of a grid of finite cells with at least one
    row: what [find_most_probable_scores] slices. *)
Lemma ranker_ranked (r c : nat) (cells : list (list R)) :
  length cells = S r -> Forall (fun row => length row = c) cells ->
  exists ranked : list (nat * nat * R),
    Permutation ranked (indexed_cells cells) /\
    StronglySorted ranks_before ranked /\
    length ranked = (S r * c)%nat /\
    forall N : Z,
      find_most_probable_scores (fin_grid cells) N =
        Ok (py_slice_to (map labelled ranked) N).
Proof.
  intros Hr Hc.
  destruct (indexed_cells_from_row_major cells 0) as [_ Hrm].
  destruct (py_sorted_reverse_spec snd _ (indexed_cells cells) Hrm) as [Hperm Hs].
  exists (py_sorted_reverse (fin_key snd) (indexed_cells cells)).
  split; [exact Hperm|]. split; [exact Hs|]. split.
  - rewrite (Permutation_length Hperm). unfold indexed_cells.
    now rewrite (length_indexed_cells_from c cells Hc), Hr.
  - intros N. now apply (ranker_result r c).
Qed.

Lemma ranked_head_is_max (ranked : list (nat * nat * R)) (c0 : nat * nat * R)
      (rest : list (nat * nat * R)) :
  StronglySorted ranks_before ranked -> ranked = c0 :: rest ->
  forall c, In c ranked -> snd c <= snd c0.
Proof.
  intros Hs -> c [<-|Hin]; [lra|].
  apply StronglySorted_inv in Hs. destruct Hs as [_ Hall].
  rewrite Forall_forall in Hall. destruct (Hall c Hin) as [Hlt|[Heq _]]; lra.
Qed.

(** X17.  On a grid of finite cells with at least one cell, and for n >= 1,
    the first pair returned carries the largest probability of the grid. *)
Theorem ranker_first_is_maximum (r c : nat) (cells : list (list R)) (N : Z) :
  length cells = S r -> Forall (fun row => length row = S c) cells ->
  (1 <= N)%Z ->
  exists (placar : string) (p : R) (rest : list (string * npfloat)),
    find_most_probable_scores (fin_grid cells) N = Ok ((placar, Fin p) :: rest) /\
    In p (concat cells) /\
    forall x, In x (concat cells) -> x <= p.
Proof.
  intros Hr Hc HN.
  destruct (ranker_ranked r (S c) cells Hr Hc) as [ranked [Hperm [Hs [Hlen Hres]]]].
  destruct ranked as [|c0 rest]; [cbn [length] in Hlen; lia|].
  exists (placar_label (fst (fst c0)) (snd (fst c0))), (snd c0).
  exists (firstn (Z.to_nat N - 1) (map labelled rest)).
  split; [|split].
  - rewrite Hres. unfold py_slice_to. destruct (Z.ltb_spec N 0); [lia|].
    destruct (Z.to_nat N) as [|k] eqn:Hk; [lia|].
    cbn [map firstn]. now rewrite Nat.sub_succ, Nat.sub_0_r.
  - rewrite <- (map_snd_indexed_cells_from cells 0). apply in_map.
    apply (Permutation_in _ Hperm). now left.
  - intros x Hx. rewrite <- (map_snd_indexed_cells_from cells 0) in Hx.
    apply in_map_iff in Hx. destruct Hx as [cx [<- Hcx]].
    apply (ranked_head_is_max (c0 :: rest) c0 rest Hs eq_refl).
    apply (Permutation_in _ (Permutation_sym Hperm)). exact Hcx.
Qed.

Lemma ranker_first_is_maximum_witness :
  exists (placar : string) (p : R) (rest : list (string * npfloat)),
    find_most_probable_scores (fin_grid [[0.1; 0.4]; [0.4; 0.1]]) 3 =
      Ok ((placar, Fin p) :: rest) /\
    In p (concat [[0.1; 0.4]; [0.4; 0.1]]) /\
    forall x, In x (concat [[0.1; 0.4]; [0.4; 0.1]]) -> x <= p.
Proof.
  apply (ranker_first_is_maximum 1 1 [[0.1; 0.4]; [0.4; 0.1]] 3).
  - reflexivity.
  - repeat constructor.
  - lia.
Defined.

(** X18.  The answers for different n are prefixes of one ranking: for
    0 <= n <= m the list returned for n is the first n entries of the list
    returned for m. *)
Theorem ranker_prefix (r c : nat) (cells : list (list R)) (n m : Z) :
  length cells = S r -> Forall (fun row => length row = c) cells ->
  (0 <= n <= m)%Z ->
  exists lm : list (string * npfloat),
    find_most_probable_scores (fin_grid cells) m = Ok lm /\
    find_most_probable_scores (fin_grid cells) n = Ok (firstn (Z.to_nat n) lm).
Proof.
  intros Hr Hc Hnm.
  destruct (ranker_ranked r c cells Hr Hc) as [ranked [_ [_ [_ Hres]]]].
  rewrite !Hres. unfold py_slice_to.
  destruct (Z.ltb_spec n 0); [lia|]. destruct (Z.ltb_spec m 0); [lia|].
  eexists. split; [reflexivity|].
  rewrite firstn_firstn. do 2 f_equal. lia.
Qed.

Lemma ranker_prefix_witness :
  exists lm : list (string * npfloat),
    find_most_probable_scores (fin_grid [[0.1; 0.4]; [0.4; 0.1]]) 3 = Ok lm /\
    find_most_probable_scores (fin_grid [[0.1; 0.4]; [0.4; 0.1]]) 2 =
      Ok (firstn (Z.to_nat 2) lm).
Proof.
  apply (ranker_prefix 1 2 [[0.1; 0.4]; [0.4; 0.1]] 2 3).
  - reflexivity.
  - repeat constructor.
  - lia.
Defined.

(** X19.  A negative n is not refused: as a Python slice bound it drops the
    last |n| entries of the full ranking, that is the |n| least probable
    scores (and everything when |n| is at least the number of cells). *)
Theorem ranker_negative_n (r c : nat) (cells : list (list R)) (n : Z) :
  length cells = S r -> Forall (fun row => length row = c) cells ->
  (n < 0)%Z ->
  exists full : list (string * npfloat),
    find_most_probable_scores (fin_grid cells) (Z.of_nat (S r * c)) = Ok full /\
    length full = (S r * c)%nat /\
    find_most_probable_scores (fin_grid cells) n =
      Ok (firstn (S r * c - Z.to_nat (- n)) full).
Proof.
  intros Hr Hc Hn.
  destruct (ranker_ranked r c cells Hr Hc) as [ranked [_ [_ [Hlen Hres]]]].
  rewrite !Hres. unfold py_slice_to.
  destruct (Z.ltb_spec n 0); [|lia].
  destruct (Z.ltb_spec (Z.of_nat (S r * c)) 0); [lia|].
  exists (map labelled ranked).
  rewrite firstn_all2 by (rewrite length_map; lia).
  split; [reflexivity|]. split; [now rewrite length_map|].
  now rewrite length_map, Hlen.
Qed.

Lemma ranker_negative_n_witness :
  exists full : list (string * npfloat),
    find_most_probable_scores (fin_grid [[0.1; 0.4]; [0.4; 0.1]])
                              (Z.of_nat (2 * 2)) = Ok full /\
    length full = (2 * 2)%nat /\
    find_most_probable_scores (fin_grid [[0.1; 0.4]; [0.4; 0.1]]) (-1) =
      Ok (firstn (2 * 2 - Z.to_nat (- -1)) full).
Proof.
  apply (ranker_negative_n 1 2 [[0.1; 0.4]; [0.4; 0.1]] (-1)).
  - reflexivity.
  - repeat constructor.
  - lia.
Defined.

Lemma insert_by_ext {A : Type} (k1 k2 : A -> npfloat) (x : A) (l : list A) :
  (forall a b, np_lt (k1 a) (k1 b) = np_lt (k2 a) (k2 b)) ->
  insert_by k1 x l = insert_by k2 x l.
Proof.
  intros H. induction l as [|y l IH]; cbn [insert_by]; [reflexivity|].
  now rewrite H, IH.
Qed.

Lemma stable_sort_ext {A : Type} (k1 k2 : A -> npfloat) (l : list A) :
  (forall a b, np_lt (k1 a) (k1 b) = np_lt (k2 a) (k2 b)) ->
  stable_sort k1 l = stable_sort k2 l.
Proof.
  intros H. induction l as [|x l IH]; cbn [stable_sort]; [reflexivity|].
  rewrite IH. now apply insert_by_ext.
Qed.

Lemma np_lt_scale (c a b : R) :
  0 < c -> np_lt (Fin (c * a)) (Fin (c * b)) = np_lt (Fin a) (Fin b).
Proof.
  intros Hc. cbn [np_lt].
  destruct (Rlt_dec (c * a) (c * b)) as [H|H], (Rlt_dec a b) as [H'|H'];
    try reflexivity; exfalso.
  - apply H'. apply (Rmult_lt_reg_l c); assumption.
  - apply H. now apply Rmult_lt_compat_l.
Qed.

Lemma py_slice_to_map {A B : Type} (f : A -> B) (l : list A) (n : Z) :
  py_slice_to (map f l) n = map f (py_slice_to l n).
Proof.
  unfold py_slice_to. rewrite length_map.
  destruct (n <? 0)%Z; now rewrite firstn_map.
Qed.

(** The ranking of a grid whose cells are all multiplied by c > 0. *)
Lemma ranker_rescaled (r n : nat) (cells : list (list R)) (c : R) (N : Z) :
  length cells = S r -> Forall (fun row => length row = n) cells ->
  0 < c ->
  exists l l' : list (string * npfloat),
    find_most_probable_scores (fin_grid cells) N = Ok l /\
    find_most_probable_scores
      (fin_grid (map (map (fun x => c * x)) cells)) N = Ok l' /\
    map fst l' = map fst l /\
    map snd l' = map (np_mul (Fin c)) (map snd l).
Proof.
  intros Hr Hn Hc.
  assert (Hr' : length (map (map (fun x => c * x)) cells) = S r)
    by now rewrite length_map.
  assert (Hn' : Forall (fun row => length row = n)
                       (map (map (fun x => c * x)) cells)).
  { apply Forall_map. eapply Forall_impl; [|exact Hn].
    intros row Hrow. now rewrite length_map. }
  rewrite (ranker_result r n cells N Hr Hn).
  rewrite (ranker_result r n _ N Hr' Hn').
  do 2 eexists. split; [reflexivity|]. split; [reflexivity|].
  unfold indexed_cells. rewrite indexed_cells_from_map.
  rewrite py_sorted_reverse_map.
  assert (Hsort :
            py_sorted_reverse
              (fun a : nat * nat * R => fin_key snd (fst a, c * snd a))
              (indexed_cells_from 0 cells)
            = py_sorted_reverse (fin_key snd) (indexed_cells_from 0 cells)).
  { unfold py_sorted_reverse. f_equal. apply stable_sort_ext.
    intros a b. unfold fin_key. cbn [snd]. now apply np_lt_scale. }
  rewrite Hsort, !py_slice_to_map, !map_map. split.
  - reflexivity.
  - apply map_ext. intros x. reflexivity.
Qed.

(** X20.  Multiplying every cell of a grid of finite cells by the same
    c > 0 changes neither which scores are returned nor their order; only
    the probabilities carried are multiplied by c.  Normalising a grid
    therefore never changes its ranking. *)
Theorem ranker_invariant_under_rescaling (r n : nat) (cells : list (list R))
        (c : R) (N : Z) :
  length cells = S r -> Forall (fun row => length row = n) cells ->
  0 < c ->
  exists l l' : list (string * npfloat),
    find_most_probable_scores (fin_grid cells) N = Ok l /\
    find_most_probable_scores
      (fin_grid (map (map (fun x => c * x)) cells)) N = Ok l' /\
    map fst l' = map fst l /\
    map snd l' = map (np_mul (Fin c)) (map snd l).
Proof.
  intros Hr Hn Hc. now apply (ranker_rescaled r n).
Qed.

Lemma ranker_invariant_under_rescaling_witness :
  exists l l' : list (string * npfloat),
    find_most_probable_scores (fin_grid [[0.1; 0.4]; [0.4; 0.1]]) 3 = Ok l /\
    find_most_probable_scores
      (fin_grid (map (map (fun x => 2 * x)) [[0.1; 0.4]; [0.4; 0.1]])) 3 = Ok l' /\
    map fst l' = map fst l /\
    map snd l' = map (np_mul (Fin 2)) (map snd l).
Proof.
  apply (ranker_invariant_under_rescaling 1 2 [[0.1; 0.4]; [0.4; 0.1]] 2 3).
  - reflexivity.
  - repeat constructor.
  - lra.
Defined.

(** ** Historical Blender: what it depends on, when it fails *)

(** The blender for K >= 0 and any base: the history enters only through
    its empirical frequencies. *)
Lemma blend_through_frequencies (K : nat) (base : grid)
      (history : list (nat * nat)) (w : R) :
  adjust_probabilities_with_history base history w (Z.of_nat K) =
    (let hist_part :=
       grid_scale (Fin w) (fin_grid (empirical_frequency K history)) in
     let base_part := grid_scale (Fin (1 - w)) base in
     prob_ajustada <-
       (if shape_eqb base (nrows hist_part) (ncols hist_part)
        then Ok (grid_map2 np_add base_part hist_part)
        else if shape_eqb hist_part 1 1
        then Ok (grid_map (fun x => np_add x (nth 0 (nth 0 hist_part []) NaN))
                          base_part)
        else Err ValueError) ;;
     Ok (grid_div prob_ajustada (np_sum prob_ajustada))).
Proof.
  unfold adjust_probabilities_with_history.
  rewrite bind_assoc, frequency_grid. cbn [bind].
  now rewrite (prob_historica_finite K history).
Qed.

Lemma score_count_perm (K : nat) (h1 h2 : list (nat * nat)) (i j : nat) :
  Permutation h1 h2 -> score_count K h1 i j = score_count K h2 i j.
Proof.
  unfold score_count. induction 1 as [|r l l' _ IH|r r' l|l l' l'' _ IH1 _ IH2].
  - reflexivity.
  - cbn [filter]. destruct (_ && _); cbn [length]; now rewrite IH.
  - cbn [filter]. repeat destruct (_ && _); reflexivity.
  - now rewrite IH1.
Qed.

(** X22.  For K >= 0 the blender does not depend on the order of the past
    results: two histories that are permutations of each other give the
    same outcome, for any base grid and weight. *)
Theorem blend_ignores_history_order (K : nat) (base : grid)
        (h1 h2 : list (nat * nat)) (w : R) :
  Permutation h1 h2 ->
  adjust_probabilities_with_history base h1 w (Z.of_nat K) =
    adjust_probabilities_with_history base h2 w (Z.of_nat K).
Proof.
  intros Hperm. rewrite !blend_through_frequencies.
  assert (Hfreq : empirical_frequency K h1 = empirical_frequency K h2).
  { unfold empirical_frequency. apply rtabulate_ext. intros i j.
    now rewrite (score_count_perm K h1 h2 i j Hperm), (Permutation_length Hperm). }
  now rewrite Hfreq.
Qed.

Lemma blend_ignores_history_order_witness :
  adjust_probabilities_with_history (fin_grid [[0.4; 0.2]; [0.3; 0.1]])
    [(1, 0); (0, 0)]%nat 0.3 (Z.of_nat 1) =
  adjust_probabilities_with_history (fin_grid [[0.4; 0.2]; [0.3; 0.1]])
    [(0, 0); (1, 0)]%nat 0.3 (Z.of_nat 1).
Proof.
  apply (blend_ignores_history_order 1 _ [(1, 0); (0, 0)]%nat [(0, 0); (1, 0)]%nat).
  apply perm_swap.
Defined.

Lemma score_count_clamped (K : nat) (history : list (nat * nat)) (i j : nat) :
  score_count K (map (fun r => (Nat.min (fst r) K, Nat.min (snd r) K)) history) i j
  = score_count K history i j.
Proof.
  unfold score_count. induction history as [|r history IH]; [reflexivity|].
  cbn [map filter fst snd].
  replace (Nat.min (Nat.min (fst r) K) K) with (Nat.min (fst r) K) by lia.
  replace (Nat.min (Nat.min (snd r) K) K) with (Nat.min (snd r) K) by lia.
  destruct (_ && _); cbn [length]; now rewrite IH.
Qed.

(** X23.  For K >= 0 a past result with more than K goals on a side counts
    as the boundary score: replacing every result (h, a) by
    (min h K, min a K) leaves the outcome unchanged, for any base grid and
    weight. *)
Theorem blend_clamps_history (K : nat) (base : grid)
        (history : list (nat * nat)) (w : R) :
  adjust_probabilities_with_history base
    (map (fun r => (Nat.min (fst r) K, Nat.min (snd r) K)) history) w (Z.of_nat K) =
  adjust_probabilities_with_history base history w (Z.of_nat K).
Proof.
  rewrite !blend_through_frequencies.
  assert (Hfreq :
            empirical_frequency K
              (map (fun r => (Nat.min (fst r) K, Nat.min (snd r) K)) history)
            = empirical_frequency K history).
  { unfold empirical_frequency. apply rtabulate_ext. intros i j.
    now rewrite score_count_clamped, length_map. }
  now rewrite Hfreq.
Qed.

Lemma shape_eqb_rectangular (g : grid) (r c : nat) :
  shape_eqb g r c = true <-> rectangular r c g.
Proof.
  unfold shape_eqb, rectangular. rewrite andb_true_iff, Nat.eqb_eq, forallb_forall.
  rewrite Forall_forall. split; intros [Hr Hc]; (split; [exact Hr|]);
    intros row Hrow; specialize (Hc row Hrow); now apply Nat.eqb_eq.
Qed.

(** X24.  For K >= 1 a base grid that is not (K+1) x (K+1) is refused with
    ValueError, whatever the history and the weight. *)
Theorem blend_refuses_other_shapes (K : nat) (base : grid)
        (history : list (nat * nat)) (w : R) :
  (1 <= K)%nat -> ~ rectangular (S K) (S K) base ->
  adjust_probabilities_with_history base history w (Z.of_nat K) = Err ValueError.
Proof.
  intros HK Hshape. rewrite blend_through_frequencies. cbv zeta.
  unfold empirical_frequency, grid_scale.
  rewrite fin_grid_rtabulate, tabulate_map.
  destruct (tabulate_shape K (S K)
              (fun i j => np_mul (Fin w)
                            (Fin (INR (score_count K history i j)
                                  / INR (length history))))) as [-> ->].
  destruct (shape_eqb base (S K) (S K)) eqn:Hb.
  - exfalso. apply Hshape. now apply shape_eqb_rectangular.
  - assert (Hone : shape_eqb
                     (tabulate (S K) (S K)
                        (fun i j => np_mul (Fin w)
                                      (Fin (INR (score_count K history i j)
                                            / INR (length history))))) 1 1 = false).
    { unfold shape_eqb, tabulate. rewrite length_map, length_seq.
      destruct (Nat.eqb_spec (S K) 1); [lia | reflexivity]. }
    rewrite Hone. reflexivity.
Qed.

Lemma blend_refuses_other_shapes_witness :
  adjust_probabilities_with_history [[Fin 1]] [] 0.3 (Z.of_nat 1) = Err ValueError.
Proof.
  apply (blend_refuses_other_shapes 1 [[Fin 1]] [] 0.3).
  - lia.
  - intros [Hr _]. discriminate.
Defined.

(** X25.  A negative max_goals is not validated either: for
    max_goals <= -2 the blender raises the ValueError of [np.zeros], and for
    max_goals = -1 with a non-empty history the first count raises
    IndexError on the empty frequency grid. *)
Theorem blend_negative_max_goals (base : grid) (history : list (nat * nat))
        (w : R) (K : Z) :
  ((K <= -2)%Z ->
   adjust_probabilities_with_history base history w K = Err ValueError) /\
  (K = (-1)%Z -> history <> [] ->
   adjust_probabilities_with_history base history w K = Err IndexError).
Proof.
  unfold adjust_probabilities_with_history, np_zeros. split.
  - intros HK. destruct (Z.ltb_spec (K + 1) 0); [reflexivity | lia].
  - intros -> Hne. destruct history as [|[h a] history]; [contradiction|].
    cbn [Z.add Z.ltb Z.compare Z.to_nat repeat bind for_each].
    unfold count_result. cbn [fst snd].
    destruct (Z.leb_spec (Z.of_nat h) (-1)); [lia|].
    destruct (Z.leb_spec (Z.of_nat a) (-1)); [lia|].
    cbn [andb]. rewrite andb_false_r. reflexivity.
Qed.

Lemma blend_negative_max_goals_witness :
  adjust_probabilities_with_history [] [(1, 0)]%nat 0.3 (-2) = Err ValueError /\
  adjust_probabilities_with_history [] [(1, 0)]%nat 0.3 (-1) = Err IndexError.
Proof.
  split.
  - apply (proj1 (blend_negative_max_goals [] [(1, 0)]%nat 0.3 (-2))). lia.
  - apply (proj2 (blend_negative_max_goals [] [(1, 0)]%nat 0.3 (-1)));
      [reflexivity | discriminate].
Defined.

(** ** Historical Blender: the mix and its normalisation *)

Lemma cell_nonneg (cells : list (list R)) (i j : nat) :
  Forall (Forall (fun x => 0 <= x)) cells -> 0 <= cell cells i j.
Proof.
  intros Hpos. unfold cell.
  destruct (Nat.lt_ge_cases i (length cells)) as [Hi|Hi].
  - assert (Hrow : Forall (fun x => 0 <= x) (nth i cells [])).
    { rewrite Forall_forall in Hpos. apply Hpos. now apply nth_In. }
    destruct (Nat.lt_ge_cases j (length (nth i cells []))) as [Hj|Hj].
    + rewrite Forall_forall in Hrow. apply Hrow. now apply nth_In.
    + rewrite nth_overflow by assumption. lra.
  - rewrite (nth_overflow cells) by assumption. destruct j; simpl; lra.
Qed.

Lemma empirical_share_nonneg (K : nat) (history : list (nat * nat)) (i j : nat) :
  0 <= INR (score_count K history i j) / INR (length history).
Proof.
  unfold Rdiv. destruct history as [|r history].
  - unfold score_count. cbn. rewrite Rmult_0_l. lra.
  - apply Rmult_le_pos; [apply pos_INR|].
    left. apply Rinv_0_lt_compat. apply lt_0_INR. cbn [length]. lia.
Qed.

(** The mass of the mix before the final normalisation. *)
Lemma blend_mix_mass (K : nat) (cells : list (list R))
      (history : list (nat * nat)) (w : R) :
  length cells = S K -> Forall (fun row => length row = S K) cells ->
  mass (rtabulate (S K) (S K)
          (fun i j =>
             (1 - w) * cell cells i j
             + w * (INR (score_count K history i j) / INR (length history))))
  = (1 - w) * mass cells + w * mass (empirical_frequency K history).
Proof.
  intros Hr Hc. rewrite mass_rtabulate_plus, !mass_scaled.
  now rewrite <- (cells_as_rtabulate (S K) (S K) cells Hr Hc).
Qed.

Lemma empirical_frequency_mass_empty (K : nat) :
  mass (empirical_frequency K []) = 0.
Proof.
  unfold empirical_frequency. rewrite mass_rtabulate.
  apply Rsum_map_zero. intros i _. apply Rsum_map_zero. intros j _.
  unfold score_count, Rdiv. cbn. now rewrite Rmult_0_l.
Qed.

(** The blender on a finite base whenever the mix has a non-zero mass. *)
Lemma blend_normalized (K : nat) (cells : list (list R))
      (history : list (nat * nat)) (w : R) :
  length cells = S K -> Forall (fun row => length row = S K) cells ->
  let mix := fun i j =>
               (1 - w) * cell cells i j
               + w * (INR (score_count K history i j) / INR (length history)) in
  let M := (1 - w) * mass cells + w * mass (empirical_frequency K history) in
  M <> 0 ->
  adjust_probabilities_with_history (fin_grid cells) history w (Z.of_nat K) =
    Ok (fin_grid (rtabulate (S K) (S K) (fun i j => mix i j / M))).
Proof.
  intros Hr Hc. cbv zeta. intros HM.
  rewrite blend_finite by assumption. f_equal.
  rewrite <- (blend_mix_mass K cells history w Hr Hc) in HM |- *.
  destruct (normalize_fin_grid _ HM) as [Hn _]. rewrite Hn. f_equal.
  unfold rtabulate. rewrite map_map. apply map_ext. intros i. now rewrite map_map.
Qed.

(** X26.  On a (K+1) x (K+1) base of finite non-negative cells and for a
    weight in [0,1], the blender returns a (K+1) x (K+1) grid of finite
    non-negative cells that sums to 1, provided some mass enters the mix:
    the weight is below 1 and the base has positive mass, or the weight is
    positive and the history is not empty. *)
Theorem blend_returns_distribution (K : nat) (cells : list (list R))
        (history : list (nat * nat)) (w : R) :
  length cells = S K -> Forall (fun row => length row = S K) cells ->
  Forall (Forall (fun x => 0 <= x)) cells ->
  0 <= w <= 1 ->
  (w < 1 /\ 0 < mass cells) \/ (0 < w /\ history <> []) ->
  exists g : grid,
    adjust_probabilities_with_history (fin_grid cells) history w (Z.of_nat K)
      = Ok g /\
    rectangular (S K) (S K) g /\
    Forall (Forall finite_nonneg) g /\
    np_sum g = Fin 1.
Proof.
  intros Hr Hc Hpos Hw Hsome.
  assert (Hbase : 0 <= mass cells).
  { unfold mass. apply Rsum_nonneg. apply Forall_concat. exact Hpos. }
  assert (Hemp : 0 <= mass (empirical_frequency K history) /\
                 (history <> [] -> mass (empirical_frequency K history) = 1)).
  { split; [|apply empirical_frequency_mass].
    destruct history as [|r history].
    - rewrite empirical_frequency_mass_empty. lra.
    - rewrite empirical_frequency_mass by discriminate. lra. }
  destruct Hemp as [Hemp0 Hemp1].
  set (M := (1 - w) * mass cells + w * mass (empirical_frequency K history)).
  assert (HM : 0 < M).
  { unfold M. destruct Hsome as [[Hw1 Hm]|[Hw0 Hne]].
    - assert (0 < (1 - w) * mass cells) by (apply Rmult_lt_0_compat; lra).
      assert (0 <= w * mass (empirical_frequency K history))
        by (apply Rmult_le_pos; lra). lra.
    - rewrite (Hemp1 Hne).
      assert (0 <= (1 - w) * mass cells) by (apply Rmult_le_pos; lra). lra. }
  rewrite blend_normalized by (try assumption; fold M; lra). fold M.
  eexists. split; [reflexivity|]. split; [|split].
  - apply fin_grid_rectangular; apply rtabulate_shape.
  - unfold fin_grid, rtabulate. rewrite !map_map.
    apply Forall_map, Forall_forall. intros i _. rewrite map_map.
    apply Forall_map, Forall_forall. intros j _.
    eexists. split; [reflexivity|]. unfold Rdiv.
    apply Rmult_le_pos; [|left; now apply Rinv_0_lt_compat].
    apply Rplus_le_le_0_compat; apply Rmult_le_pos; try lra.
    + now apply cell_nonneg.
    + apply empirical_share_nonneg.
  - rewrite np_sum_fin_grid. f_equal.
    rewrite (mass_rtabulate_ext _ _ _
               (fun i j => / M * ((1 - w) * cell cells i j
                                  + w * (INR (score_count K history i j)
                                         / INR (length history)))))
      by (intros; unfold Rdiv; ring).
    rewrite mass_scaled, (blend_mix_mass K cells history w Hr Hc). fold M.
    field. lra.
Qed.

Lemma blend_returns_distribution_witness :
  exists g : grid,
    adjust_probabilities_with_history (fin_grid [[0.2; 0.1]; [0.3; 0.1]])
      [(3, 0); (1, 1)]%nat 0.3 (Z.of_nat 1) = Ok g /\
    rectangular 2 2 g /\
    Forall (Forall finite_nonneg) g /\
    np_sum g = Fin 1.
Proof.
  apply (blend_returns_distribution 1 [[0.2; 0.1]; [0.3; 0.1]]
           [(3, 0); (1, 1)]%nat 0.3).
  - reflexivity.
  - repeat constructor.
  - repeat constructor; lra.
  - lra.
  - right. split; [lra | discriminate].
Defined.

(** X27.  When the base grid has mass 1 and the history is not empty, the
    final normalisation changes nothing: the cell (i,j) of the outcome is
    exactly (1 - w) * base(i,j) + w * share(i,j), where share(i,j) is the
    fraction of the past results whose clamped score is (i,j). *)
Theorem blend_is_convex_combination (K : nat) (cells : list (list R))
        (history : list (nat * nat)) (w : R) :
  length cells = S K -> Forall (fun row => length row = S K) cells ->
  mass cells = 1 -> history <> [] ->
  adjust_probabilities_with_history (fin_grid cells) history w (Z.of_nat K) =
    Ok (fin_grid
          (rtabulate (S K) (S K)
             (fun i j =>
                (1 - w) * cell cells i j
                + w * (INR (score_count K history i j) / INR (length history))))).
Proof.
  intros Hr Hc Hm Hne.
  assert (HM : (1 - w) * mass cells + w * mass (empirical_frequency K history) = 1).
  { rewrite Hm, empirical_frequency_mass by assumption. lra. }
  rewrite blend_normalized by (try assumption; rewrite HM; lra).
  rewrite HM. do 2 apply f_equal. apply rtabulate_ext. intros i j.
  unfold Rdiv. rewrite Rinv_1. ring.
Qed.

Lemma blend_is_convex_combination_witness :
  adjust_probabilities_with_history (fin_grid [[0.4; 0.2]; [0.3; 0.1]])
    [(3, 0); (1, 1)]%nat 0.3 (Z.of_nat 1) =
    Ok (fin_grid
          (rtabulate 2 2
             (fun i j =>
                (1 - 0.3) * cell [[0.4; 0.2]; [0.3; 0.1]] i j
                + 0.3 * (INR (score_count 1 [(3, 0); (1, 1)]%nat i j)
                         / INR (length [(3, 0); (1, 1)]%nat))))).
Proof.
  apply (blend_is_convex_combination 1 [[0.4; 0.2]; [0.3; 0.1]]
           [(3, 0); (1, 1)]%nat 0.3).
  - reflexivity.
  - repeat constructor.
  - unfold mass. cbn. lra.
  - discriminate.
Defined.

(** ** Report helpers: the most probable result *)

Lemma np_gt_fin (a b : R) : np_gt (Fin a) (Fin b) = true <-> b < a.
Proof.
  unfold np_gt. cbn [np_lt]. destruct (Rlt_dec b a); split; intros H;
    try reflexivity; try assumption; try discriminate; contradiction.
Qed.

Lemma np_gt_fin_false (a b : R) : np_gt (Fin a) (Fin b) = false <-> a <= b.
Proof.
  unfold np_gt. cbn [np_lt]. destruct (Rlt_dec b a); split; intros H;
    try reflexivity; try discriminate; lra.
Qed.

(** The label returned on three finite result entries. *)
Lemma result_label_cases (d : dict npfloat) (h x a : R) :
  dict_get d "1" = Some (Fin h) ->
  dict_get d "X" = Some (Fin x) ->
  dict_get d "2" = Some (Fin a) ->
  (get_most_probable_result d = "Vitória do time da casa"%string
   <-> (x < h /\ a < h)) /\
  (get_most_probable_result d = "Empate"%string <-> (h < x /\ a < x)) /\
  (get_most_probable_result d = "Vitória do time visitante"%string
   <-> (~ (x < h /\ a < h) /\ ~ (h < x /\ a < x))) /\
  (h = x -> a < h ->
   get_most_probable_result d = "Vitória do time visitante"%string).
Proof.
  intros H1 HX H2. unfold get_most_probable_result. rewrite H1, HX, H2.
  destruct (np_gt (Fin h) (Fin x)) eqn:Ehx;
    destruct (np_gt (Fin h) (Fin a)) eqn:Eha;
    destruct (np_gt (Fin x) (Fin h)) eqn:Exh;
    destruct (np_gt (Fin x) (Fin a)) eqn:Exa;
    cbn [andb];
    repeat match goal with
      | H : np_gt (Fin _) (Fin _) = true |- _ => apply np_gt_fin in H
      | H : np_gt (Fin _) (Fin _) = false |- _ => apply np_gt_fin_false in H
      end;
    repeat split; intros; try discriminate; try reflexivity; try lra;
    try (exfalso; lra);
    try match goal with
      | H : _ /\ _ |- _ => destruct H; exfalso; lra
      end;
    try (intros [? ?]; lra).
Qed.

(** X28.  With the three result entries present and finite, the home win is
    reported exactly when its probability is strictly above both others,
    the draw exactly when its probability is strictly above both others,
    and the away win in every other case: also when home and draw tie
    above the away win, which is then reported although it is the least
    probable of the three. *)
Theorem most_probable_result_cases (d : dict npfloat) (h x a : R) :
  dict_get d "1" = Some (Fin h) ->
  dict_get d "X" = Some (Fin x) ->
  dict_get d "2" = Some (Fin a) ->
  (get_most_probable_result d = "Vitória do time da casa"%string
   <-> (x < h /\ a < h)) /\
  (get_most_probable_result d = "Empate"%string <-> (h < x /\ a < x)) /\
  (get_most_probable_result d = "Vitória do time visitante"%string
   <-> (~ (x < h /\ a < h) /\ ~ (h < x /\ a < x))) /\
  (h = x -> a < h ->
   get_most_probable_result d = "Vitória do time visitante"%string).
Proof.
  intros H1 HX H2. now apply result_label_cases.
Qed.

Lemma most_probable_result_cases_witness :
  let d := [("1", Fin 0.4); ("X", Fin 0.4); ("2", Fin 0.2)]%string in
  (get_most_probable_result d = "Vitória do time da casa"%string
   <-> (0.4 < 0.4 /\ 0.2 < 0.4)) /\
  (get_most_probable_result d = "Empate"%string <-> (0.4 < 0.4 /\ 0.2 < 0.4)) /\
  (get_most_probable_result d = "Vitória do time visitante"%string
   <-> (~ (0.4 < 0.4 /\ 0.2 < 0.4) /\ ~ (0.4 < 0.4 /\ 0.2 < 0.4))) /\
  (0.4 = 0.4 -> 0.2 < 0.4 ->
   get_most_probable_result d = "Vitória do time visitante"%string).
Proof.
  apply (most_probable_result_cases
           [("1", Fin 0.4); ("X", Fin 0.4); ("2", Fin 0.2)]%string 0.4 0.4 0.2);
    reflexivity.
Defined.

Lemma py_max3_fin (h x a : R) :
  py_max3 (Fin h) (Fin x) (Fin a) = Fin (Rmax (Rmax h x) a).
Proof.
  unfold py_max3.
  destruct (np_gt (Fin x) (Fin h)) eqn:E1.
  - apply np_gt_fin in E1. rewrite (Rmax_right h x) by lra.
    destruct (np_gt (Fin a) (Fin x)) eqn:E2.
    + apply np_gt_fin in E2. now rewrite Rmax_right by lra.
    + apply np_gt_fin_false in E2. now rewrite Rmax_left by lra.
  - apply np_gt_fin_false in E1. rewrite (Rmax_left h x) by lra.
    destruct (np_gt (Fin a) (Fin h)) eqn:E2.
    + apply np_gt_fin in E2. now rewrite Rmax_right by lra.
    + apply np_gt_fin_false in E2. now rewrite Rmax_left by lra.
Qed.

(** X29.  With the three result entries present and finite,
    [get_result_probability] returns their maximum.  It agrees with
    [get_most_probable_result] whenever one entry is strictly the largest,
    but not on a tie between home and draw above the away win: the label is
    then the away win while the probability returned is the one of the
    tied pair. *)
Theorem result_probability_is_maximum (d : dict npfloat) (h x a : R) :
  dict_get d "1" = Some (Fin h) ->
  dict_get d "X" = Some (Fin x) ->
  dict_get d "2" = Some (Fin a) ->
  get_result_probability d = Fin (Rmax (Rmax h x) a) /\
  (get_most_probable_result d = "Vitória do time da casa"%string ->
   get_result_probability d = Fin h) /\
  (get_most_probable_result d = "Empate"%string ->
   get_result_probability d = Fin x) /\
  (h = x -> a < h ->
   get_most_probable_result d = "Vitória do time visitante"%string /\
   get_result_probability d = Fin h /\ h <> a).
Proof.
  intros H1 HX H2.
  assert (Hp : get_result_probability d = Fin (Rmax (Rmax h x) a)).
  { unfold get_result_probability. rewrite H1, HX, H2. apply py_max3_fin. }
  destruct (result_label_cases d h x a H1 HX H2) as [Hhome [Hdraw [_ Htie]]].
  rewrite Hp. split; [reflexivity|]. split; [|split].
  - intros Hl. apply Hhome in Hl. f_equal.
    rewrite (Rmax_left h x), Rmax_left by lra. reflexivity.
  - intros Hl. apply Hdraw in Hl. f_equal.
    rewrite (Rmax_right h x), Rmax_left by lra. reflexivity.
  - intros Heq Hlt. split; [now apply Htie|]. split; [|lra]. f_equal.
    rewrite (Rmax_left h x), Rmax_left by lra. reflexivity.
Qed.

Lemma result_probability_is_maximum_witness :
  let d := [("1", Fin 0.4); ("X", Fin 0.4); ("2", Fin 0.2)]%string in
  get_result_probability d = Fin (Rmax (Rmax 0.4 0.4) 0.2) /\
  (get_most_probable_result d = "Vitória do time da casa"%string ->
   get_result_probability d = Fin 0.4) /\
  (get_most_probable_result d = "Empate"%string ->
   get_result_probability d = Fin 0.4) /\
  (0.4 = 0.4 -> 0.2 < 0.4 ->
   get_most_probable_result d = "Vitória do time visitante"%string /\
   get_result_probability d = Fin 0.4 /\ 0.4 <> 0.2).
Proof.
  apply (result_probability_is_maximum
           [("1", Fin 0.4); ("X", Fin 0.4); ("2", Fin 0.2)]%string 0.4 0.4 0.2);
    reflexivity.
Defined.

(** X30.  On the dictionary the aggregator returns for a square grid of
    finite cells the two helpers never take their missing-key exits: the
    result is never "Resultado desconhecido", and the probability returned
    is the largest of the three result sums, hence at least a third of the
    mass of the grid. *)
Theorem result_of_aggregated_grid (n : nat) (cells : list (list R)) :
  length cells = n -> Forall (fun row => length row = n) cells ->
  exists (d : dict npfloat) (p : R),
    calculate_market_probabilities (fin_grid cells) = Ok d /\
    get_most_probable_result d <> "Resultado desconhecido"%string /\
    get_result_probability d = Fin p /\
    p = Rmax (Rmax (bucket_sum (fun i j => (j <? i)%nat) cells)
                   (bucket_sum (fun i j => (i =? j)%nat) cells))
             (bucket_sum (fun i j => (i <? j)%nat) cells) /\
    mass cells <= 3 * p.
Proof.
  intros Hn Hc. rewrite (market_dict_finite n cells Hn Hc).
  set (h := bucket_sum (fun i j => (j <? i)%nat) cells).
  set (x := bucket_sum (fun i j => (i =? j)%nat) cells).
  set (a := bucket_sum (fun i j => (i <? j)%nat) cells).
  do 2 eexists. split; [reflexivity|]. split; [|split; [|split]].
  - unfold get_most_probable_result. cbn [dict_get String.eqb Ascii.eqb Bool.eqb].
    destruct (_ && _); [discriminate|]. destruct (_ && _); discriminate.
  - unfold get_result_probability. cbn [dict_get String.eqb Ascii.eqb Bool.eqb].
    apply py_max3_fin.
  - reflexivity.
  - pose proof (result_buckets_partition cells) as Hsum. fold h x a in Hsum.
    pose proof (Rmax_l (Rmax h x) a). pose proof (Rmax_r (Rmax h x) a).
    pose proof (Rmax_l h x). pose proof (Rmax_r h x). lra.
Qed.

Lemma result_of_aggregated_grid_witness :
  exists (d : dict npfloat) (p : R),
    calculate_market_probabilities (fin_grid [[0.2; 0.1]; [0.3; 0.1]]) = Ok d /\
    get_most_probable_result d <> "Resultado desconhecido"%string /\
    get_result_probability d = Fin p /\
    p = Rmax (Rmax (bucket_sum (fun i j => (j <? i)%nat) [[0.2; 0.1]; [0.3; 0.1]])
                   (bucket_sum (fun i j => (i =? j)%nat) [[0.2; 0.1]; [0.3; 0.1]]))
             (bucket_sum (fun i j => (i <? j)%nat) [[0.2; 0.1]; [0.3; 0.1]]) /\
    mass [[0.2; 0.1]; [0.3; 0.1]] <= 3 * p.
Proof.
  apply (result_of_aggregated_grid 2 [[0.2; 0.1]; [0.3; 0.1]]).
  - reflexivity.
  - repeat constructor.
Defined.
